(** * Verification of the media relay: path manager, recorder, sources

    The development follows the Go sources: the control loop of the RTSP
    server ([program.run]), the recorder agent ([record.NewAgent]), the
    external command runner ([externalcmd.Cmd.run]) and the static
    sources ([rtmpSource.run], [udpSource.run]). *)

From stdpp Require Import gmap strings list fin_maps pretty.
From Stdlib Require Import ZArith Lia Ascii.
From Stdlib.Strings Require Byte.

Local Open Scope Z_scope.
Local Open Scope string_scope.

(** Go errors are carried by their message. *)
Definition error := string.

(* ===================================================================== *)
(** * The control loop of the server: [program.run]                       *)
(* ===================================================================== *)

Module Program.

(** [*client] and [*source] pointers: addresses in an object store. *)
Definition clientId := positive.
Definition sourceId := positive.

(** gortsplib.StreamProtocol and gortsplib.StreamType. *)
Inductive StreamProtocol := StreamProtocolUdp | StreamProtocolTcp.
Inductive StreamType := StreamTypeRtp | StreamTypeRtcp.

#[export] Instance StreamProtocol_eq_dec : EqDecision StreamProtocol.
Proof. solve_decision. Defined.
#[export] Instance StreamType_eq_dec : EqDecision StreamType.
Proof. solve_decision. Defined.

(** The states of a client that the loop assigns or tests; a client
    starts in [clientStateInitial]. *)
Inductive clientState :=
| clientStateInitial
| clientStatePrePlay
| clientStatePlay
| clientStatePreRecord
| clientStateRecord.

#[export] Instance clientState_eq_dec : EqDecision clientState.
Proof. solve_decision. Defined.

(** The [publisher] interface of a path is implemented by clients and by
    sources. *)
Inductive publisherRef :=
| PubClient (c : clientId)
| PubSource (s : sourceId).

#[export] Instance publisherRef_eq_dec : EqDecision publisherRef.
Proof. solve_decision. Defined.

(** A track of a client: the two UDP ports. *)
Record track := { rtpPort : Z; rtcpPort : Z }.

(** A frame as the RTCP receiver of a track sees it. *)
Definition frame := (StreamType * list Byte.byte)%type.

(** The outcome of an iteration that may dereference a nil pointer or
    index a slice out of range. *)
Inductive outcome (A : Type) :=
| Done (a : A)
| Panic.
Arguments Done {A} a.
Arguments Panic {A}.

Section WithTypes.

(** [confPath], the media descriptions of an SDP and the key type of
    [udpClientsByAddr] with its constructor are declared in other files
    of the server: they are parameters. *)
Context {confPath : Type} {mediaDescription : Type}.
Context {udpClientAddr : Type} `{Countable udpClientAddr}.
Variable makeUdpClientAddr : list Byte.byte -> Z -> udpClientAddr.

(** sdp.SessionDescription, as far as the loop reads it. *)
Record sessionDescription := { MediaDescriptions : list mediaDescription }.

(** A path, as far as the loop reads and writes it. *)
Record path := {
  publisher : option publisherRef;
  publisherReady : bool;
  publisherSdpText : list Byte.byte;
  publisherSdpParsed : option sessionDescription;
}.

(** [newPath(p, name, confp, permanent)], the constructor of the file
    of [path]: a parameter. *)
Variable newPath : string -> option confPath -> bool -> path.

(** A client, as far as the loop reads and writes it.  Its path is named
    by the key under which [program.paths] holds it ([None] is nil). *)
Record client := {
  cpath : option string;
  state : clientState;
  streamProtocol : StreamProtocol;
  streamTracks : gmap Z track;
  ip : list Byte.byte;
  zone : string;
  rtcpReceivers : list (list frame);
}.

Record udpClient := {
  uclient : clientId;
  utrackId : Z;
  ustreamType : StreamType;
}.

(** The fields of [program] that the loop reads and writes.  [clients]
    is the set [map[*client]struct{}]; [heap] holds the client objects
    the pointers refer to. *)
Record program := {
  confPaths : gmap string confPath;
  paths : gmap string path;
  clients : gset clientId;
  heap : gmap clientId client;
  udpClientsByAddr : gmap udpClientAddr udpClient;
  publisherCount : Z;
  readerCount : Z;
  hasServerRtp : bool;
  hasServerRtcp : bool;
  hasMetrics : bool;
  hasPprof : bool;
  hasLogFile : bool;
}.

Definition set_paths (f : gmap string path -> gmap string path) (p : program) : program :=
  {| confPaths := confPaths p; paths := f (paths p); clients := clients p;
     heap := heap p; udpClientsByAddr := udpClientsByAddr p;
     publisherCount := publisherCount p; readerCount := readerCount p;
     hasServerRtp := hasServerRtp p; hasServerRtcp := hasServerRtcp p;
     hasMetrics := hasMetrics p; hasPprof := hasPprof p;
     hasLogFile := hasLogFile p |}.

Definition set_heap (f : gmap clientId client -> gmap clientId client) (p : program) : program :=
  {| confPaths := confPaths p; paths := paths p; clients := clients p;
     heap := f (heap p); udpClientsByAddr := udpClientsByAddr p;
     publisherCount := publisherCount p; readerCount := readerCount p;
     hasServerRtp := hasServerRtp p; hasServerRtcp := hasServerRtcp p;
     hasMetrics := hasMetrics p; hasPprof := hasPprof p;
     hasLogFile := hasLogFile p |}.

(** ** [findConfForPathName] *)

Definition findConfForPathName (p : program) (nm : string) : option confPath :=
  match confPaths p !! nm with
  | Some c => Some c
  | None =>
      match confPaths p !! "all" with
      | Some c => Some c
      | None => None
      end
  end.

(** ** The [clientAnnounce] case *)

Record clientAnnounceReq := {
  an_client : clientId;
  an_pathName : string;
  an_sdpText : list Byte.byte;
  an_sdpParsed : option sessionDescription;
}.

Definition set_publisher (c : clientId) (txt : list Byte.byte)
    (sdp : option sessionDescription) (pa : path) : path :=
  {| publisher := Some (PubClient c); publisherReady := publisherReady pa;
     publisherSdpText := txt; publisherSdpParsed := sdp |}.

Definition bind_client (nm : string) (st : clientState) (c : client) : client :=
  {| cpath := Some nm; state := st; streamProtocol := streamProtocol c;
     streamTracks := streamTracks c; ip := ip c; zone := zone c;
     rtcpReceivers := rtcpReceivers c |}.

Definition errAlreadyPublishing (nm : string) : error :=
  "someone is already publishing on path '" +:+ nm +:+ "'".

(** One iteration of the loop on a request of [p.clientAnnounce]: the
    new state and what is sent on [req.res] ([None] is Go's nil). *)
Definition clientAnnounce (p : program) (req : clientAnnounceReq)
  : program * option error :=
  let nm := an_pathName req in
  (* create path if not exist *)
  let checked : program + error :=
    match paths p !! nm with
    | None =>
        inl (set_paths (insert nm (newPath nm (findConfForPathName p nm) false)) p)
    | Some pa =>
        match publisher pa with
        | Some _ => inr (errAlreadyPublishing nm)
        | None => inl p
        end
    end in
  match checked with
  | inr e => (p, Some e)
  | inl p1 =>
      let p2 := set_paths
                  (alter (set_publisher (an_client req) (an_sdpText req)
                            (an_sdpParsed req)) nm) p1 in
      let p3 := set_heap (alter (bind_client nm clientStatePreRecord)
                            (an_client req)) p2 in
      (p3, None)
  end.

(** ** The [clientSetupPlay] case *)

Record clientSetupPlayReq := {
  sp_client : clientId;
  sp_pathName : string;
  sp_trackId : Z;
}.

Definition errNoOnePublishing (nm : string) : error :=
  "no one is publishing on path '" +:+ nm +:+ "'".

Definition errTrackNotExist (t : Z) : error :=
  "track " +:+ pretty t +:+ " does not exist".

Definition clientSetupPlay (p : program) (req : clientSetupPlayReq)
  : outcome (program * option error) :=
  let nm := sp_pathName req in
  match paths p !! nm with
  | None => Done (p, Some (errNoOnePublishing nm))
  | Some pa =>
      if negb (publisherReady pa) then Done (p, Some (errNoOnePublishing nm))
      else
        match publisherSdpParsed pa with
        | None => Panic
        | Some sdp =>
            if bool_decide (sp_trackId req >= Z.of_nat (length (MediaDescriptions sdp)))
            then Done (p, Some (errTrackNotExist (sp_trackId req)))
            else
              Done (set_heap (alter (bind_client nm clientStatePrePlay)
                                (sp_client req)) p, None)
        end
  end.

(** ** The [clientPlay] and [clientRecord] cases *)

Definition set_state (st : clientState) (c : client) : client :=
  {| cpath := cpath c; state := st; streamProtocol := streamProtocol c;
     streamTracks := streamTracks c; ip := ip c; zone := zone c;
     rtcpReceivers := rtcpReceivers c |}.

Definition set_counts (pc rc : Z) (p : program) : program :=
  {| confPaths := confPaths p; paths := paths p; clients := clients p;
     heap := heap p; udpClientsByAddr := udpClientsByAddr p;
     publisherCount := pc; readerCount := rc;
     hasServerRtp := hasServerRtp p; hasServerRtcp := hasServerRtcp p;
     hasMetrics := hasMetrics p; hasPprof := hasPprof p;
     hasLogFile := hasLogFile p |}.

Definition set_udpClientsByAddr
    (f : gmap udpClientAddr udpClient -> gmap udpClientAddr udpClient)
    (p : program) : program :=
  {| confPaths := confPaths p; paths := paths p; clients := clients p;
     heap := heap p; udpClientsByAddr := f (udpClientsByAddr p);
     publisherCount := publisherCount p; readerCount := readerCount p;
     hasServerRtp := hasServerRtp p; hasServerRtcp := hasServerRtcp p;
     hasMetrics := hasMetrics p; hasPprof := hasPprof p;
     hasLogFile := hasLogFile p |}.

Definition clientPlay (p : program) (c : clientId) : program :=
  set_heap (alter (set_state clientStatePlay) c)
    (set_counts (publisherCount p) (readerCount p + 1) p).

(** The body of the loop over [client.streamTracks]: both ports of the
    track are registered, the RTP port first. *)
Definition registerTrack (c : clientId) (cip : list Byte.byte)
    (trackId : Z) (t : track)
    (m : gmap udpClientAddr udpClient) : gmap udpClientAddr udpClient :=
  <[ makeUdpClientAddr cip (rtcpPort t) :=
       {| uclient := c; utrackId := trackId; ustreamType := StreamTypeRtcp |} ]>
    (<[ makeUdpClientAddr cip (rtpPort t) :=
          {| uclient := c; utrackId := trackId; ustreamType := StreamTypeRtp |} ]> m).

(** [path.onPublisherSetReady] is a method of the file of [path]; it is
    the parameter [onPublisherSetReady], applied to the name of the
    client's path ([None]: the client has none). *)
Variable onPublisherSetReady : option string -> program -> program.

Definition clientRecord (p : program) (c : clientId) : program :=
  let p1 := set_heap (alter (set_state clientStateRecord) c)
              (set_counts (publisherCount p + 1) (readerCount p) p) in
  match heap p !! c with
  | None => p1
  | Some cl =>
      let p2 :=
        match streamProtocol cl with
        | StreamProtocolUdp =>
            set_udpClientsByAddr
              (fun m => map_fold (registerTrack c (ip cl)) m (streamTracks cl)) p1
        | StreamProtocolTcp => p1
        end in
      onPublisherSetReady (cpath cl) p2
  end.

(** ** [forwardFrame] *)

(** What the loop sends out: a datagram through one of the two UDP
    servers, or an interleaved frame on the channel of a TCP client. *)
Inductive output :=
| UdpWrite (server : StreamType) (oip : list Byte.byte) (ozone : string)
    (oport : Z) (buf : list Byte.byte)
| TcpFrame (c : clientId) (trackId : Z) (st : StreamType) (buf : list Byte.byte).

Definition forwardTo (p : program) (pa : option string) (trackId : Z)
    (st : StreamType) (buf : list Byte.byte) (c : clientId) : list output :=
  match heap p !! c with
  | None => []
  | Some cl =>
      if bool_decide (cpath cl <> pa) || bool_decide (state cl <> clientStatePlay)
      then []
      else
        match streamTracks cl !! trackId with
        | None => []
        | Some t =>
            match streamProtocol cl with
            | StreamProtocolUdp =>
                match st with
                | StreamTypeRtp =>
                    [UdpWrite StreamTypeRtp (ip cl) (zone cl) (rtpPort t) buf]
                | StreamTypeRtcp =>
                    [UdpWrite StreamTypeRtcp (ip cl) (zone cl) (rtcpPort t) buf]
                end
            | StreamProtocolTcp => [TcpFrame c trackId st buf]
            end
        end
  end.

Definition forwardFrame (p : program) (pa : option string) (trackId : Z)
    (st : StreamType) (buf : list Byte.byte) : list output :=
  flat_map (forwardTo p pa trackId st buf) (elements (clients p)).

(** ** The [clientFrameUdp] case *)

Record clientFrameUdpReq := {
  fu_addrIP : list Byte.byte;
  fu_addrPort : Z;
  fu_streamType : StreamType;
  fu_buf : list Byte.byte;
}.

(** [rtcpReceivers[trackId].OnFrame(streamType, buf)]: the receiver of
    the track records the frame; [None] when the index is out of range. *)
Definition onFrame (trackId : Z) (f : frame) (c : client) : option client :=
  if bool_decide (trackId < 0) then None
  else
    match rtcpReceivers c !! Z.to_nat trackId with
    | None => None
    | Some r =>
        Some {| cpath := cpath c; state := state c;
                streamProtocol := streamProtocol c;
                streamTracks := streamTracks c; ip := ip c; zone := zone c;
                rtcpReceivers := <[ Z.to_nat trackId := (r ++ [f])%list ]> (rtcpReceivers c) |}
    end.

Definition clientFrameUdp (p : program) (req : clientFrameUdpReq)
  : outcome (program * list output) :=
  match udpClientsByAddr p !! makeUdpClientAddr (fu_addrIP req) (fu_addrPort req) with
  | None => Done (p, [])
  | Some pub =>
      (* client sent RTP on RTCP port or vice-versa *)
      if bool_decide (ustreamType pub <> fu_streamType req) then Done (p, [])
      else
        match heap p !! uclient pub with
        | None => Panic
        | Some cl =>
            match onFrame (utrackId pub) (fu_streamType req, fu_buf req) cl with
            | None => Panic
            | Some cl' =>
                let p' := set_heap (insert (uclient pub) cl') p in
                Done (p', forwardFrame p' (cpath cl') (utrackId pub)
                            (fu_streamType req) (fu_buf req))
            end
        end
  end.

(** ** Shutdown: the statements of [run] after the loop *)

(** The channels of [program]. *)
Inductive chan :=
| chMetricsGather | chClientNew | chClientClose | chClientDescribe
| chClientAnnounce | chClientSetupPlay | chClientPlay | chClientRecord
| chClientFrameUdp | chClientFrameTcp | chSourceReady | chSourceNotReady
| chSourceFrame | chDone.

#[export] Instance chan_eq_dec : EqDecision chan.
Proof. solve_decision. Defined.

(** The request channels, in the order in which [run] closes them. *)
Definition requestChans : list chan :=
  [chMetricsGather; chClientNew; chClientClose; chClientDescribe;
   chClientAnnounce; chClientSetupPlay; chClientPlay; chClientRecord;
   chClientFrameUdp; chClientFrameTcp; chSourceReady; chSourceNotReady;
   chSourceFrame].

(** The channels on which the goroutine started after the loop
    receives without sending anything back. *)
Inductive droppedChan :=
| dcClientNew | dcClientClose | dcClientDescribe | dcClientPlay
| dcClientRecord | dcClientFrameUdp | dcClientFrameTcp | dcSourceReady
| dcSourceNotReady | dcSourceFrame.

Definition chanOfDropped (d : droppedChan) : chan :=
  match d with
  | dcClientNew => chClientNew
  | dcClientClose => chClientClose
  | dcClientDescribe => chClientDescribe
  | dcClientPlay => chClientPlay
  | dcClientRecord => chClientRecord
  | dcClientFrameUdp => chClientFrameUdp
  | dcClientFrameTcp => chClientFrameTcp
  | dcSourceReady => chSourceReady
  | dcSourceNotReady => chSourceNotReady
  | dcSourceFrame => chSourceFrame
  end.

(** What that goroutine receives: a request for the metrics, an
    announce or a setup-play request, or a value on one of the other
    channels. *)
Inductive request :=
| ReqMetricsGather
| ReqClientAnnounce (r : clientAnnounceReq)
| ReqClientSetupPlay (r : clientSetupPlayReq)
| ReqDropped (ch : droppedChan).

Definition chanOf (r : request) : chan :=
  match r with
  | ReqMetricsGather => chMetricsGather
  | ReqClientAnnounce _ => chClientAnnounce
  | ReqClientSetupPlay _ => chClientSetupPlay
  | ReqDropped ch => chanOfDropped ch
  end.

(** What it sends back on [req.res]. *)
Inductive reply :=
| ReplyError (e : option error)
| ReplyNoMetrics
| NoReply.

Definition errTerminated : error := "terminated".

(** One iteration of the [select] of that goroutine. *)
Definition drain (r : request) : reply :=
  match r with
  | ReqMetricsGather => ReplyNoMetrics
  | ReqClientAnnounce _ => ReplyError (Some errTerminated)
  | ReqClientSetupPlay _ => ReplyError (Some errTerminated)
  | ReqDropped _ => NoReply
  end.

(** The client that waits for the answer: [req.client] of an announce
    and of a setup-play request. *)
Definition sender (r : request) : option clientId :=
  match r with
  | ReqClientAnnounce q => Some (an_client q)
  | ReqClientSetupPlay q => Some (sp_client q)
  | _ => None
  end.

(** The events of the shutdown: the statements of [run]; a request that
    arrives (its sender is blocked on the channel); a request that the
    draining goroutine receives, with its answer; the return of
    [program.close]. *)
Inductive event :=
| EvPathOnClose (nm : string)
| EvServerRtspClose
| EvServerRtcpClose
| EvServerRtpClose
| EvClientClose (c : clientId)
| EvClientDone (c : clientId)
| EvMetricsClose
| EvPprofClose
| EvLogFileClose
| EvClose (ch : chan)
| EvArrived (r : request)
| EvDrained (r : request) (a : reply)
| EvCloseReturns.

(** Events of the statements of [run] itself. *)
Definition isRunEvent (e : event) : bool :=
  match e with
  | EvArrived _ | EvDrained _ _ | EvCloseReturns => false
  | _ => true
  end.

(** The statements of [run] from the loop over the paths to
    [close(p.done)], as the events they produce, in program order.
    [path.onClose] and [client.close] are methods of other files; the
    two loops range over the paths and clients of [p]. *)
Definition shutdownBody (p : program) : list event :=
  (map (fun kv => EvPathOnClose kv.1) (map_to_list (paths p))
   ++ [EvServerRtspClose]
   ++ (if hasServerRtcp p then [EvServerRtcpClose] else [])
   ++ (if hasServerRtp p then [EvServerRtpClose] else [])
   ++ flat_map (fun c => [EvClientClose c; EvClientDone c]) (elements (clients p))
   ++ (if hasMetrics p then [EvMetricsClose] else [])
   ++ (if hasPprof p then [EvPprofClose] else [])
   ++ (if hasLogFile p then [EvLogFileClose] else [])
   ++ map EvClose requestChans)%list.

Definition shutdown (p : program) : list event :=
  (shutdownBody p ++ [EvClose chDone])%list.

(** The state of the shutdown: the statements [run] has still to
    execute, the events so far, and the requests that have arrived and
    have not been received. *)
Record shutdownState := {
  todo : list event;
  log : list event;
  waiting : list request;
}.

(** From the moment [run] has received from [p.terminate]: [run]
    executes its next statement; or a request arrives; or the draining
    goroutine receives a waiting request from a channel that is still
    open, and answers it; or [program.close], blocked on [<-p.done],
    returns once [p.done] is closed.

    The goroutine of a client is in another file.  It sends a request
    and waits for the answer before it goes on, and its channel [done]
    is closed when it ends: so [run] does not receive from [c.done]
    while a request of [c] waits, and a client sends a request only
    while [run] has still to receive from its [done]. *)
Inductive sstep : shutdownState -> shutdownState -> Prop :=
| sstep_run e rest l w :
    (forall c, e = EvClientDone c -> forall r, r ∈ w -> sender r <> Some c) ->
    sstep {| todo := e :: rest; log := l; waiting := w |}
          {| todo := rest; log := (l ++ [e])%list; waiting := w |}
| sstep_arrive r td l w :
    (forall c, sender r = Some c -> EvClientDone c ∈ td) ->
    sstep {| todo := td; log := l; waiting := w |}
          {| todo := td; log := (l ++ [EvArrived r])%list;
             waiting := (w ++ [r])%list |}
| sstep_drain r w1 w2 td l :
    EvClose (chanOf r) ∉ l ->
    sstep {| todo := td; log := l; waiting := (w1 ++ r :: w2)%list |}
          {| todo := td; log := (l ++ [EvDrained r (drain r)])%list;
             waiting := (w1 ++ w2)%list |}
| sstep_close_returns td l w :
    EvClose chDone ∈ l ->
    sstep {| todo := td; log := l; waiting := w |}
          {| todo := td; log := (l ++ [EvCloseReturns])%list; waiting := w |}.

(** The state in which [run] leaves its loop, with the requests [w0]
    that are outstanding then. *)
Definition terminated (p : program) (w0 : list request) : shutdownState :=
  {| todo := shutdown p; log := []; waiting := w0 |}.

(** ** Properties of the request handlers *)

Lemma set_paths_heap f p : heap (set_paths f p) = heap p.
Proof. reflexivity. Qed.

Lemma announce_paths_other p req nm' :
  nm' <> an_pathName req ->
  paths (clientAnnounce p req).1 !! nm' = paths p !! nm'.
Proof.
  intros Hne. unfold clientAnnounce.
  destruct (paths p !! an_pathName req) as [pa|] eqn:Hpa.
  - destruct (publisher pa); simpl; [done|].
    by rewrite lookup_alter_ne.
  - simpl. rewrite lookup_alter_ne by done. by rewrite lookup_insert_ne.
Qed.

Lemma announce_with_publisher p req pa pub :
  paths p !! an_pathName req = Some pa -> publisher pa = Some pub ->
  clientAnnounce p req = (p, Some (errAlreadyPublishing (an_pathName req))).
Proof. intros Hpa Hpub. unfold clientAnnounce. by rewrite Hpa, Hpub. Qed.

(** C1. An announce for a path that has a publisher is answered with
    the error "someone is already publishing" and changes nothing; it is
    accepted exactly when the path is absent or has no publisher, the
    requester is then the publisher of the path, and no other path is
    touched. *)
Theorem announce_single_publisher (p : program) (req : clientAnnounceReq) :
  let nm := an_pathName req in
  let r := clientAnnounce p req in
  (forall pa pub, paths p !! nm = Some pa -> publisher pa = Some pub ->
     r = (p, Some (errAlreadyPublishing nm))) /\
  (r.2 = None <-> forall pa, paths p !! nm = Some pa -> publisher pa = None) /\
  (r.2 = None ->
     exists pa', paths r.1 !! nm = Some pa' /\
       publisher pa' = Some (PubClient (an_client req)) /\
       heap r.1 !! an_client req =
         bind_client nm clientStatePreRecord <$> heap p !! an_client req) /\
  (forall nm', nm' <> nm -> paths r.1 !! nm' = paths p !! nm').
Proof.
  intros nm r. split; [|split; [|split]].
  - intros pa pub Hpa Hpub. by eapply announce_with_publisher.
  - subst r nm. unfold clientAnnounce.
    destruct (paths p !! an_pathName req) as [pa|] eqn:Hpa.
    + destruct (publisher pa) eqn:Hpub; simpl.
      * split; [done|]. intros Hall. specialize (Hall pa eq_refl). congruence.
      * split; [|done]. intros _ pa' [= <-]. done.
    + simpl. split; [|done]. intros _ pa' [=].
  - subst r nm. unfold clientAnnounce.
    destruct (paths p !! an_pathName req) as [pa|] eqn:Hpa.
    + destruct (publisher pa) eqn:Hpub; simpl; [done|]. intros _.
      eexists. rewrite lookup_alter_eq, Hpa. simpl.
      split; [reflexivity|]. split; [done|]. by rewrite lookup_alter_eq.
    + simpl. intros _. eexists.
      rewrite lookup_alter_eq, lookup_insert_eq. simpl.
      split; [reflexivity|]. split; [done|]. by rewrite lookup_alter_eq.
  - intros nm' Hne. by apply announce_paths_other.
Qed.

(** The announces of a run, one after the other. *)
Definition announces (p : program) (reqs : list clientAnnounceReq) : program :=
  foldl (fun q r => (clientAnnounce q r).1) p reqs.

(** Once a path has a publisher, no sequence of announces replaces it. *)
Lemma announces_keep_publisher (reqs : list clientAnnounceReq) (p : program)
    (nm : string) (pa : path) (pub : publisherRef) :
  paths p !! nm = Some pa -> publisher pa = Some pub ->
  exists pa', paths (announces p reqs) !! nm = Some pa' /\ publisher pa' = Some pub.
Proof.
  revert p pa. induction reqs as [|r reqs IH]; intros p pa Hpa Hpub.
  - exists pa. done.
  - unfold announces. simpl. fold (announces (clientAnnounce p r).1 reqs).
    destruct (decide (an_pathName r = nm)) as [<-|Hne].
    + rewrite (announce_with_publisher p r pa pub Hpa Hpub). simpl.
      by eapply IH.
    + eapply IH; [|done]. by rewrite announce_paths_other.
Qed.

(** The hypothesis of the setup-play case, which the code that sets
    [publisherReady] has to establish: a path whose publisher is ready carries a parsed SDP. *)
Definition ready_has_sdp (p : program) : Prop :=
  forall nm pa, paths p !! nm = Some pa -> publisherReady pa = true ->
    is_Some (publisherSdpParsed pa).

(** No ready publisher under the name: the path is absent or its
    publisher is not ready. *)
Definition no_publisher (p : program) (nm : string) : Prop :=
  forall pa, paths p !! nm = Some pa -> publisherReady pa = false.

(** The track id is not below the number of media descriptions. *)
Definition bad_track (p : program) (nm : string) (t : Z) : Prop :=
  exists pa sdp, paths p !! nm = Some pa /\ publisherSdpParsed pa = Some sdp /\
    t >= Z.of_nat (length (MediaDescriptions sdp)).

(** C3. A setup-play request is answered with an error exactly when no
    one is publishing on the path (absent path or publisher not ready)
    or the track id is at least the number of media descriptions; the
    two errors are the ones of the source and leave the state as it was;
    otherwise the path of the client is the path of the request and its
    state is pre-play, while its other fields, the other clients and the
    rest of the program are as before. *)
Theorem setupPlay_errors (p : program) (req : clientSetupPlayReq) :
  ready_has_sdp p ->
  let nm := sp_pathName req in
  exists p' res, clientSetupPlay p req = Done (p', res) /\
    (is_Some res <-> no_publisher p nm \/ bad_track p nm (sp_trackId req)) /\
    (no_publisher p nm -> res = Some (errNoOnePublishing nm) /\ p' = p) /\
    (~ no_publisher p nm -> bad_track p nm (sp_trackId req) ->
       res = Some (errTrackNotExist (sp_trackId req)) /\ p' = p) /\
    (res = None ->
       paths p' = paths p /\ clients p' = clients p /\
       udpClientsByAddr p' = udpClientsByAddr p /\
       publisherCount p' = publisherCount p /\
       readerCount p' = readerCount p /\
       (forall c, c <> sp_client req -> heap p' !! c = heap p !! c) /\
       (heap p !! sp_client req = None -> heap p' !! sp_client req = None) /\
       (forall cl, heap p !! sp_client req = Some cl ->
          exists cl', heap p' !! sp_client req = Some cl' /\
            cpath cl' = Some nm /\ state cl' = clientStatePrePlay /\
            streamProtocol cl' = streamProtocol cl /\
            streamTracks cl' = streamTracks cl /\
            ip cl' = ip cl /\ zone cl' = zone cl /\
            rtcpReceivers cl' = rtcpReceivers cl)).
Proof.
  intros Hwf nm. subst nm. unfold clientSetupPlay.
  destruct (paths p !! sp_pathName req) as [pa|] eqn:Hpa.
  2:{ assert (HA : no_publisher p (sp_pathName req)).
      { intros pa'. rewrite Hpa. intros [=]. }
      eexists _, _. split; [reflexivity|]. split; [|split; [|split]].
      - split; [by left | by eauto].
      - done.
      - done.
      - intros [=]. }
  destruct (publisherReady pa) eqn:Hrd; simpl.
  2:{ assert (HA : no_publisher p (sp_pathName req)).
      { intros pa'. rewrite Hpa. by intros [= <-]. }
      eexists _, _. split; [reflexivity|]. split; [|split; [|split]].
      - split; [by left | by eauto].
      - done.
      - done.
      - intros [=]. }
  assert (HnA : ~ no_publisher p (sp_pathName req)).
  { intros Hn. specialize (Hn pa Hpa). congruence. }
  destruct (Hwf _ _ Hpa Hrd) as [sdp Hsdp]. rewrite Hsdp.
  case_bool_decide as Ht.
  - assert (HB : bad_track p (sp_pathName req) (sp_trackId req)).
    { exists pa, sdp. done. }
    eexists _, _. split; [reflexivity|]. split; [|split; [|split]].
    + split; [by right | by eauto].
    + done.
    + done.
    + intros [=].
  - assert (HnB : ~ bad_track p (sp_pathName req) (sp_trackId req)).
    { intros (pa' & sdp' & Hpa' & Hs & Hge).
      rewrite Hpa in Hpa'. injection Hpa' as <-.
      rewrite Hsdp in Hs. injection Hs as <-. done. }
    eexists _, _. split; [reflexivity|]. split; [|split; [|split]].
    + split; [by intros [? [=]] | by intros [?|?]].
    + done.
    + done.
    + intros _. simpl. do 5 (split; [done|]). split; [|split].
      * intros c Hc. by rewrite lookup_alter_ne.
      * intros Hcl. by rewrite lookup_alter_eq, Hcl.
      * intros cl Hcl. rewrite lookup_alter_eq, Hcl. simpl.
        by eexists.
Qed.

(** C4, as the code has it. The exact name comes first; a name that is
    no key resolves to the entry under the key "all", and to no
    configuration when there is none. *)
Theorem findConf_exact_then_all (p : program) (nm : string) :
  (forall c, confPaths p !! nm = Some c -> findConfForPathName p nm = Some c) /\
  (confPaths p !! nm = None ->
     findConfForPathName p nm = confPaths p !! "all").
Proof.
  unfold findConfForPathName. split.
  - intros c ->. done.
  - intros ->. by destruct (confPaths p !! "all").
Qed.

(** Every output of [forwardFrame] goes to a client of the program that
    is bound to the given path and is playing. *)
Lemma forwardFrame_targets p pa trackId st buf o :
  o ∈ forwardFrame p pa trackId st buf ->
  exists c cl, c ∈ clients p /\ heap p !! c = Some cl /\
    cpath cl = pa /\ state cl = clientStatePlay /\
    o ∈ forwardTo p pa trackId st buf c.
Proof.
  unfold forwardFrame. rewrite list_elem_of_In, in_flat_map.
  intros (c & Hc & Ho). apply list_elem_of_In in Hc, Ho.
  apply elem_of_elements in Hc.
  exists c. unfold forwardTo in Ho |- *.
  destruct (heap p !! c) as [cl|] eqn:Hcl; [|by apply elem_of_nil in Ho].
  exists cl. repeat case_bool_decide; simpl in Ho;
    try (by apply elem_of_nil in Ho).
  repeat split; try done;
    match goal with
    | Hn : ~ (?a <> ?b) |- ?a = ?b => by destruct (decide (a = b))
    end.
Qed.

(** What [clientRecord] registers for a track: its RTCP port for RTCP,
    and its RTP port for RTP unless both ports give the same address. *)
Lemma registerTrack_lookup c cip trackId t m :
  registerTrack c cip trackId t m !! makeUdpClientAddr cip (rtcpPort t)
  = Some {| uclient := c; utrackId := trackId; ustreamType := StreamTypeRtcp |} /\
  (makeUdpClientAddr cip (rtcpPort t) <> makeUdpClientAddr cip (rtpPort t) ->
   registerTrack c cip trackId t m !! makeUdpClientAddr cip (rtpPort t)
   = Some {| uclient := c; utrackId := trackId; ustreamType := StreamTypeRtp |}).
Proof.
  unfold registerTrack. split.
  - by rewrite lookup_insert_eq.
  - intros Hne. rewrite lookup_insert_ne by done. by rewrite lookup_insert_eq.
Qed.

(** ** Properties of the shutdown *)

Lemma done_not_in_body p : EvClose chDone ∉ shutdownBody p.
Proof.
  unfold shutdownBody. rewrite !list_elem_of_In, !in_app_iff.
  intros [Hin|[Hin|[Hin|[Hin|[Hin|[Hin|[Hin|[Hin|Hin]]]]]]]].
  - apply in_map_iff in Hin as (? & [=] & _).
  - by destruct Hin as [[=]|[]].
  - destruct (hasServerRtcp p); [by destruct Hin as [[=]|[]] | by destruct Hin].
  - destruct (hasServerRtp p); [by destruct Hin as [[=]|[]] | by destruct Hin].
  - apply in_flat_map in Hin as (c & _ & [[=]|[[=]|[]]]).
  - destruct (hasMetrics p); [by destruct Hin as [[=]|[]] | by destruct Hin].
  - destruct (hasPprof p); [by destruct Hin as [[=]|[]] | by destruct Hin].
  - destruct (hasLogFile p); [by destruct Hin as [[=]|[]] | by destruct Hin].
  - apply in_map_iff in Hin as (ch & [= ->] & Hch). simpl in Hch.
    repeat (destruct Hch as [[=]|Hch]). done.
Qed.

Lemma body_in_shutdown p e : e ∈ shutdownBody p -> e ∈ shutdown p.
Proof. unfold shutdown. rewrite elem_of_app. by left. Qed.

Lemma shutdown_contents p :
  (forall nm, is_Some (paths p !! nm) -> EvPathOnClose nm ∈ shutdown p) /\
  (forall c, c ∈ clients p ->
     EvClientClose c ∈ shutdown p /\ EvClientDone c ∈ shutdown p) /\
  EvServerRtspClose ∈ shutdown p /\
  (hasServerRtcp p = true -> EvServerRtcpClose ∈ shutdown p) /\
  (hasServerRtp p = true -> EvServerRtpClose ∈ shutdown p) /\
  (forall ch, ch ∈ requestChans -> EvClose ch ∈ shutdown p).
Proof.
  repeat split; intros; apply body_in_shutdown; unfold shutdownBody;
    rewrite list_elem_of_In, !in_app_iff.
  - destruct H0 as [pa Hpa]. left.
    apply in_map_iff. exists (nm, pa). split; [done|].
    apply list_elem_of_In. by apply elem_of_map_to_list.
  - do 4 right. left.
    apply in_flat_map. exists c. split; [|by left].
    apply list_elem_of_In. by apply elem_of_elements.
  - do 4 right. left.
    apply in_flat_map. exists c. split; [|by right; left].
    apply list_elem_of_In. by apply elem_of_elements.
  - right. left. by left.
  - rewrite H0. do 2 right. left. by left.
  - rewrite H0. do 3 right. left. by left.
  - do 8 right.
    apply in_map_iff. exists ch. split; [done|]. by apply list_elem_of_In.
Qed.

(** [run] itself produces neither answers of the draining goroutine
    nor the return of [program.close]. *)
Lemma shutdown_isRunEvent p e : e ∈ shutdown p -> isRunEvent e = true.
Proof.
  unfold shutdown. rewrite elem_of_app, list_elem_of_singleton.
  intros [Hin| ->]; [|done]. revert Hin. unfold shutdownBody.
  rewrite !list_elem_of_In, !in_app_iff.
  intros [Hin|[Hin|[Hin|[Hin|[Hin|[Hin|[Hin|[Hin|Hin]]]]]]]].
  - by apply in_map_iff in Hin as (? & <- & _).
  - by destruct Hin as [<-|[]].
  - destruct (hasServerRtcp p); [by destruct Hin as [<-|[]] | by destruct Hin].
  - destruct (hasServerRtp p); [by destruct Hin as [<-|[]] | by destruct Hin].
  - by apply in_flat_map in Hin as (c & _ & [<-|[<-|[]]]).
  - destruct (hasMetrics p); [by destruct Hin as [<-|[]] | by destruct Hin].
  - destruct (hasPprof p); [by destruct Hin as [<-|[]] | by destruct Hin].
  - destruct (hasLogFile p); [by destruct Hin as [<-|[]] | by destruct Hin].
  - by apply in_map_iff in Hin as (ch & <- & _).
Qed.

(** [close(p.done)] is the last statement: once it is executed nothing
    is left to do. *)
Lemma done_is_last p (dn td : list event) :
  shutdown p = (dn ++ td)%list -> EvClose chDone ∈ dn -> td = [].
Proof.
  intros Heq Hin. destruct td as [|e td] using rev_ind; [done|].
  exfalso. unfold shutdown in Heq.
  rewrite app_assoc in Heq. apply app_inj_tail in Heq as [Hb _].
  apply (done_not_in_body p). rewrite Hb, elem_of_app. by left.
Qed.

(** The statements before the channels are closed. *)
Definition shutdownStops (p : program) : list event :=
  (map (fun kv => EvPathOnClose kv.1) (map_to_list (paths p))
   ++ [EvServerRtspClose]
   ++ (if hasServerRtcp p then [EvServerRtcpClose] else [])
   ++ (if hasServerRtp p then [EvServerRtpClose] else [])
   ++ flat_map (fun c => [EvClientClose c; EvClientDone c]) (elements (clients p))
   ++ (if hasMetrics p then [EvMetricsClose] else [])
   ++ (if hasPprof p then [EvPprofClose] else [])
   ++ (if hasLogFile p then [EvLogFileClose] else []))%list.

Definition shutdownCloses : list event :=
  (map EvClose requestChans ++ [EvClose chDone])%list.

Lemma shutdown_split p : shutdown p = (shutdownStops p ++ shutdownCloses)%list.
Proof.
  unfold shutdown, shutdownBody, shutdownStops, shutdownCloses.
  by rewrite <- !app_assoc.
Qed.

Lemma stops_no_close p ch : EvClose ch ∉ shutdownStops p.
Proof.
  unfold shutdownStops. rewrite !list_elem_of_In, !in_app_iff.
  intros [Hin|[Hin|[Hin|[Hin|[Hin|[Hin|[Hin|Hin]]]]]]].
  - apply in_map_iff in Hin as (? & [=] & _).
  - by destruct Hin as [[=]|[]].
  - destruct (hasServerRtcp p); [by destruct Hin as [[=]|[]] | by destruct Hin].
  - destruct (hasServerRtp p); [by destruct Hin as [[=]|[]] | by destruct Hin].
  - apply in_flat_map in Hin as (c & _ & [[=]|[[=]|[]]]).
  - destruct (hasMetrics p); [by destruct Hin as [[=]|[]] | by destruct Hin].
  - destruct (hasPprof p); [by destruct Hin as [[=]|[]] | by destruct Hin].
  - destruct (hasLogFile p); [by destruct Hin as [[=]|[]] | by destruct Hin].
Qed.

Lemma closes_no_done c : EvClientDone c ∉ shutdownCloses.
Proof.
  unfold shutdownCloses. rewrite !list_elem_of_In, in_app_iff.
  intros [Hin|Hin].
  - by apply in_map_iff in Hin as (? & [=] & _).
  - by destruct Hin as [[=]|[]].
Qed.

(** While [run] has still to receive from the [done] of a client, it has
    closed no channel. *)
Lemma closes_after_clients p (dn td : list event) c ch :
  shutdown p = (dn ++ td)%list -> EvClientDone c ∈ td -> EvClose ch ∉ dn.
Proof.
  rewrite shutdown_split. intros Heq Hc Hch.
  apply app_eq_app in Heq as [k [[Hs Htd]|[Hdn Hcl]]].
  - apply (stops_no_close p ch). rewrite Hs, elem_of_app. by left.
  - apply (closes_no_done c). rewrite Hcl, elem_of_app. by right.
Qed.

Lemma drain_sender (r : request) :
  is_Some (sender r) -> drain r = ReplyError (Some errTerminated).
Proof. destruct r; simpl; by intros [? [=]] || done. Qed.

Lemma arrived_snoc_other (l : list event) (e : event) (r : request) :
  (forall r', e <> EvArrived r') ->
  EvArrived r ∈ (l ++ [e])%list <-> EvArrived r ∈ l.
Proof.
  intros He. rewrite elem_of_app, list_elem_of_singleton. split; [|by left].
  intros [?|Heq]; [done|]. by destruct (He r).
Qed.

(** The invariant of the shutdown: [run] has executed a prefix of its
    statements, the log holds exactly these among the events of [run];
    a request that waits has arrived and, when a client sent it, [run]
    has still to receive from the [done] of that client; a request that
    has arrived waits or has been answered; and whatever precedes a
    return of [program.close] holds all statements of [run] and the
    answers to all requests of clients. *)
Definition sinv (p : program) (w0 : list request) (s : shutdownState) : Prop :=
  exists dn,
    shutdown p = (dn ++ todo s)%list /\
    (forall e, e ∈ dn -> e ∈ log s) /\
    (forall e, isRunEvent e = true -> e ∈ log s -> e ∈ dn) /\
    (forall r a, EvDrained r a ∈ log s ->
       a = drain r /\ (r ∈ w0 \/ EvArrived r ∈ log s)) /\
    (forall r, r ∈ waiting s -> r ∈ w0 \/ EvArrived r ∈ log s) /\
    (forall r c, r ∈ waiting s -> sender r = Some c ->
       EvClientDone c ∈ todo s) /\
    (forall r, r ∈ w0 \/ EvArrived r ∈ log s ->
       r ∈ waiting s \/ EvDrained r (drain r) ∈ log s) /\
    (forall l1 l2, log s = (l1 ++ EvCloseReturns :: l2)%list ->
       (forall e, e ∈ shutdown p -> e ∈ l1) /\
       (forall r, is_Some (sender r) -> r ∈ w0 \/ EvArrived r ∈ log s ->
          EvDrained r (drain r) ∈ l1)).

Lemma sinv_init p w0 :
  (forall r c, r ∈ w0 -> sender r = Some c -> c ∈ clients p) ->
  sinv p w0 (terminated p w0).
Proof.
  intros Hw0. exists []. simpl. split; [done|].
  split; [|split; [|split; [|split; [|split; [|split]]]]].
  - intros e He. by apply elem_of_nil in He.
  - intros e _ He. by apply elem_of_nil in He.
  - intros r a He. by apply elem_of_nil in He.
  - intros r Hr. by left.
  - intros r c Hr Hs.
    destruct (shutdown_contents p) as (_ & Hc & _). by apply Hc, (Hw0 r).
  - intros r [Hr|Hr]; [by left|]. by apply elem_of_nil in Hr.
  - intros l1 l2 Hl. by destruct l1.
Qed.

Lemma snoc_split_last {A} (l l1 l2 : list A) (x y : A) :
  (l ++ [x] = l1 ++ y :: l2)%list ->
  (l2 = [] /\ l = l1 /\ x = y) \/
  (exists l2', l2 = (l2' ++ [x])%list /\ l = (l1 ++ y :: l2')%list).
Proof.
  intros Heq. destruct l2 as [|z l2] using rev_ind.
  - apply app_inj_tail in Heq as [-> ->]. by left.
  - right. exists l2.
    change (l1 ++ y :: l2 ++ [z])%list with (l1 ++ (y :: l2) ++ [z])%list in Heq.
    rewrite app_assoc in Heq. apply app_inj_tail in Heq as [-> ->]. done.
Qed.

(** Once [program.close] has returned, [run] has nothing left to do. *)
Lemma sinv_returned p w0 s :
  sinv p w0 s -> EvCloseReturns ∈ log s -> todo s = [].
Proof.
  intros (dn & Heq & Hdn & Hrun & _ & _ & _ & _ & Hret) Hin.
  apply list_elem_of_split in Hin as (l1 & l2 & Hl).
  destruct (Hret l1 l2 Hl) as [Hall _].
  eapply done_is_last; [done|]. apply Hrun; [done|].
  rewrite Hl, elem_of_app. left. apply Hall.
  unfold shutdown. rewrite elem_of_app. right. apply list_elem_of_here.
Qed.

Lemma sinv_step p w0 s s' : sinv p w0 s -> sstep s s' -> sinv p w0 s'.
Proof.
  intros Hinv Hstep. pose proof (sinv_returned p w0 s Hinv) as Htd.
  destruct Hinv as (dn & Heq & Hdn & Hrun & Hdr & Harr & Hcl & Hans & Hret).
  destruct Hstep as [e rest l w Hjoin | r td l w Hsend | r w1 w2 td l Hopen
                    | td l w Hdone]; simpl in *.
  - assert (He : isRunEvent e = true).
    { apply (shutdown_isRunEvent p). rewrite Heq, elem_of_app. right.
      apply list_elem_of_here. }
    assert (Hne : forall r', e <> EvArrived r') by (by intros r' ->).
    exists (dn ++ [e])%list. simpl. split; [by rewrite <- app_assoc|].
    split; [|split; [|split; [|split; [|split; [|split]]]]].
    + intros e'. rewrite !elem_of_app. intros [?|?]; [left; eauto | by right].
    + intros e' Hr. rewrite !elem_of_app. intros [?|?]; [left; eauto | by right].
    + intros r a. rewrite elem_of_app, list_elem_of_singleton.
      intros [Hin|Hin]; [|by subst e]. rewrite arrived_snoc_other by done. eauto.
    + intros r Hr. rewrite arrived_snoc_other by done. eauto.
    + intros r c Hr Hs. specialize (Hcl r c Hr Hs).
      apply elem_of_cons in Hcl as [<-|?]; [|done].
      by destruct (Hjoin c eq_refl r Hr).
    + intros r. rewrite arrived_snoc_other by done. intros Hr.
      destruct (Hans r Hr) as [?|?]; [by left|].
      right. rewrite elem_of_app. by left.
    + intros l1 l2 Hl. exfalso.
      apply snoc_split_last in Hl as [(_ & _ & ->)|(l2' & _ & ->)]; [done|].
      discriminate Htd. rewrite elem_of_app. right. apply list_elem_of_here.
  - exists dn. simpl. split; [done|].
    split; [|split; [|split; [|split; [|split; [|split]]]]].
    + intros e' ?. rewrite elem_of_app. left. eauto.
    + intros e' Hr. rewrite elem_of_app, list_elem_of_singleton.
      intros [?| ->]; [eauto|done].
    + intros r' a. rewrite elem_of_app, list_elem_of_singleton.
      intros [Hin|[=]]. destruct (Hdr r' a Hin) as [-> [?|?]]; split; eauto.
      right. rewrite elem_of_app. by left.
    + intros r'. rewrite !elem_of_app, !list_elem_of_singleton.
      intros [Hr| ->]; [|by right; right].
      destruct (Harr r' Hr) as [?|?]; [by left|by right; left].
    + intros r' c. rewrite elem_of_app, list_elem_of_singleton.
      intros [Hr| ->] Hs; eauto.
    + intros r'. rewrite !elem_of_app, !list_elem_of_singleton.
      intros [Hr|[Hr|[= ->]]].
      * destruct (Hans r' (or_introl Hr)) as [?|?]; [by left; left|by right; left].
      * destruct (Hans r' (or_intror Hr)) as [?|?]; [by left; left|by right; left].
      * by left; right.
    + intros l1 l2 Hl.
      apply snoc_split_last in Hl as [(_ & _ & [=])|(l2' & -> & ->)].
      destruct (Hret l1 l2' eq_refl) as [Hall Hanswered].
      split; [done|]. intros r' Hsome.
      rewrite elem_of_app, list_elem_of_singleton.
      intros [Hr|[Hr|[= ->]]].
      * apply Hanswered; [done|by left].
      * apply Hanswered; [done|by right].
      * exfalso. destruct Hsome as [c Hc]. specialize (Hsend c Hc).
        rewrite Htd in Hsend; [by apply elem_of_nil in Hsend|].
        rewrite elem_of_app. right. apply list_elem_of_here.
  - assert (Hne : forall r', EvDrained r (drain r) <> EvArrived r') by done.
    exists dn. simpl. split; [done|].
    split; [|split; [|split; [|split; [|split; [|split]]]]].
    + intros e' ?. rewrite elem_of_app. left. eauto.
    + intros e' Hr. rewrite elem_of_app, list_elem_of_singleton.
      intros [?| ->]; [eauto|done].
    + intros r' a. rewrite arrived_snoc_other by done.
      rewrite elem_of_app, list_elem_of_singleton.
      intros [Hin|[= -> ->]]; [eauto|]. split; [done|].
      apply Harr. rewrite elem_of_app. right. apply list_elem_of_here.
    + intros r' Hr. rewrite arrived_snoc_other by done. apply Harr.
      apply elem_of_app in Hr as [?|?]; rewrite elem_of_app;
        [by left|by right; apply list_elem_of_further].
    + intros r' c Hr. apply Hcl.
      apply elem_of_app in Hr as [?|?]; rewrite elem_of_app;
        [by left|by right; apply list_elem_of_further].
    + intros r'. rewrite arrived_snoc_other by done. intros Hr.
      destruct (Hans r' Hr) as [Hw|?].
      * apply elem_of_app in Hw as [?|Hw]; [left; rewrite elem_of_app; by left|].
        apply elem_of_cons in Hw as [->|?].
        -- right. rewrite elem_of_app. right. apply list_elem_of_here.
        -- left. rewrite elem_of_app. by right.
      * right. rewrite elem_of_app. by left.
    + intros l1 l2 Hl.
      apply snoc_split_last in Hl as [(_ & _ & [=])|(l2' & -> & ->)].
      destruct (Hret l1 l2' eq_refl) as [Hall Hanswered].
      split; [done|]. intros r' Hsome.
      rewrite arrived_snoc_other by done.
      by apply Hanswered.
  - assert (Hne : forall r', EvCloseReturns <> EvArrived r') by done.
    exists dn. simpl. split; [done|].
    split; [|split; [|split; [|split; [|split; [|split]]]]].
    + intros e' ?. rewrite elem_of_app. left. eauto.
    + intros e' Hr. rewrite elem_of_app, list_elem_of_singleton.
      intros [?| ->]; [eauto|done].
    + intros r' a. rewrite arrived_snoc_other by done.
      rewrite elem_of_app, list_elem_of_singleton. intros [?|[=]]. eauto.
    + intros r' Hr. rewrite arrived_snoc_other by done. eauto.
    + done.
    + intros r'. rewrite arrived_snoc_other by done. intros Hr.
      destruct (Hans r' Hr) as [?|?]; [by left|].
      right. rewrite elem_of_app. by left.
    + assert (Hnil : td = []).
      { eapply done_is_last; [done|]. by apply Hrun. }
      intros l1 l2 Hl.
      apply snoc_split_last in Hl as [(_ & -> & _)|(l2' & -> & ->)].
      * split.
        -- intros e' He'. apply Hdn. subst td.
           rewrite app_nil_r in Heq. by rewrite <- Heq.
        -- intros r' [c Hc]. rewrite arrived_snoc_other by done. intros Hr.
           destruct (Hans r' Hr) as [Hw|?]; [|done]. exfalso.
           specialize (Hcl r' c Hw Hc). subst td. by apply elem_of_nil in Hcl.
      * destruct (Hret l1 l2' eq_refl) as [Hall Hanswered].
        split; [done|]. intros r' Hsome.
        rewrite arrived_snoc_other by done.
        by apply Hanswered.
Qed.

Lemma sinv_reachable p w0 s :
  (forall r c, r ∈ w0 -> sender r = Some c -> c ∈ clients p) ->
  rtc sstep (terminated p w0) s -> sinv p w0 s.
Proof.
  intros Hw0. revert s. apply (rtc_ind_r (sinv p w0) (terminated p w0)).
  - by apply sinv_init.
  - intros s s' _ Hstep IH. by eapply sinv_step.
Qed.

(** ** The shutdown can complete *)

(** [run] can execute all its statements when no request of a client
    waits. *)
Lemma sstep_run_all (td l : list event) (w : list request) :
  (forall r, r ∈ w -> sender r = None) ->
  rtc sstep {| todo := td; log := l; waiting := w |}
            {| todo := []; log := (l ++ td)%list; waiting := w |}.
Proof.
  intros Hw. revert l. induction td as [|e td IH]; intros l.
  - rewrite app_nil_r. apply rtc_refl.
  - eapply rtc_l.
    + apply sstep_run. intros c _ r Hr. by rewrite (Hw r Hr).
    + replace (l ++ e :: td)%list with ((l ++ [e]) ++ td)%list
        by by rewrite <- app_assoc.
      apply IH.
Qed.

(** The draining goroutine can answer all waiting requests of clients
    while their channels are open. *)
Lemma sstep_drain_clients (td : list event) (w keep : list request)
    (l : list event) :
  (forall r, r ∈ keep -> sender r = None) ->
  (forall r ch, r ∈ w -> is_Some (sender r) -> EvClose ch ∉ l) ->
  exists l' keep',
    rtc sstep {| todo := td; log := l; waiting := (keep ++ w)%list |}
              {| todo := td; log := (l ++ l')%list; waiting := keep' |} /\
    (forall r, r ∈ keep' -> sender r = None) /\
    (forall e, e ∈ l' -> isRunEvent e = false).
Proof.
  revert keep l. induction w as [|r w IH]; intros keep l Hkeep Hopen.
  - exists [], keep. rewrite !app_nil_r. split; [apply rtc_refl|].
    split; [done|]. by intros e ?%elem_of_nil.
  - destruct (sender r) as [c|] eqn:Hs.
    + destruct (IH keep (l ++ [EvDrained r (drain r)])%list) as
        (l' & keep' & Hrtc & Hk & Hl'); [done| |].
      { intros r' ch Hr' Hsome.
        rewrite elem_of_app, list_elem_of_singleton. intros [Hin|[=]].
        revert Hin. apply (Hopen r'); [by apply list_elem_of_further|done]. }
      exists (EvDrained r (drain r) :: l'), keep'. split; [|split; [done|]].
      * eapply rtc_l.
        -- apply sstep_drain.
           apply (Hopen r); [apply list_elem_of_here|by rewrite Hs; eexists].
        -- by rewrite <- app_assoc in Hrtc.
      * intros e [->|?]%elem_of_cons; [done|by apply Hl'].
    + destruct (IH (keep ++ [r])%list l) as (l' & keep' & Hrtc & Hk & Hl').
      { intros r'. rewrite elem_of_app, list_elem_of_singleton.
        intros [?| ->]; [by apply Hkeep|done]. }
      { intros r' ch Hr'. apply Hopen. by apply list_elem_of_further. }
      exists l', keep'. split; [|done]. by rewrite <- app_assoc in Hrtc.
Qed.

(** From every state of the shutdown [program.close] can still return:
    the requests of clients that wait are answered, [run] executes the
    rest of its statements and [p.done] is closed. *)
Lemma shutdown_can_complete p w0 s :
  sinv p w0 s -> exists s', rtc sstep s s' /\ EvCloseReturns ∈ log s'.
Proof.
  intros (dn & Heq & Hdn & Hrun & Hdr & Harr & Hcl & Hans & Hret).
  destruct s as [td l w]. simpl in *.
  destruct (sstep_drain_clients td w [] l) as (l' & keep' & Hrtc & Hk & Hl').
  { by intros r ?%elem_of_nil. }
  { intros r ch Hr [c Hc] Hin.
    apply (closes_after_clients p dn td c ch Heq); [by apply (Hcl r)|].
    by apply Hrun. }
  exists {| todo := []; log := (((l ++ l') ++ td) ++ [EvCloseReturns])%list;
            waiting := keep' |}.
  simpl. split.
  - eapply rtc_trans; [exact Hrtc|].
    eapply rtc_trans; [by apply sstep_run_all|].
    eapply rtc_l; [|apply rtc_refl].
    apply sstep_close_returns.
    assert (Hd : EvClose chDone ∈ (dn ++ td)%list).
    { rewrite <- Heq. unfold shutdown. rewrite elem_of_app. right.
      apply list_elem_of_here. }
    apply elem_of_app in Hd as [Hd|Hd]; rewrite !elem_of_app;
      [left; left; by apply Hdn|by right].
  - rewrite elem_of_app. right. apply list_elem_of_here.
Qed.

(** C2. After [run] has received the terminate signal, with the
    requests [w0] outstanding then, all of clients of the program: the
    draining goroutine answers only requests that were outstanding or
    have arrived, each as its [select] says; a waiting announce or
    setup-play request can be answered at once, with the error
    "terminated"; [program.close] can still return; and when it returns,
    every announce and setup-play request that was outstanding or has
    arrived has been answered with the error "terminated", and [run] has
    before that closed every path, closed every client and received
    from its [done] channel, closed the servers and closed every request
    channel. *)
Theorem close_returns_after_shutdown (p : program) (w0 : list request)
    (s : shutdownState) :
  (forall r c, r ∈ w0 -> sender r = Some c -> c ∈ clients p) ->
  rtc sstep (terminated p w0) s ->
  (forall r a, EvDrained r a ∈ log s ->
     a = drain r /\ (r ∈ w0 \/ EvArrived r ∈ log s)) /\
  (forall r, r ∈ waiting s -> is_Some (sender r) ->
     exists s', sstep s s' /\ todo s' = todo s /\
       log s'
       = (log s ++ [EvDrained r (ReplyError (Some errTerminated))])%list) /\
  (exists s', rtc sstep s s' /\ EvCloseReturns ∈ log s') /\
  (forall l1 l2, log s = (l1 ++ EvCloseReturns :: l2)%list ->
     (forall r, is_Some (sender r) -> r ∈ w0 \/ EvArrived r ∈ log s ->
        EvDrained r (ReplyError (Some errTerminated)) ∈ l1) /\
     (forall nm, is_Some (paths p !! nm) -> EvPathOnClose nm ∈ l1) /\
     (forall c, c ∈ clients p -> EvClientClose c ∈ l1 /\ EvClientDone c ∈ l1) /\
     EvServerRtspClose ∈ l1 /\
     (hasServerRtcp p = true -> EvServerRtcpClose ∈ l1) /\
     (hasServerRtp p = true -> EvServerRtpClose ∈ l1) /\
     (forall ch, ch ∈ requestChans -> EvClose ch ∈ l1) /\
     EvClose chDone ∈ l1).
Proof.
  intros Hw0 Hrtc. pose proof (sinv_reachable p w0 s Hw0 Hrtc) as Hinv.
  pose proof (shutdown_can_complete p w0 s Hinv) as Hcan.
  destruct Hinv as (dn & Heq & Hdn & Hrun & Hdr & Harr & Hcl & Hans & Hret).
  split; [done|]. split; [|split; [done|]].
  - intros r Hr Hsome. destruct s as [td l w]. simpl in *.
    apply list_elem_of_split in Hr as (w1 & w2 & ->).
    exists {| todo := td; log := (l ++ [EvDrained r (drain r)])%list;
              waiting := (w1 ++ w2)%list |}.
    split; [|split; [done|by rewrite drain_sender]].
    apply sstep_drain. destruct Hsome as [c Hc]. intros Hin.
    apply (closes_after_clients p dn td c (chanOf r) Heq).
    + apply (Hcl r); [|done]. rewrite elem_of_app. right. apply list_elem_of_here.
    + by apply Hrun.
  - intros l1 l2 Hl. destruct (Hret l1 l2 Hl) as [Hall Hanswered].
    destruct (shutdown_contents p) as (Hp & Hc & Hs1 & Hs2 & Hs3 & Hch).
    split.
    { intros r Hsome Hr. rewrite <- (drain_sender r Hsome). by apply Hanswered. }
    repeat split; intros; apply Hall; try apply Hc; eauto.
    unfold shutdown. rewrite elem_of_app. right. apply list_elem_of_here.
Qed.

(** ** Delivery of frames *)

(** What [forwardFrame] sends to a client that plays the track: a
    datagram to its RTP or RTCP port, or an interleaved frame. *)
Definition frameFor (c : clientId) (cl : client) (trackId : Z) (tr : track)
    (st : StreamType) (buf : list Byte.byte) : output :=
  match streamProtocol cl with
  | StreamProtocolUdp =>
      match st with
      | StreamTypeRtp => UdpWrite StreamTypeRtp (ip cl) (zone cl) (rtpPort tr) buf
      | StreamTypeRtcp => UdpWrite StreamTypeRtcp (ip cl) (zone cl) (rtcpPort tr) buf
      end
  | StreamProtocolTcp => TcpFrame c trackId st buf
  end.

Lemma forwardTo_playing p pa trackId st buf c cl tr :
  heap p !! c = Some cl -> cpath cl = pa -> state cl = clientStatePlay ->
  streamTracks cl !! trackId = Some tr ->
  forwardTo p pa trackId st buf c = [frameFor c cl trackId tr st buf].
Proof.
  intros Hcl Hpa Hst Htr. unfold forwardTo, frameFor. rewrite Hcl, Htr.
  rewrite !bool_decide_false by (intros Hne; by apply Hne). simpl.
  by destruct (streamProtocol cl), st.
Qed.

Lemma forwardTo_elem p pa trackId st buf c o :
  o ∈ forwardTo p pa trackId st buf c ->
  exists cl tr, heap p !! c = Some cl /\ cpath cl = pa /\
    state cl = clientStatePlay /\ streamTracks cl !! trackId = Some tr /\
    o = frameFor c cl trackId tr st buf.
Proof.
  unfold forwardTo, frameFor.
  destruct (heap p !! c) as [cl|]; [|by intros ?%elem_of_nil].
  destruct (decide (cpath cl = pa)) as [Hpa|Hpa].
  2:{ rewrite bool_decide_true by done. by intros ?%elem_of_nil. }
  destruct (decide (state cl = clientStatePlay)) as [Hst|Hst].
  2:{ rewrite (bool_decide_true (state cl <> _)) by done.
      rewrite orb_true_r. by intros ?%elem_of_nil. }
  rewrite !bool_decide_false by (intros Hne; by apply Hne). simpl.
  destruct (streamTracks cl !! trackId) as [tr|] eqn:Htr;
    [|by intros ?%elem_of_nil].
  intros Ho. exists cl, tr. repeat split; try done.
  destruct (streamProtocol cl), st; by apply list_elem_of_singleton in Ho.
Qed.

Lemma forwardFrame_playing p pa trackId st buf c cl tr :
  c ∈ clients p -> heap p !! c = Some cl -> cpath cl = pa ->
  state cl = clientStatePlay -> streamTracks cl !! trackId = Some tr ->
  frameFor c cl trackId tr st buf ∈ forwardFrame p pa trackId st buf.
Proof.
  intros Hc Hcl Hpa Hst Htr. unfold forwardFrame.
  apply list_elem_of_In, in_flat_map. exists c. split.
  - apply list_elem_of_In. by apply elem_of_elements.
  - rewrite (forwardTo_playing p pa trackId st buf c cl tr) by done.
    by left.
Qed.

(** ** UDP frames *)

(** The receiver of a track records the frame and changes nothing else
    of its client. *)
Lemma onFrame_fields trackId fr cl cl' :
  onFrame trackId fr cl = Some cl' ->
  cpath cl' = cpath cl /\ state cl' = state cl /\
  streamProtocol cl' = streamProtocol cl /\
  streamTracks cl' = streamTracks cl /\ ip cl' = ip cl /\ zone cl' = zone cl /\
  exists rcv, rtcpReceivers cl !! Z.to_nat trackId = Some rcv /\
    rtcpReceivers cl'
    = <[ Z.to_nat trackId := (rcv ++ [fr])%list ]> (rtcpReceivers cl).
Proof.
  unfold onFrame. case_bool_decide; [done|].
  destruct (rtcpReceivers cl !! Z.to_nat trackId) as [rcv|] eqn:Hr; [|done].
  intros [= <-]. simpl. repeat split; try done. by exists rcv.
Qed.

Lemma onFrame_is_Some trackId fr cl :
  0 <= trackId < Z.of_nat (length (rtcpReceivers cl)) ->
  is_Some (onFrame trackId fr cl).
Proof.
  intros Hr. unfold onFrame. rewrite bool_decide_false by lia.
  destruct (lookup_lt_is_Some_2 (rtcpReceivers cl) (Z.to_nat trackId))
    as [rcv ->]; [lia|]. by eexists.
Qed.

(** C10. A UDP frame from an address that is not registered, or
    registered for the other stream type, is dropped: nothing is sent
    and the program is unchanged.  A frame that is forwarded or changes
    the state comes from a registered address of the same stream type.
    Such a frame, when the publisher has a receiver for the track, is
    recorded by that receiver and forwarded to the path of the
    publisher: what is sent is exactly the frame, on the track of the
    registration, to each client that is bound to that path, is in state
    play and has set up the track; paths, clients and the table of
    addresses are unchanged. *)
Theorem clientFrameUdp_discards (p : program) (req : clientFrameUdpReq) :
  let key := makeUdpClientAddr (fu_addrIP req) (fu_addrPort req) in
  (udpClientsByAddr p !! key = None -> clientFrameUdp p req = Done (p, [])) /\
  (forall pub, udpClientsByAddr p !! key = Some pub ->
     ustreamType pub <> fu_streamType req ->
     clientFrameUdp p req = Done (p, [])) /\
  (forall p' outs, clientFrameUdp p req = Done (p', outs) ->
     p' <> p \/ outs <> [] ->
     exists pub, udpClientsByAddr p !! key = Some pub /\
       ustreamType pub = fu_streamType req) /\
  (forall pub pcl, udpClientsByAddr p !! key = Some pub ->
     ustreamType pub = fu_streamType req ->
     heap p !! uclient pub = Some pcl ->
     0 <= utrackId pub < Z.of_nat (length (rtcpReceivers pcl)) ->
     exists p' outs, clientFrameUdp p req = Done (p', outs)) /\
  (forall pub p' outs, udpClientsByAddr p !! key = Some pub ->
     ustreamType pub = fu_streamType req ->
     clientFrameUdp p req = Done (p', outs) ->
     exists pcl pcl' rcv,
       heap p !! uclient pub = Some pcl /\
       heap p' !! uclient pub = Some pcl' /\
       rtcpReceivers pcl !! Z.to_nat (utrackId pub) = Some rcv /\
       rtcpReceivers pcl'
       = <[ Z.to_nat (utrackId pub)
            := (rcv ++ [(fu_streamType req, fu_buf req)])%list ]>
           (rtcpReceivers pcl) /\
       cpath pcl' = cpath pcl /\ state pcl' = state pcl /\
       streamTracks pcl' = streamTracks pcl /\
       (forall c, c <> uclient pub -> heap p' !! c = heap p !! c) /\
       paths p' = paths p /\ clients p' = clients p /\
       udpClientsByAddr p' = udpClientsByAddr p /\
       (forall o, o ∈ outs <->
          exists c cl tr, c ∈ clients p /\ heap p !! c = Some cl /\
            cpath cl = cpath pcl /\ state cl = clientStatePlay /\
            streamTracks cl !! utrackId pub = Some tr /\
            o = frameFor c cl (utrackId pub) tr (fu_streamType req)
                  (fu_buf req))).
Proof.
  intros key. subst key. unfold clientFrameUdp.
  destruct (udpClientsByAddr p !! _) as [pub|] eqn:Hpub.
  2:{ split; [done|]. split; [done|]. split; [|split; [done|done]].
      intros p' outs [= <- <-] [?|?]; done. }
  case_bool_decide as Hty.
  { split; [done|]. split; [done|]. split; [|split].
    - intros p' outs [= <- <-] [?|?]; done.
    - intros pub' pcl [= <-] Heq. done.
    - intros pub' p' outs [= <-] Heq. done. }
  assert (Heq : ustreamType pub = fu_streamType req).
  { destruct (decide (ustreamType pub = fu_streamType req)); [done|].
    by destruct Hty. }
  split; [done|]. split; [by intros pub' [= <-] Hne|].
  split; [intros p' outs _ _; by eauto|]. split.
  - intros pub' pcl [= <-] _ Hpcl Hr. rewrite Hpcl.
    destruct (onFrame_is_Some (utrackId pub) (fu_streamType req, fu_buf req)
                pcl Hr) as [pcl' ->].
    by eexists _, _.
  - intros pub' p' outs [= <-] _.
    destruct (heap p !! uclient pub) as [pcl|] eqn:Hpcl; [|done].
    destruct (onFrame _ _ pcl) as [pcl'|] eqn:Hof; [|done].
    intros [= <- <-].
    apply onFrame_fields in Hof
      as (Hpa & Hst & Hproto & Htr & Hip & Hzone & rcv & Hrcv & Hrcv').
    exists pcl, pcl', rcv. simpl.
    split; [done|]. split; [by rewrite lookup_insert_eq|].
    split; [done|]. split; [done|]. split; [done|]. split; [done|].
    split; [done|].
    split; [intros c Hc; by rewrite lookup_insert_ne|].
    split; [done|]. split; [done|]. split; [done|].
    intros o. split.
    + unfold forwardFrame. rewrite list_elem_of_In, in_flat_map.
      intros (c & Hc & Ho). apply list_elem_of_In in Hc, Ho.
      apply elem_of_elements in Hc. simpl in Hc.
      apply forwardTo_elem in Ho as (cl & tr & Hcl & Hp & Hs & Ht & ->).
      simpl in Hcl.
      destruct (decide (c = uclient pub)) as [->|Hne].
      * rewrite lookup_insert_eq in Hcl. injection Hcl as <-.
        exists (uclient pub), pcl, tr.
        rewrite <- Htr, <- Hst. repeat split; try done; try congruence.
        unfold frameFor. by rewrite Hproto, Hip, Hzone.
      * rewrite lookup_insert_ne in Hcl by done.
        exists c, cl, tr. repeat split; try done; congruence.
    + intros (c & cl & tr & Hc & Hcl & Hp & Hs & Ht & ->).
      destruct (decide (c = uclient pub)) as [->|Hne].
      * assert (cl = pcl) as -> by congruence.
        replace (frameFor (uclient pub) pcl (utrackId pub) tr
                   (fu_streamType req) (fu_buf req))
          with (frameFor (uclient pub) pcl' (utrackId pub) tr
                  (fu_streamType req) (fu_buf req))
          by (unfold frameFor; by rewrite Hproto, Hip, Hzone).
        apply forwardFrame_playing; simpl; try done; try congruence.
        by rewrite lookup_insert_eq.
      * apply forwardFrame_playing; simpl; try done; try congruence.
        by rewrite lookup_insert_ne.
Qed.

(** X1. [forwardFrame] sends a frame to exactly the clients of the
    program that are bound to the path, are in state play and have set
    up the track; each gets the frame on the transport it uses, a UDP
    client on the port of the stream type. *)
Theorem forwardFrame_exactly (p : program) (pa : option string) (trackId : Z)
    (st : StreamType) (buf : list Byte.byte) (o : output) :
  o ∈ forwardFrame p pa trackId st buf <->
  exists c cl tr, c ∈ clients p /\ heap p !! c = Some cl /\ cpath cl = pa /\
    state cl = clientStatePlay /\ streamTracks cl !! trackId = Some tr /\
    o = frameFor c cl trackId tr st buf.
Proof.
  split.
  - unfold forwardFrame. rewrite list_elem_of_In, in_flat_map.
    intros (c & Hc & Ho). apply list_elem_of_In in Hc, Ho.
    apply elem_of_elements in Hc.
    apply forwardTo_elem in Ho as (cl & tr & ? & ? & ? & ? & ?).
    by exists c, cl, tr.
  - intros (c & cl & tr & Hc & Hcl & Hpa & Hst & Htr & ->).
    by apply forwardFrame_playing.
Qed.

(** X2. Setup, then play: a client whose setup-play request has been
    accepted gets nothing of the path while it has not sent play, and
    after play it gets every frame of a track it has set up. *)
Theorem setup_then_play_receives (p p1 : program) (req : clientSetupPlayReq)
    (cl : client) (trackId : Z) (tr : track) (st : StreamType)
    (buf : list Byte.byte) :
  clientSetupPlay p req = Done (p1, None) ->
  sp_client req ∈ clients p ->
  heap p !! sp_client req = Some cl ->
  streamTracks cl !! trackId = Some tr ->
  forwardTo p1 (Some (sp_pathName req)) trackId st buf (sp_client req) = [] /\
  frameFor (sp_client req) cl trackId tr st buf
    ∈ forwardFrame (clientPlay p1 (sp_client req)) (Some (sp_pathName req))
        trackId st buf.
Proof.
  intros Hrun Hc Hcl Htr. unfold clientSetupPlay in Hrun.
  destruct (paths p !! sp_pathName req) as [pa|]; [|done].
  destruct (negb (publisherReady pa)); [done|].
  destruct (publisherSdpParsed pa) as [sdp|]; [|done].
  case_bool_decide; [done|]. injection Hrun as <-. split.
  - unfold forwardTo. simpl. rewrite lookup_alter_eq, Hcl. simpl.
    by rewrite orb_true_r.
  - apply (forwardFrame_playing _ _ _ _ _ _
             (set_state clientStatePlay
                (bind_client (sp_pathName req) clientStatePrePlay cl)));
      simpl; [done| |done..].
    by rewrite !lookup_alter_eq, Hcl.
Qed.

(** ** Registration of the UDP ports *)

(** The addresses of the ports of the tracks are pairwise distinct. *)
Definition distinctPorts (cip : list Byte.byte) (m : gmap Z track) : Prop :=
  (forall i t, m !! i = Some t ->
     makeUdpClientAddr cip (rtpPort t) <> makeUdpClientAddr cip (rtcpPort t)) /\
  (forall i j t t', i <> j -> m !! i = Some t -> m !! j = Some t' ->
     makeUdpClientAddr cip (rtpPort t) <> makeUdpClientAddr cip (rtpPort t') /\
     makeUdpClientAddr cip (rtpPort t) <> makeUdpClientAddr cip (rtcpPort t') /\
     makeUdpClientAddr cip (rtcpPort t) <> makeUdpClientAddr cip (rtcpPort t')).

Lemma distinctPorts_insert cip i x m :
  m !! i = None -> distinctPorts cip (<[i:=x]> m) ->
  distinctPorts cip m /\
  makeUdpClientAddr cip (rtpPort x) <> makeUdpClientAddr cip (rtcpPort x) /\
  (forall j t, m !! j = Some t ->
     makeUdpClientAddr cip (rtpPort x) <> makeUdpClientAddr cip (rtpPort t) /\
     makeUdpClientAddr cip (rtpPort x) <> makeUdpClientAddr cip (rtcpPort t) /\
     makeUdpClientAddr cip (rtcpPort x) <> makeUdpClientAddr cip (rtpPort t) /\
     makeUdpClientAddr cip (rtcpPort x) <> makeUdpClientAddr cip (rtcpPort t)).
Proof.
  intros Hi [Hself Hpair]. split; [split|split].
  - intros j t Hj. apply (Hself j).
    rewrite lookup_insert_ne; [done|]. intros ->. congruence.
  - intros j k t t' Hne Hj Hk.
    apply (Hpair j k); [done| |];
      (rewrite lookup_insert_ne; [done|]; intros ->; congruence).
  - apply (Hself i). by rewrite lookup_insert_eq.
  - intros j t Hj.
    assert (Hne : i <> j) by (intros ->; congruence).
    assert (Hx : <[i:=x]> m !! i = Some x) by by rewrite lookup_insert_eq.
    assert (Ht : <[i:=x]> m !! j = Some t) by by rewrite lookup_insert_ne.
    destruct (Hpair i j x t Hne Hx Ht) as (H1 & H2 & H3).
    destruct (Hpair j i t x (not_eq_sym Hne) Ht Hx) as (H4 & H5 & H6).
    repeat split; done.
Qed.

(** The loop of [clientRecord] over the tracks: when the addresses are
    distinct, every port of every track is registered for its track and
    stream type, and the other addresses keep their entries. *)
Lemma registerTracks_lookup c cip (m0 : gmap udpClientAddr udpClient)
    (m : gmap Z track) :
  distinctPorts cip m ->
  (forall i t, m !! i = Some t ->
     map_fold (registerTrack c cip) m0 m !! makeUdpClientAddr cip (rtpPort t)
     = Some {| uclient := c; utrackId := i; ustreamType := StreamTypeRtp |} /\
     map_fold (registerTrack c cip) m0 m !! makeUdpClientAddr cip (rtcpPort t)
     = Some {| uclient := c; utrackId := i; ustreamType := StreamTypeRtcp |}) /\
  (forall key,
     (forall i t, m !! i = Some t ->
        key <> makeUdpClientAddr cip (rtpPort t) /\
        key <> makeUdpClientAddr cip (rtcpPort t)) ->
     map_fold (registerTrack c cip) m0 m !! key = m0 !! key).
Proof.
  apply (map_fold_weak_ind
    (fun r m => distinctPorts cip m ->
       (forall i t, m !! i = Some t ->
          r !! makeUdpClientAddr cip (rtpPort t)
          = Some {| uclient := c; utrackId := i; ustreamType := StreamTypeRtp |} /\
          r !! makeUdpClientAddr cip (rtcpPort t)
          = Some {| uclient := c; utrackId := i; ustreamType := StreamTypeRtcp |}) /\
       (forall key,
          (forall i t, m !! i = Some t ->
             key <> makeUdpClientAddr cip (rtpPort t) /\
             key <> makeUdpClientAddr cip (rtcpPort t)) ->
          r !! key = m0 !! key))).
  - intros _. split; [intros i t Hi; by rewrite lookup_empty in Hi|done].
  - clear m. intros i x m r Hi IH Hd.
    apply distinctPorts_insert in Hd as (Hdm & Hx & Hothers); [|done].
    destruct (IH Hdm) as [IHin IHout]. split.
    + intros j t Hj. unfold registerTrack.
      destruct (decide (i = j)) as [<-|Hne].
      * rewrite lookup_insert_eq in Hj. injection Hj as <-.
        rewrite lookup_insert_eq.
        rewrite lookup_insert_ne by (intros Heq; by apply Hx).
        by rewrite lookup_insert_eq.
      * rewrite lookup_insert_ne in Hj by done.
        destruct (Hothers j t Hj) as (H1 & H2 & H3 & H4).
        destruct (IHin j t Hj) as [Hrtp Hrtcp].
        rewrite !lookup_insert_ne by done. done.
    + intros key Hkey. unfold registerTrack.
      destruct (Hkey i x) as [Hk1 Hk2]; [by rewrite lookup_insert_eq|].
      rewrite !lookup_insert_ne by done.
      apply IHout. intros j t Hj. apply (Hkey j).
      rewrite lookup_insert_ne; [done|]. intros ->. congruence.
Qed.

(** X3. [clientRecord] on a UDP client whose ports have distinct
    addresses: afterwards the address of every RTP port is registered
    for its client, track and RTP, the address of every RTCP port for
    RTCP, and every other address keeps its entry.  On a TCP client the
    table is unchanged.  [onPublisherSetReady] is taken to leave the
    table as it is. *)
Theorem clientRecord_registers (p : program) (c : clientId) (cl : client) :
  (forall pa q,
     udpClientsByAddr (onPublisherSetReady pa q) = udpClientsByAddr q) ->
  heap p !! c = Some cl ->
  match streamProtocol cl with
  | StreamProtocolTcp =>
      udpClientsByAddr (clientRecord p c) = udpClientsByAddr p
  | StreamProtocolUdp =>
      distinctPorts (ip cl) (streamTracks cl) ->
      (forall i t, streamTracks cl !! i = Some t ->
         udpClientsByAddr (clientRecord p c)
           !! makeUdpClientAddr (ip cl) (rtpPort t)
         = Some {| uclient := c; utrackId := i; ustreamType := StreamTypeRtp |} /\
         udpClientsByAddr (clientRecord p c)
           !! makeUdpClientAddr (ip cl) (rtcpPort t)
         = Some {| uclient := c; utrackId := i; ustreamType := StreamTypeRtcp |}) /\
      (forall key,
         (forall i t, streamTracks cl !! i = Some t ->
            key <> makeUdpClientAddr (ip cl) (rtpPort t) /\
            key <> makeUdpClientAddr (ip cl) (rtcpPort t)) ->
         udpClientsByAddr (clientRecord p c) !! key = udpClientsByAddr p !! key)
  end.
Proof.
  intros Hset Hcl. unfold clientRecord. rewrite Hcl, Hset.
  destruct (streamProtocol cl); [|done].
  intros Hd. simpl. by apply registerTracks_lookup.
Qed.

(** ** The paths at startup *)

(** The loop of [newProgram] over [conf.Paths]: every entry but the one
    under "all" gets a permanent path. *)
Definition initialPaths (conf : gmap string confPath) : gmap string path :=
  map_imap
    (fun nm confp =>
       if decide (nm = "all") then None else Some (newPath nm (Some confp) true))
    conf.

(** X4. At startup no path is named "all", every other name of the
    configuration has a path, and that path is built from the entry
    that [findConfForPathName] resolves the name to: a configured path
    gets the configuration it would get when created on demand. *)
Theorem initialPaths_agree (p : program) (nm : string) :
  initialPaths (confPaths p) !! "all" = None /\
  (nm <> "all" ->
     (is_Some (initialPaths (confPaths p) !! nm) <-> is_Some (confPaths p !! nm))) /\
  (forall pa, initialPaths (confPaths p) !! nm = Some pa ->
     pa = newPath nm (findConfForPathName p nm) true).
Proof.
  unfold initialPaths. rewrite !map_lookup_imap. split; [|split].
  - by destruct (confPaths p !! "all").
  - intros Hne. destruct (confPaths p !! nm) as [c|]; simpl.
    + rewrite decide_False by done. split; by eexists.
    + split; by intros [? [=]].
  - intros pa. unfold findConfForPathName.
    destruct (confPaths p !! nm) as [c|]; simpl; [|done].
    case_decide; [done|]. by intros [= <-].
Qed.

End WithTypes.

(** ** A small server to run the handlers on *)

(** Configurations are numbered, media descriptions are named, and a
    UDP address is its port. *)
Definition demoSdp : @sessionDescription string :=
  {| MediaDescriptions := ["video"; "audio"] |}.

Definition demoPath : @path string :=
  {| publisher := Some (PubClient 1%positive); publisherReady := true;
     publisherSdpText := []; publisherSdpParsed := Some demoSdp |}.

(** A constructor of paths for the examples: no publisher yet. *)
Definition demoNewPath (nm : string) (c : option nat) (perm : bool)
  : @path string :=
  {| publisher := None; publisherReady := false; publisherSdpText := [];
     publisherSdpParsed := None |}.

Definition demoClient : client :=
  {| cpath := None; state := clientStateInitial;
     streamProtocol := StreamProtocolTcp; streamTracks := ∅;
     ip := []; zone := ""; rtcpReceivers := [] |}.

Definition demoProgram : @program nat string Z _ _ :=
  {| confPaths := {[ "cam" := 0%nat ]};
     paths := {[ "cam" := demoPath ]};
     clients := {[ 1%positive; 2%positive ]};
     heap := {[ 1%positive := demoClient; 2%positive := demoClient ]};
     udpClientsByAddr := ∅;
     publisherCount := 0; readerCount := 0;
     hasServerRtp := true; hasServerRtcp := true;
     hasMetrics := false; hasPprof := false; hasLogFile := false |}.

(** A server whose configuration has the given entries and nothing else. *)
Definition confProgram (c : gmap string nat) : @program nat string Z _ _ :=
  {| confPaths := c; paths := ∅; clients := ∅; heap := ∅;
     udpClientsByAddr := ∅; publisherCount := 0; readerCount := 0;
     hasServerRtp := false; hasServerRtcp := false;
     hasMetrics := false; hasPprof := false; hasLogFile := false |}.

Definition demoAnnounce : @clientAnnounceReq string :=
  {| an_client := 2%positive; an_pathName := "cam"; an_sdpText := [];
     an_sdpParsed := Some demoSdp |}.

Definition demoSetupPlay (t : Z) : clientSetupPlayReq :=
  {| sp_client := 2%positive; sp_pathName := "cam"; sp_trackId := t |}.

(** Client 2 announces on "cam" while client 1 publishes there. *)
Example announce_rejected :
  clientAnnounce demoNewPath demoProgram demoAnnounce
  = (demoProgram, Some "someone is already publishing on path 'cam'").
Proof. reflexivity. Qed.

(** Client 2 announces on a path that does not exist yet, then client 1
    announces on it. *)
Example announce_new_path_then_rejected :
  let req nm c := {| an_client := c; an_pathName := nm; an_sdpText := [];
                     an_sdpParsed := Some demoSdp |} in
  let r1 := clientAnnounce demoNewPath demoProgram (req "door" 2%positive) in
  let r2 := clientAnnounce demoNewPath r1.1 (req "door" 1%positive) in
  r1.2 = None /\
  (publisher <$> paths r1.1 !! "door") = Some (Some (PubClient 2%positive)) /\
  r2 = (r1.1, Some "someone is already publishing on path 'door'").
Proof. vm_compute. repeat split; reflexivity. Qed.

Example setupPlay_track_5 :
  clientSetupPlay demoProgram (demoSetupPlay 5)
  = Done (demoProgram, Some "track 5 does not exist").
Proof. vm_compute. reflexivity. Qed.

(** A negative track id is below the number of media: it is accepted. *)
Example setupPlay_track_negative :
  exists p', clientSetupPlay demoProgram (demoSetupPlay (-1)) = Done (p', None).
Proof. eexists. reflexivity. Qed.

(** Witness of C3 on the small server, track 1 of "cam": the request
    of client 2 is accepted and binds it to "cam" in state pre-play. *)
Lemma setupPlay_errors_witness :
  ready_has_sdp demoProgram /\
  exists p' res,
    clientSetupPlay demoProgram (demoSetupPlay 1) = Done (p', res) /\
    (is_Some res <->
       no_publisher demoProgram "cam" \/ bad_track demoProgram "cam" 1) /\
    res = None /\
    exists cl', heap p' !! 2%positive = Some cl' /\
      cpath cl' = Some "cam" /\ state cl' = clientStatePrePlay.
Proof.
  assert (Hwf : ready_has_sdp demoProgram).
  { intros nm pa Hpa _. simpl in Hpa.
    apply lookup_singleton_Some in Hpa as [_ <-]. by eexists. }
  split; [exact Hwf|].
  destruct (setupPlay_errors demoProgram (demoSetupPlay 1) Hwf)
    as (p' & res & Hrun & Hiff & _ & _ & Hok).
  exists p', res. split; [exact Hrun|]. split; [exact Hiff|].
  assert (Hres : res = None).
  { assert (Hc : exists q,
        clientSetupPlay demoProgram (demoSetupPlay 1) = Done (q, None))
      by (eexists; reflexivity).
    destruct Hc as [q Hc]. rewrite Hc in Hrun. congruence. }
  split; [exact Hres|].
  destruct (Hok Hres) as (_ & _ & _ & _ & _ & _ & _ & Hcl).
  destruct (Hcl demoClient) as (cl' & Hl & Hp & Hs & _);
    [vm_compute; reflexivity|].
  by exists cl'.
Defined.

(** Witness of C2: the shutdown of the small server while the announce
    request of client 2 is outstanding.  The request is answered, [run]
    executes its statements, [program.close] returns. *)
Definition demoShutdownLog : list event :=
  EvDrained (ReqClientAnnounce demoAnnounce) (ReplyError (Some errTerminated))
  :: shutdown demoProgram.

Lemma close_returns_after_shutdown_witness :
  rtc sstep (terminated demoProgram [ReqClientAnnounce demoAnnounce])
    {| todo := []; log := (demoShutdownLog ++ [EvCloseReturns])%list;
       waiting := [] |} /\
  EvDrained (ReqClientAnnounce demoAnnounce) (ReplyError (Some errTerminated))
    ∈ demoShutdownLog /\
  EvPathOnClose "cam" ∈ demoShutdownLog /\
  EvClientDone 2%positive ∈ demoShutdownLog /\
  EvClose chClientAnnounce ∈ demoShutdownLog.
Proof.
  assert (Hw0 : forall r c, r ∈ [ReqClientAnnounce demoAnnounce] ->
                  sender r = Some c -> c ∈ clients demoProgram).
  { intros r c Hr%list_elem_of_singleton Hs. subst r. injection Hs as <-.
    simpl. apply elem_of_union. right. by apply elem_of_singleton. }
  assert (Hrun :
    rtc sstep (terminated demoProgram [ReqClientAnnounce demoAnnounce])
      {| todo := []; log := (demoShutdownLog ++ [EvCloseReturns])%list;
         waiting := [] |}).
  { eapply rtc_l.
    { apply (sstep_drain (ReqClientAnnounce demoAnnounce) [] []).
      by intros ?%elem_of_nil. }
    eapply rtc_r.
    { apply (sstep_run_all (shutdown demoProgram)
               [EvDrained (ReqClientAnnounce demoAnnounce)
                  (ReplyError (Some errTerminated))] []).
      by intros r ?%elem_of_nil. }
    apply sstep_close_returns. apply list_elem_of_further.
    unfold shutdown. rewrite elem_of_app. right. apply list_elem_of_here. }
  split; [exact Hrun|].
  destruct (close_returns_after_shutdown demoProgram
              [ReqClientAnnounce demoAnnounce] _ Hw0 Hrun)
    as (_ & _ & _ & Hret).
  destruct (Hret demoShutdownLog [] eq_refl)
    as (Hans & Hp & Hc & _ & _ & _ & Hch & _).
  split; [|split; [|split]].
  - apply Hans; [by eexists|]. left. apply list_elem_of_here.
  - apply Hp. exists demoPath. vm_compute. reflexivity.
  - apply Hc. simpl. apply elem_of_union. right. by apply elem_of_singleton.
  - apply Hch. unfold requestChans.
    do 4 apply list_elem_of_further. apply list_elem_of_here.
Defined.

(** C4, the claim as stated fails: a configuration whose only entry is
    under the key "all_others" gives no configuration to the path "cam";
    the entry is an exact name like any other, and no pattern is tried. *)
Lemma findConf_all_others_counterexample :
  confPaths (confProgram {[ "all_others" := 7%nat ]}) !! "all_others" = Some 7%nat /\
  findConfForPathName (confProgram {[ "all_others" := 7%nat ]}) "cam" = None /\
  findConfForPathName (confProgram {[ "~^cam[0-9]+$" := 7%nat ]}) "cam1" = None /\
  findConfForPathName (confProgram {[ "all" := 7%nat ]}) "cam" = Some 7%nat.
Proof. repeat split; reflexivity. Qed.

(** A TCP client with one track, and a UDP client with one track on the
    ports 5000 and 5001. *)
Definition demoPlayer : client :=
  {| cpath := None; state := clientStateInitial;
     streamProtocol := StreamProtocolTcp;
     streamTracks := {[ 0 := {| rtpPort := 0; rtcpPort := 0 |} ]};
     ip := []; zone := ""; rtcpReceivers := [] |}.

Definition demoUdpPublisher : client :=
  {| cpath := Some "cam"; state := clientStatePreRecord;
     streamProtocol := StreamProtocolUdp;
     streamTracks := {[ 0 := {| rtpPort := 5000; rtcpPort := 5001 |} ]};
     ip := []; zone := ""; rtcpReceivers := [[]] |}.

Definition demoPlayProgram : @program nat string Z _ _ :=
  {| confPaths := {[ "cam" := 0%nat ]};
     paths := {[ "cam" := demoPath ]};
     clients := {[ 1%positive; 2%positive ]};
     heap := {[ 1%positive := demoUdpPublisher; 2%positive := demoPlayer ]};
     udpClientsByAddr := ∅;
     publisherCount := 0; readerCount := 0;
     hasServerRtp := true; hasServerRtcp := true;
     hasMetrics := false; hasPprof := false; hasLogFile := false |}.

(** Witness of X2: client 2 sets up track 0 of "cam" and plays. *)
Lemma setup_then_play_receives_witness :
  TcpFrame 2%positive 0 StreamTypeRtp [Byte.x80]
  ∈ forwardFrame
      (clientPlay
         (set_heap (alter (bind_client "cam" clientStatePrePlay) 2%positive)
            demoPlayProgram) 2%positive)
      (Some "cam") 0 StreamTypeRtp [Byte.x80].
Proof.
  apply (setup_then_play_receives demoPlayProgram _ (demoSetupPlay 0) demoPlayer
           0 {| rtpPort := 0; rtcpPort := 0 |} StreamTypeRtp [Byte.x80]).
  - reflexivity.
  - simpl. apply elem_of_union. right. by apply elem_of_singleton.
  - vm_compute. reflexivity.
  - vm_compute. reflexivity.
Defined.

(** Witness of X3: client 1 records over UDP; a UDP address is its
    port and [onPublisherSetReady] changes nothing. *)
Lemma clientRecord_registers_witness :
  udpClientsByAddr
    (clientRecord (fun _ port => port) (fun _ q => q) demoPlayProgram 1%positive)
    !! 5001
  = Some {| uclient := 1%positive; utrackId := 0; ustreamType := StreamTypeRtcp |}.
Proof.
  pose proof (clientRecord_registers (fun _ port => port) (fun _ q => q)
                demoPlayProgram 1%positive demoUdpPublisher
                (fun _ _ => eq_refl)) as Hreg.
  simpl in Hreg.
  assert (Hcl : heap demoPlayProgram !! 1%positive = Some demoUdpPublisher)
    by (vm_compute; reflexivity).
  assert (Hd : distinctPorts (fun _ port => port) []
                 ({[ 0 := {| rtpPort := 5000; rtcpPort := 5001 |} ]} : gmap Z track)).
  { split.
    - intros i t [_ <-]%lookup_singleton_Some. simpl. lia.
    - intros i j t t' Hne [<- _]%lookup_singleton_Some
        [<- _]%lookup_singleton_Some. done. }
  destruct (Hreg Hcl Hd) as [Hin _].
  apply (Hin 0 {| rtpPort := 5000; rtcpPort := 5001 |}).
  vm_compute. reflexivity.
Defined.

End Program.

(* ===================================================================== *)
(** * The size of a JPEG image: [jpegExtractSize]                         *)
(* ===================================================================== *)

Module Jpeg.

Definition byteZ (b : Byte.byte) : Z := Z.of_N (Byte.to_N b).

(** What a call yields: [(width, height, nil)], [(0, 0, err)], or a
    run-time panic of Go (index or slice bounds out of range). *)
Inductive result :=
| Size (width height : Z)
| Failure (e : error)
| IndexPanic.

Definition hexDigit (n : Z) : string :=
  match n with
  | 0 => "0" | 1 => "1" | 2 => "2" | 3 => "3" | 4 => "4" | 5 => "5"
  | 6 => "6" | 7 => "7" | 8 => "8" | 9 => "9" | 10 => "a" | 11 => "b"
  | 12 => "c" | 13 => "d" | 14 => "e" | _ => "f"
  end.

(** The verb [%.2x] on a byte. *)
Definition hex2 (b : Byte.byte) : string :=
  hexDigit (Z.shiftr (byteZ b) 4) +:+ hexDigit (Z.land (byteZ b) 15).

Section WithLibrary.

(** The markers and the decoder of the frame header come from the
    package [jpeg] of mediacommon: they are parameters.  The decoder
    yields [Width] and [Height], or an error. *)
Variables MarkerStartOfImage MarkerDefineHuffmanTable MarkerComment
  MarkerDefineQuantizationTable MarkerDefineRestartInterval
  MarkerStartOfFrame1 MarkerStartOfScan : Byte.byte.
Variable sofUnmarshal : list Byte.byte -> (Z * Z) + error.

(** The first case of the [switch]: segments that are skipped. *)
Definition isSkipped (h1 : Byte.byte) : bool :=
  Byte.eqb h1 Byte.xe0 || Byte.eqb h1 Byte.xe1 || Byte.eqb h1 Byte.xe2
  || Byte.eqb h1 MarkerDefineHuffmanTable
  || Byte.eqb h1 MarkerComment
  || Byte.eqb h1 MarkerDefineQuantizationTable
  || Byte.eqb h1 MarkerDefineRestartInterval.

(** [int(image[0])<<8 | int(image[1])]; [None] when an index is out of
    range. *)
Definition markerLength (image : list Byte.byte) : option Z :=
  match image with
  | b0 :: b1 :: _ => Some (Z.lor (Z.shiftl (byteZ b0) 8) (byteZ b1))
  | _ => None
  end.

(** The [for] loop; every iteration consumes fuel, [None] when it runs
    out. *)
Fixpoint jpegLoop (fuel : nat) (image : list Byte.byte) : option result :=
  match fuel with
  | O => None
  | S fuel' =>
      match image with
      | h0 :: h1 :: image =>
          if negb (Byte.eqb h0 Byte.xff) then Some (Failure "invalid image")
          else if isSkipped h1 then
            match markerLength image with
            | None => Some IndexPanic
            | Some mlen =>
                if (Z.of_nat (length image) <? mlen)%Z
                then Some (Failure "not enough bits")
                else jpegLoop fuel' (drop (Z.to_nat mlen) image)
            end
          else if Byte.eqb h1 MarkerStartOfFrame1 then
            match markerLength image with
            | None => Some IndexPanic
            | Some mlen =>
                if (Z.of_nat (length image) <? mlen)%Z
                then Some (Failure "not enough bits")
                else if (mlen <? 2)%Z then Some IndexPanic
                else
                  match sofUnmarshal
                          (take (Z.to_nat mlen - 2) (drop 2 image)) with
                  | inr e => Some (Failure e)
                  | inl (w, h) => Some (Size w h)
                  end
            end
          else if Byte.eqb h1 MarkerStartOfScan
          then Some (Failure "SOF not found")
          else Some (Failure ("unknown marker: 0x" +:+ hex2 h1))
      | _ => Some (Failure "not enough bits")
      end
  end.

Definition jpegExtractSize (image : list Byte.byte) : option result :=
  match image with
  | b0 :: b1 :: rest =>
      if negb (Byte.eqb b0 Byte.xff) || negb (Byte.eqb b1 MarkerStartOfImage)
      then Some (Failure "invalid header")
      else jpegLoop (S (length rest)) rest
  | _ => Some (Failure "invalid header")
  end.

(** ** Properties *)

(** The loop needs no more iterations than the image has bytes. *)
Lemma jpegLoop_terminates (fuel : nat) (image : list Byte.byte) :
  (length image < fuel)%nat -> is_Some (jpegLoop fuel image).
Proof.
  revert image. induction fuel as [|fuel IH]; intros image Hlen; [lia|].
  simpl. destruct image as [|h0 [|h1 image]]; [by eexists..|].
  destruct (negb (Byte.eqb h0 Byte.xff)); [by eexists|].
  destruct (isSkipped h1).
  - destruct (markerLength image) as [mlen|]; [|by eexists].
    destruct (Z.of_nat (length image) <? mlen)%Z eqn:Hlt; [by eexists|].
    apply IH. rewrite length_drop. simpl in Hlen. lia.
  - destruct (Byte.eqb h1 MarkerStartOfFrame1).
    + destruct (markerLength image) as [mlen|]; [|by eexists].
      destruct (Z.of_nat (length image) <? mlen)%Z eqn:Hlt; [by eexists|].
      destruct (mlen <? 2)%Z; [by eexists|].
      by destruct (sofUnmarshal _) as [[w h]|e]; eexists.
    + by destruct (Byte.eqb h1 MarkerStartOfScan); eexists.
Qed.

Lemma jpegExtractSize_terminates (image : list Byte.byte) :
  is_Some (jpegExtractSize image).
Proof.
  unfold jpegExtractSize. destruct image as [|b0 [|b1 rest]]; [by eexists..|].
  destruct (_ || _); [by eexists|]. apply jpegLoop_terminates. lia.
Qed.

Lemma byte_eqb_refl (b : Byte.byte) : Byte.eqb b b = true.
Proof. by apply Byte.byte_dec_lb. Qed.

(** C9, where the code fails. The image [FF D8 FF E0] (any start-of-image
    marker in place of D8) ends after the marker E0: the read of the two
    length bytes indexes an empty slice, and the call panics instead of
    returning an error. *)
Theorem jpegExtractSize_length_read_panics :
  jpegExtractSize [Byte.xff; MarkerStartOfImage; Byte.xff; Byte.xe0]
  = Some IndexPanic.
Proof.
  unfold jpegExtractSize. simpl. rewrite byte_eqb_refl. reflexivity.
Qed.

(** ** What a size depends on *)

Lemma markerLength_app (image extra : list Byte.byte) (mlen : Z) :
  markerLength image = Some mlen -> markerLength (image ++ extra) = Some mlen.
Proof. by destruct image as [|b0 [|b1 image]]. Qed.

Lemma markerLength_Some (image : list Byte.byte) (mlen : Z) :
  markerLength image = Some mlen ->
  exists l1 l0 rest, image = l1 :: l0 :: rest /\
    mlen = Z.lor (Z.shiftl (byteZ l1) 8) (byteZ l0).
Proof.
  destruct image as [|l1 [|l0 rest]]; try done.
  intros [= <-]. by exists l1, l0, rest.
Qed.

Lemma byteZ_nonneg (b : Byte.byte) : 0 <= byteZ b.
Proof. unfold byteZ. lia. Qed.

Lemma markerLength_nonneg (image : list Byte.byte) (mlen : Z) :
  markerLength image = Some mlen -> 0 <= mlen.
Proof.
  intros (l1 & l0 & rest & -> & ->)%markerLength_Some.
  apply Z.lor_nonneg. split; [|apply byteZ_nonneg].
  apply Z.shiftl_nonneg, byteZ_nonneg.
Qed.

(** More fuel and more bytes behind the image do not change a size that
    the loop has found. *)
Lemma jpegLoop_size_stable (fuel fuel' : nat) (image extra : list Byte.byte)
    (w h : Z) :
  jpegLoop fuel image = Some (Size w h) -> (fuel <= fuel')%nat ->
  jpegLoop fuel' (image ++ extra) = Some (Size w h).
Proof.
  revert fuel' image. induction fuel as [|fuel IH]; intros fuel' image; [done|].
  destruct fuel' as [|fuel']; [lia|]. intros Hrun Hle. simpl in *.
  destruct image as [|h0 [|h1 image]]; try done. simpl.
  destruct (negb (Byte.eqb h0 Byte.xff)); [done|].
  destruct (isSkipped h1).
  - destruct (markerLength image) as [mlen|] eqn:Hm; [|done].
    rewrite (markerLength_app _ _ _ Hm).
    pose proof (markerLength_nonneg _ _ Hm) as Hpos.
    destruct (Z.of_nat (length image) <? mlen)%Z eqn:Hlt; [done|].
    apply Z.ltb_ge in Hlt.
    rewrite length_app.
    destruct (Z.of_nat (length image + length extra) <? mlen)%Z eqn:Hlt';
      [apply Z.ltb_lt in Hlt'; lia|].
    rewrite drop_app_le by lia. apply IH; [done|lia].
  - destruct (Byte.eqb h1 MarkerStartOfFrame1).
    + destruct (markerLength image) as [mlen|] eqn:Hm; [|done].
      rewrite (markerLength_app _ _ _ Hm).
      destruct (Z.of_nat (length image) <? mlen)%Z eqn:Hlt; [done|].
      apply Z.ltb_ge in Hlt.
      rewrite length_app.
      destruct (Z.of_nat (length image + length extra) <? mlen)%Z eqn:Hlt';
        [apply Z.ltb_lt in Hlt'; lia|].
      destruct (mlen <? 2)%Z eqn:H2; [done|]. apply Z.ltb_ge in H2.
      rewrite drop_app_le by lia.
      rewrite take_app_le by (rewrite length_drop; lia).
      done.
    + by destruct (Byte.eqb h1 MarkerStartOfScan).
Qed.

(** X5. The size of an image depends on its header only: when
    [jpegExtractSize] returns a size, it returns the same size for the
    image followed by any further bytes. *)
Theorem jpegExtractSize_ignores_trailer (image extra : list Byte.byte)
    (w h : Z) :
  jpegExtractSize image = Some (Size w h) ->
  jpegExtractSize (image ++ extra) = Some (Size w h).
Proof.
  unfold jpegExtractSize. destruct image as [|b0 [|b1 rest]]; try done.
  change ((b0 :: b1 :: rest) ++ extra)%list with (b0 :: b1 :: (rest ++ extra))%list.
  cbv beta iota.
  destruct (negb (Byte.eqb b0 Byte.xff) || negb (Byte.eqb b1 MarkerStartOfImage));
    [done|]. intros Hrun.
  eapply jpegLoop_size_stable; [done|]. rewrite length_app. lia.
Qed.

Lemma jpegLoop_size_segment (fuel : nat) (image : list Byte.byte) (w h : Z) :
  jpegLoop fuel image = Some (Size w h) ->
  exists pre l1 l0 buf post,
    image = (pre ++ [Byte.xff; MarkerStartOfFrame1; l1; l0] ++ buf ++ post)%list /\
    Z.of_nat (length buf) + 2 = Z.lor (Z.shiftl (byteZ l1) 8) (byteZ l0) /\
    sofUnmarshal buf = inl (w, h).
Proof.
  revert image. induction fuel as [|fuel IH]; intros image; [done|]. simpl.
  destruct image as [|h0 [|h1 image]]; try done.
  destruct (Byte.eqb h0 Byte.xff) eqn:Hff; [|done]. simpl.
  apply Byte.byte_dec_bl in Hff. subst h0.
  destruct (isSkipped h1).
  - destruct (markerLength image) as [mlen|] eqn:Hm; [|done].
    destruct (Z.of_nat (length image) <? mlen)%Z; [done|].
    intros (pre & l1 & l0 & buf & post & Heq & Hlen & Hsof)%IH.
    exists (Byte.xff :: h1 :: take (Z.to_nat mlen) image ++ pre)%list,
      l1, l0, buf, post.
    split; [|done].
    rewrite <- (take_drop (Z.to_nat mlen) image) at 1. rewrite Heq.
    simpl. by rewrite <- app_assoc.
  - destruct (Byte.eqb h1 MarkerStartOfFrame1) eqn:Hsof1.
    + apply Byte.byte_dec_bl in Hsof1. subst h1.
      destruct (markerLength image) as [mlen|] eqn:Hm; [|done].
      apply markerLength_Some in Hm as (l1 & l0 & rest & -> & ->).
      destruct (_ <? _)%Z eqn:Hlt; [done|]. apply Z.ltb_ge in Hlt.
      destruct (_ <? 2)%Z eqn:H2; [done|]. apply Z.ltb_ge in H2.
      destruct (sofUnmarshal _) as [[w' h']|e] eqn:Hsof; [|done].
      intros [= <- <-].
      exists [], l1, l0,
        (take (Z.to_nat (Z.lor (Z.shiftl (byteZ l1) 8) (byteZ l0)) - 2) rest),
        (drop (Z.to_nat (Z.lor (Z.shiftl (byteZ l1) 8) (byteZ l0)) - 2) rest).
      simpl in *. split; [by rewrite take_drop|]. split; [|done].
      rewrite length_take. lia.
    + by destruct (Byte.eqb h1 MarkerStartOfScan).
Qed.

(** X6. A size that [jpegExtractSize] returns is what the decoder of the
    frame header yields on a segment of the image: the image holds the
    marker FF, [MarkerStartOfFrame1], two bytes of length and then the
    bytes decoded, two fewer than the length says. *)
Theorem jpegExtractSize_from_frame_header (image : list Byte.byte) (w h : Z) :
  jpegExtractSize image = Some (Size w h) ->
  exists pre l1 l0 buf post,
    image = (pre ++ [Byte.xff; MarkerStartOfFrame1; l1; l0] ++ buf ++ post)%list /\
    Z.of_nat (length buf) + 2 = Z.lor (Z.shiftl (byteZ l1) 8) (byteZ l0) /\
    sofUnmarshal buf = inl (w, h).
Proof.
  unfold jpegExtractSize. destruct image as [|b0 [|b1 rest]]; try done.
  destruct (_ || _); [done|].
  intros (pre & l1 & l0 & buf & post & -> & Hlen & Hsof)%jpegLoop_size_segment.
  by exists (b0 :: b1 :: pre), l1, l0, buf, post.
Qed.

End WithLibrary.

(** ** An instance for the examples *)

(** The marker codes of ITU-T T.81 and a decoder that reads height and
    width from a frame header (precision, two bytes of height, two bytes
    of width). *)
Definition frameHeaderSize (buf : list Byte.byte) : (Z * Z) + error :=
  match buf with
  | _ :: y1 :: y0 :: x1 :: x0 :: _ =>
      inl (Z.lor (Z.shiftl (byteZ x1) 8) (byteZ x0),
           Z.lor (Z.shiftl (byteZ y1) 8) (byteZ y0))
  | _ => inr "frame header too short"
  end.

Definition jpegSize : list Byte.byte -> option result :=
  jpegExtractSize Byte.xd8 Byte.xc4 Byte.xfe Byte.xdb Byte.xdd Byte.xc0
    Byte.xda frameHeaderSize.

(** A frame header of 17 bytes that announces 640 x 480. *)
Definition frame640x480 : list Byte.byte :=
  [Byte.xff; Byte.xd8; Byte.xff; Byte.xc0; Byte.x00; Byte.x11; Byte.x08;
   Byte.x01; Byte.xe0; Byte.x02; Byte.x80; Byte.x03; Byte.x01; Byte.x22;
   Byte.x00; Byte.x02; Byte.x11; Byte.x01; Byte.x03; Byte.x11; Byte.x01].

Example jpegSize_640x480 : jpegSize frame640x480 = Some (Size 640 480).
Proof. reflexivity. Qed.

Example jpegSize_short : jpegSize [Byte.xff; Byte.xd8] = Some (Failure "not enough bits").
Proof. reflexivity. Qed.

Example jpegSize_unknown_marker :
  jpegSize [Byte.xff; Byte.xd8; Byte.xff; Byte.x01]
  = Some (Failure "unknown marker: 0x01").
Proof. reflexivity. Qed.

(** A comment segment of declared length 0 is skipped without a panic. *)
Example jpegSize_zero_length :
  jpegSize [Byte.xff; Byte.xd8; Byte.xff; Byte.xfe; Byte.x00; Byte.x00]
  = Some (Failure "invalid image").
Proof. reflexivity. Qed.

(** The image ends after a marker of a skipped segment. *)
Example jpegSize_panics_on_length :
  jpegSize [Byte.xff; Byte.xd8; Byte.xff; Byte.xe0] = Some IndexPanic.
Proof. reflexivity. Qed.

(** One length byte only after the marker of the frame header. *)
Example jpegSize_panics_on_one_length_byte :
  jpegSize [Byte.xff; Byte.xd8; Byte.xff; Byte.xc0; Byte.x00] = Some IndexPanic.
Proof. reflexivity. Qed.

(** A frame header of declared length 1: [image[2:1]] is out of bounds. *)
Example jpegSize_panics_on_slice :
  jpegSize [Byte.xff; Byte.xd8; Byte.xff; Byte.xc0; Byte.x00; Byte.x01]
  = Some IndexPanic.
Proof. reflexivity. Qed.

(** Witness of X5: the frame of 640 x 480 followed by the start of a
    scan. *)
Lemma jpegExtractSize_ignores_trailer_witness :
  jpegSize (frame640x480 ++ [Byte.xff; Byte.xda; Byte.x00])
  = Some (Size 640 480).
Proof.
  apply (jpegExtractSize_ignores_trailer Byte.xd8 Byte.xc4 Byte.xfe Byte.xdb
           Byte.xdd Byte.xc0 Byte.xda frameHeaderSize frame640x480
           [Byte.xff; Byte.xda; Byte.x00] 640 480).
  reflexivity.
Defined.

(** Witness of X6 on the frame of 640 x 480. *)
Lemma jpegExtractSize_from_frame_header_witness :
  exists pre l1 l0 buf post,
    frame640x480
    = (pre ++ [Byte.xff; Byte.xc0; l1; l0] ++ buf ++ post)%list /\
    Z.of_nat (length buf) + 2 = Z.lor (Z.shiftl (byteZ l1) 8) (byteZ l0) /\
    frameHeaderSize buf = inl (640, 480).
Proof.
  apply (jpegExtractSize_from_frame_header Byte.xd8 Byte.xc4 Byte.xfe Byte.xdb
           Byte.xdd Byte.xc0 Byte.xda frameHeaderSize frame640x480 640 480).
  reflexivity.
Defined.

End Jpeg.

(* ===================================================================== *)
(** * The recorder: [record.NewAgent] and [record.Agent.updateCodecs]     *)
(* ===================================================================== *)

Module Recorder.

#[export] Instance byte_eq_dec : EqDecision Byte.byte := Byte.byte_eq_dec.

(** ** The built-in parameters of [NewAgent] *)

Definition defaultAV1SequenceHeader : list Byte.byte :=
  [Byte.x08; Byte.x00; Byte.x00; Byte.x00; Byte.x42; Byte.xa7; Byte.xbf;
   Byte.xe4; Byte.x60; Byte.x0d; Byte.x00; Byte.x40].

Definition defaultH265VPS : list Byte.byte :=
  [Byte.x40; Byte.x01; Byte.x0c; Byte.x01; Byte.xff; Byte.xff; Byte.x02;
   Byte.x20; Byte.x00; Byte.x00; Byte.x03; Byte.x00; Byte.xb0; Byte.x00;
   Byte.x00; Byte.x03; Byte.x00; Byte.x00; Byte.x03; Byte.x00; Byte.x7b;
   Byte.x18; Byte.xb0; Byte.x24].

Definition defaultH265SPS : list Byte.byte :=
  [Byte.x42; Byte.x01; Byte.x01; Byte.x02; Byte.x20; Byte.x00; Byte.x00;
   Byte.x03; Byte.x00; Byte.xb0; Byte.x00; Byte.x00; Byte.x03; Byte.x00;
   Byte.x00; Byte.x03; Byte.x00; Byte.x7b; Byte.xa0; Byte.x07; Byte.x82;
   Byte.x00; Byte.x88; Byte.x7d; Byte.xb6; Byte.x71; Byte.x8b; Byte.x92;
   Byte.x44; Byte.x80; Byte.x53; Byte.x88; Byte.x88; Byte.x92; Byte.xcf;
   Byte.x24; Byte.xa6; Byte.x92; Byte.x72; Byte.xc9; Byte.x12; Byte.x49;
   Byte.x22; Byte.xdc; Byte.x91; Byte.xaa; Byte.x48; Byte.xfc; Byte.xa2;
   Byte.x23; Byte.xff; Byte.x00; Byte.x01; Byte.x00; Byte.x01; Byte.x6a;
   Byte.x02; Byte.x02; Byte.x02; Byte.x01].

Definition defaultH265PPS : list Byte.byte :=
  [Byte.x44; Byte.x01; Byte.xc0; Byte.x25; Byte.x2f; Byte.x05; Byte.x32;
   Byte.x40].

Definition defaultH264SPS : list Byte.byte :=
  [Byte.x67; Byte.x42; Byte.xc0; Byte.x1f; Byte.xd9; Byte.x00; Byte.xf0;
   Byte.x11; Byte.x7e; Byte.xf0; Byte.x11; Byte.x00; Byte.x00; Byte.x03;
   Byte.x00; Byte.x01; Byte.x00; Byte.x00; Byte.x03; Byte.x00; Byte.x30;
   Byte.x8f; Byte.x18; Byte.x32; Byte.x48].

Definition defaultH264PPS : list Byte.byte :=
  [Byte.x68; Byte.xcb; Byte.x8c; Byte.xb2].

Definition defaultMPEG4VideoConfig : list Byte.byte :=
  [Byte.x00; Byte.x00; Byte.x01; Byte.xb0; Byte.x01; Byte.x00; Byte.x00;
   Byte.x01; Byte.xb5; Byte.x89; Byte.x13; Byte.x00; Byte.x00; Byte.x01;
   Byte.x00; Byte.x00; Byte.x00; Byte.x01; Byte.x20; Byte.x00; Byte.xc4;
   Byte.x8d; Byte.x88; Byte.x00; Byte.xf5; Byte.x3c; Byte.x04; Byte.x87;
   Byte.x14; Byte.x63; Byte.x00; Byte.x00; Byte.x01; Byte.xb2; Byte.x4c;
   Byte.x61; Byte.x76; Byte.x63; Byte.x35; Byte.x38; Byte.x2e; Byte.x31;
   Byte.x33; Byte.x34; Byte.x2e; Byte.x31; Byte.x30; Byte.x30].

Definition defaultMPEG1VideoConfig : list Byte.byte :=
  [Byte.x00; Byte.x00; Byte.x01; Byte.xb3; Byte.x78; Byte.x04; Byte.x38;
   Byte.x35; Byte.xff; Byte.xff; Byte.xe0; Byte.x18; Byte.x00; Byte.x00;
   Byte.x01; Byte.xb5; Byte.x14; Byte.x4a; Byte.x00; Byte.x01; Byte.x00;
   Byte.x00].

(** ** Formats and codecs *)

(** The cases of the type switch of [NewAgent], each with what the
    agent reads from the format: for H.265, H.264 and MPEG-4 Video the
    result of [SafeParams] ([None] is a nil slice), for MPEG-4 Audio the
    result of [GetConfig] ([None] is a nil pointer) and the clock rate.
    [FormatOther] stands for the formats that the switch does not list. *)
Inductive Format (audioConfig : Type) :=
| FormatAV1
| FormatVP9
| FormatVP8
| FormatH265 (vps sps pps : option (list Byte.byte))
| FormatH264 (sps pps : option (list Byte.byte))
| FormatMPEG4Video (config : option (list Byte.byte))
| FormatMPEG1Video
| FormatMJPEG
| FormatOpus (IsStereo : bool)
| FormatMPEG4Audio (config : option audioConfig) (clockRate : Z)
| FormatMPEG1Audio
| FormatAC3 (SampleRate ChannelCount : Z)
| FormatG722
| FormatG711
| FormatLPCM (BitDepth SampleRate ChannelCount : Z)
| FormatOther.
Arguments FormatAV1 {audioConfig}.
Arguments FormatVP9 {audioConfig}.
Arguments FormatVP8 {audioConfig}.
Arguments FormatH265 {audioConfig} vps sps pps.
Arguments FormatH264 {audioConfig} sps pps.
Arguments FormatMPEG4Video {audioConfig} config.
Arguments FormatMPEG1Video {audioConfig}.
Arguments FormatMJPEG {audioConfig}.
Arguments FormatOpus {audioConfig} IsStereo.
Arguments FormatMPEG4Audio {audioConfig} config clockRate.
Arguments FormatMPEG1Audio {audioConfig}.
Arguments FormatAC3 {audioConfig} SampleRate ChannelCount.
Arguments FormatG722 {audioConfig}.
Arguments FormatG711 {audioConfig}.
Arguments FormatLPCM {audioConfig} BitDepth SampleRate ChannelCount.
Arguments FormatOther {audioConfig}.

(** The codecs of package fmp4 with the fields that [NewAgent] sets. *)
Inductive Codec (audioConfig : Type) :=
| CodecAV1 (SequenceHeader : list Byte.byte)
| CodecVP9 (Width Height Profile BitDepth ChromaSubsampling : Z)
    (ColorRange : bool)
| CodecH265 (VPS SPS PPS : list Byte.byte)
| CodecH264 (SPS PPS : list Byte.byte)
| CodecMPEG4Video (Config : list Byte.byte)
| CodecMPEG1Video (Config : list Byte.byte)
| CodecMJPEG (Width Height : Z)
| CodecOpus (ChannelCount : Z)
| CodecMPEG4Audio (Config : audioConfig)
| CodecMPEG1Audio (SampleRate ChannelCount : Z)
| CodecAC3 (SampleRate ChannelCount Fscod Bsid Bsmod Acmod : Z)
    (LfeOn : bool) (BitRateCode : Z)
| CodecLPCM (LittleEndian : bool) (BitDepth SampleRate ChannelCount : Z).
Arguments CodecAV1 {audioConfig} SequenceHeader.
Arguments CodecVP9 {audioConfig} Width Height Profile BitDepth
  ChromaSubsampling ColorRange.
Arguments CodecH265 {audioConfig} VPS SPS PPS.
Arguments CodecH264 {audioConfig} SPS PPS.
Arguments CodecMPEG4Video {audioConfig} Config.
Arguments CodecMPEG1Video {audioConfig} Config.
Arguments CodecMJPEG {audioConfig} Width Height.
Arguments CodecOpus {audioConfig} ChannelCount.
Arguments CodecMPEG4Audio {audioConfig} Config.
Arguments CodecMPEG1Audio {audioConfig} SampleRate ChannelCount.
Arguments CodecAC3 {audioConfig} SampleRate ChannelCount Fscod Bsid Bsmod
  Acmod LfeOn BitRateCode.
Arguments CodecLPCM {audioConfig} LittleEndian BitDepth SampleRate
  ChannelCount.

(** What the switch does with a format: a track with a codec, no track
    (the cases marked TODO and the formats not listed), or a panic
    (a nil pointer is dereferenced). *)
Inductive seeded (audioConfig : Type) :=
| Track (c : Codec audioConfig)
| NoTrack
| NilPanic.
Arguments Track {audioConfig} c.
Arguments NoTrack {audioConfig}.
Arguments NilPanic {audioConfig}.

(** The codec with which [NewAgent] calls [addTrack] for a format. *)
Definition initialCodec {audioConfig : Type} (forma : Format audioConfig)
  : seeded audioConfig :=
  match forma with
  | FormatAV1 => Track (CodecAV1 defaultAV1SequenceHeader)
  | FormatVP9 => Track (CodecVP9 1280 720 1 8 1 false)
  | FormatVP8 => NoTrack
  | FormatH265 vps sps pps =>
      match vps, sps, pps with
      | Some v, Some s, Some p => Track (CodecH265 v s p)
      | _, _, _ => Track (CodecH265 defaultH265VPS defaultH265SPS defaultH265PPS)
      end
  | FormatH264 sps pps =>
      match sps, pps with
      | Some s, Some p => Track (CodecH264 s p)
      | _, _ => Track (CodecH264 defaultH264SPS defaultH264PPS)
      end
  | FormatMPEG4Video config =>
      match config with
      | Some c => Track (CodecMPEG4Video c)
      | None => Track (CodecMPEG4Video defaultMPEG4VideoConfig)
      end
  | FormatMPEG1Video => Track (CodecMPEG1Video defaultMPEG1VideoConfig)
  | FormatMJPEG => Track (CodecMJPEG 800 600)
  | FormatOpus stereo => Track (CodecOpus (if stereo then 2 else 1))
  | FormatMPEG4Audio config _ =>
      match config with
      | Some c => Track (CodecMPEG4Audio c)
      | None => NilPanic
      end
  | FormatMPEG1Audio => Track (CodecMPEG1Audio 32000 2)
  | FormatAC3 sr cc => Track (CodecAC3 sr cc 0 8 0 7 true 7)
  | FormatG722 => NoTrack
  | FormatG711 => NoTrack
  | FormatLPCM bd sr cc => Track (CodecLPCM false bd sr cc)
  | FormatOther => NoTrack
  end.

(** ** The agent and [updateCodecs] *)

(** A segment, as far as [updateCodecs] reads it: its file, nil until
    the segment has written to disk. *)
Record segment := { f : option positive }.

(** The agent: its current segment, and the segments on which [close]
    has been called, the latest first. *)
Record agent := {
  currentSegment : option segment;
  closedSegments : list segment;
}.

Definition updateCodecs (r : agent) : agent :=
  (* if codec parameters have been updated, and current segment has
     already written codec parameters on disk, close current segment. *)
  match currentSegment r with
  | Some seg =>
      match f seg with
      | Some _ =>
          {| currentSegment := None; closedSegments := seg :: closedSegments r |}
      | None => r
      end
  | None => r
  end.

(** ** [durationGoToMp4] *)

Definition second : Z := 1000000000.
Definition uint64 (x : Z) : Z := x mod 2 ^ 64.
Definition int32 (x : Z) : Z :=
  let y := x mod 2 ^ 32 in if (y <? 2 ^ 31)%Z then y else y - 2 ^ 32.

(** [v] is an int64, [timeScale] a uint32; the arithmetic is that of
    uint64. *)
Definition durationGoToMp4 (v timeScale : Z) : Z :=
  let timeScale64 := uint64 timeScale in
  let secs := Z.quot v second in
  let dec := Z.rem v second in
  uint64 (uint64 (uint64 secs * timeScale64)
          + uint64 (uint64 dec * timeScale64) / uint64 second).

(** ** The readers of the stream *)

(** fmp4.PartSample with the fields the readers set. *)
Record PartSample := {
  IsNonSyncSample : bool;
  Payload : list Byte.byte;
}.

(** What a callback returns: the state it leaves and its error. *)
Inductive outcome (A : Type) :=
| Done (a : A)
| Panic.
Arguments Done {A} a.
Arguments Panic {A}.

Section WithLibraries.

(** The NAL unit types of packages h264 and h265, the DTS extractors,
    [fmp4.NewPartSampleH26x] and the method [track.record] are declared
    outside the file: they are parameters.  [trackRecord] is
    [track.record] of the track of the reader, on a sample given by its
    part and its DTS. *)
Variables NALUTypeSPS NALUTypePPS NALUTypeIDR : Z.
Variables NALUType_VPS_NUT NALUType_SPS_NUT NALUType_PPS_NUT
  NALUType_IDR_W_RADL NALUType_IDR_N_LP NALUType_CRA_NUT : Z.
Context {DTSExtractor : Type}.
Variable NewDTSExtractor : DTSExtractor.
Variable Extract :
  DTSExtractor -> list (list Byte.byte) -> Z -> DTSExtractor * (Z + error).
Variable NewPartSampleH26x :
  Z -> bool -> list (list Byte.byte) -> PartSample + error.
Variable trackRecord : PartSample -> Z -> agent -> agent * option error.

(** *** H.264 *)

(** The variables the callback of an H.264 format captures. *)
Record h264Reader := {
  h264SPS : list Byte.byte;
  h264PPS : list Byte.byte;
  h264DTSExtractor : option DTSExtractor;
}.

(** [nalu[0] & 0x1F]; [None] when the NAL unit is empty. *)
Definition h264NALUType (nalu : list Byte.byte) : option Z :=
  match nalu with
  | b :: _ => Some (Z.land (Jpeg.byteZ b) 31)
  | [] => None
  end.

(** The loop over the NAL units of an access unit. *)
Fixpoint scanH264 (au : list (list Byte.byte)) (c : h264Reader) (r : agent)
    (randomAccess : bool) : outcome (h264Reader * agent * bool) :=
  match au with
  | [] => Done (c, r, randomAccess)
  | nalu :: au' =>
      match h264NALUType nalu with
      | None => Panic
      | Some typ =>
          if (typ =? NALUTypeSPS)%Z then
            if bool_decide (h264SPS c <> nalu) then
              scanH264 au'
                {| h264SPS := nalu; h264PPS := h264PPS c;
                   h264DTSExtractor := h264DTSExtractor c |}
                (updateCodecs r) randomAccess
            else scanH264 au' c r randomAccess
          else if (typ =? NALUTypePPS)%Z then
            if bool_decide (h264PPS c <> nalu) then
              scanH264 au'
                {| h264SPS := h264SPS c; h264PPS := nalu;
                   h264DTSExtractor := h264DTSExtractor c |}
                (updateCodecs r) randomAccess
            else scanH264 au' c r randomAccess
          else if (typ =? NALUTypeIDR)%Z then scanH264 au' c r true
          else scanH264 au' c r randomAccess
      end
  end.

Definition setH264DTSExtractor (d : DTSExtractor) (c : h264Reader) : h264Reader :=
  {| h264SPS := h264SPS c; h264PPS := h264PPS c; h264DTSExtractor := Some d |}.

(** From [dtsExtractor.Extract] to [track.record]. *)
Definition recordH26x (au : list (list Byte.byte)) (pts : Z)
    (randomAccess : bool) (d : DTSExtractor) (r : agent)
  : DTSExtractor * agent * option error :=
  match Extract d au pts with
  | (d', inr e) => (d', r, Some e)
  | (d', inl dts) =>
      match NewPartSampleH26x (int32 (durationGoToMp4 (pts - dts) 90000))
              randomAccess au with
      | inr e => (d', r, Some e)
      | inl sampl =>
          let '(r', res) := trackRecord sampl dts r in (d', r', res)
      end
  end.

(** The callback of an H.264 format on a unit with access unit [au]
    ([None] is nil) and presentation time [pts]. *)
Definition onUnitH264 (c : h264Reader) (r : agent)
    (au : option (list (list Byte.byte))) (pts : Z)
  : outcome (h264Reader * agent * option error) :=
  match au with
  | None => Done (c, r, None)
  | Some au =>
      match scanH264 au c r false with
      | Panic => Panic
      | Done (c1, r1, randomAccess) =>
          match h264DTSExtractor c1 with
          | None =>
              if negb randomAccess then Done (c1, r1, None)
              else
                let '(d', r2, res) :=
                  recordH26x au pts randomAccess NewDTSExtractor r1 in
                Done (setH264DTSExtractor d' c1, r2, res)
          | Some d =>
              let '(d', r2, res) := recordH26x au pts randomAccess d r1 in
              Done (setH264DTSExtractor d' c1, r2, res)
          end
      end
  end.

(** *** H.265 *)

Record h265Reader := {
  h265VPS : list Byte.byte;
  h265SPS : list Byte.byte;
  h265PPS : list Byte.byte;
  h265DTSExtractor : option DTSExtractor;
}.

(** [(nalu[0] >> 1) & 0b111111]. *)
Definition h265NALUType (nalu : list Byte.byte) : option Z :=
  match nalu with
  | b :: _ => Some (Z.land (Z.shiftr (Jpeg.byteZ b) 1) 63)
  | [] => None
  end.

Fixpoint scanH265 (au : list (list Byte.byte)) (c : h265Reader) (r : agent)
    (randomAccess : bool) : outcome (h265Reader * agent * bool) :=
  match au with
  | [] => Done (c, r, randomAccess)
  | nalu :: au' =>
      match h265NALUType nalu with
      | None => Panic
      | Some typ =>
          if (typ =? NALUType_VPS_NUT)%Z then
            if bool_decide (h265VPS c <> nalu) then
              scanH265 au'
                {| h265VPS := nalu; h265SPS := h265SPS c; h265PPS := h265PPS c;
                   h265DTSExtractor := h265DTSExtractor c |}
                (updateCodecs r) randomAccess
            else scanH265 au' c r randomAccess
          else if (typ =? NALUType_SPS_NUT)%Z then
            if bool_decide (h265SPS c <> nalu) then
              scanH265 au'
                {| h265VPS := h265VPS c; h265SPS := nalu; h265PPS := h265PPS c;
                   h265DTSExtractor := h265DTSExtractor c |}
                (updateCodecs r) randomAccess
            else scanH265 au' c r randomAccess
          else if (typ =? NALUType_PPS_NUT)%Z then
            if bool_decide (h265PPS c <> nalu) then
              scanH265 au'
                {| h265VPS := h265VPS c; h265SPS := h265SPS c; h265PPS := nalu;
                   h265DTSExtractor := h265DTSExtractor c |}
                (updateCodecs r) randomAccess
            else scanH265 au' c r randomAccess
          else if (typ =? NALUType_IDR_W_RADL)%Z || (typ =? NALUType_IDR_N_LP)%Z
                  || (typ =? NALUType_CRA_NUT)%Z
          then scanH265 au' c r true
          else scanH265 au' c r randomAccess
      end
  end.



(** *** M-JPEG *)

(** The variables the callback of an M-JPEG format captures. *)
Record mjpegReader := {
  mjpegWidth : Z;
  mjpegHeight : Z;
  parsed : bool;
}.

(** [jpegExtractSize] with the library it is linked to. *)
Variable jpegExtractSize : list Byte.byte -> option Jpeg.result.

(** The block [if !parsed { ... }]: the reader and the agent after it,
    or the error with which the callback returns. *)
Definition mjpegParse (c : mjpegReader) (r : agent) (frame : list Byte.byte)
  : outcome (mjpegReader * agent * option error) :=
  if negb (parsed c) then
    let c1 := {| mjpegWidth := mjpegWidth c; mjpegHeight := mjpegHeight c;
                 parsed := true |} in
    match jpegExtractSize frame with
    | Some (Jpeg.Size width height) =>
        Done ({| mjpegWidth := width; mjpegHeight := height; parsed := true |},
              updateCodecs r, None)
    | Some (Jpeg.Failure e) => Done (c1, r, Some e)
    | Some Jpeg.IndexPanic | None => Panic
    end
  else Done (c, r, None).

Definition onUnitMJPEG (c : mjpegReader) (r : agent)
    (frame : option (list Byte.byte)) (pts : Z)
  : outcome (mjpegReader * agent * option error) :=
  match frame with
  | None => Done (c, r, None)
  | Some frame =>
      match mjpegParse c r frame with
      | Panic => Panic
      | Done (c1, r1, Some e) => Done (c1, r1, Some e)
      | Done (c1, r1, None) =>
          let '(r2, res) :=
            trackRecord {| IsNonSyncSample := false; Payload := frame |} pts r1 in
          Done (c1, r2, res)
      end
  end.

(** *** VP9 *)

(** vp9.Header as far as the callback reads it: the frame type, the
    results of [Width()], [Height()] and [ChromaSubsampling()], the
    profile and the colour configuration. *)
Record vp9Header := {
  isKeyFrame : bool;
  hdrWidth : Z;
  hdrHeight : Z;
  hdrProfile : Z;
  hdrBitDepth : Z;
  hdrChromaSubsampling : Z;
  hdrColorRange : bool;
}.

(** The variables the callback of a VP9 format captures. *)
Record vp9Reader := {
  vp9Width : Z;
  vp9Height : Z;
  vp9Profile : Z;
  vp9BitDepth : Z;
  vp9ChromaSubsampling : Z;
  vp9ColorRange : bool;
  vp9FirstReceived : bool;
}.

(** One [if] of the block for key frames: when the stored value differs
    from the new one, store it and call [updateCodecs]. *)
Definition vp9Set {A : Type} `{EqDecision A} (stored new : A)
    (set : A -> vp9Reader -> vp9Reader) (cr : vp9Reader * agent)
  : vp9Reader * agent :=
  if bool_decide (stored <> new) then (set new cr.1, updateCodecs cr.2) else cr.

(** The block [if h.FrameType == vp9.FrameTypeKeyFrame].  The second
    [if] reads [h.Width()] as the source does. *)
Definition vp9KeyFrame (h : vp9Header) (c : vp9Reader) (r : agent)
  : vp9Reader * agent :=
  let cr := (c, r) in
  let cr := vp9Set (vp9Width cr.1) (hdrWidth h)
              (fun w c => {| vp9Width := w; vp9Height := vp9Height c;
                             vp9Profile := vp9Profile c;
                             vp9BitDepth := vp9BitDepth c;
                             vp9ChromaSubsampling := vp9ChromaSubsampling c;
                             vp9ColorRange := vp9ColorRange c;
                             vp9FirstReceived := vp9FirstReceived c |}) cr in
  let cr := vp9Set (vp9Height cr.1) (hdrWidth h)
              (fun x c => {| vp9Width := vp9Width c; vp9Height := x;
                             vp9Profile := vp9Profile c;
                             vp9BitDepth := vp9BitDepth c;
                             vp9ChromaSubsampling := vp9ChromaSubsampling c;
                             vp9ColorRange := vp9ColorRange c;
                             vp9FirstReceived := vp9FirstReceived c |}) cr in
  let cr := vp9Set (vp9Profile cr.1) (hdrProfile h)
              (fun x c => {| vp9Width := vp9Width c; vp9Height := vp9Height c;
                             vp9Profile := x;
                             vp9BitDepth := vp9BitDepth c;
                             vp9ChromaSubsampling := vp9ChromaSubsampling c;
                             vp9ColorRange := vp9ColorRange c;
                             vp9FirstReceived := vp9FirstReceived c |}) cr in
  let cr := vp9Set (vp9BitDepth cr.1) (hdrBitDepth h)
              (fun x c => {| vp9Width := vp9Width c; vp9Height := vp9Height c;
                             vp9Profile := vp9Profile c;
                             vp9BitDepth := x;
                             vp9ChromaSubsampling := vp9ChromaSubsampling c;
                             vp9ColorRange := vp9ColorRange c;
                             vp9FirstReceived := vp9FirstReceived c |}) cr in
  let cr := vp9Set (vp9ChromaSubsampling cr.1) (hdrChromaSubsampling h)
              (fun x c => {| vp9Width := vp9Width c; vp9Height := vp9Height c;
                             vp9Profile := vp9Profile c;
                             vp9BitDepth := vp9BitDepth c;
                             vp9ChromaSubsampling := x;
                             vp9ColorRange := vp9ColorRange c;
                             vp9FirstReceived := vp9FirstReceived c |}) cr in
  vp9Set (vp9ColorRange cr.1) (hdrColorRange h)
    (fun x c => {| vp9Width := vp9Width c; vp9Height := vp9Height c;
                   vp9Profile := vp9Profile c;
                   vp9BitDepth := vp9BitDepth c;
                   vp9ChromaSubsampling := vp9ChromaSubsampling c;
                   vp9ColorRange := x;
                   vp9FirstReceived := vp9FirstReceived c |}) cr.

(** [vp9.Header.Unmarshal], a parameter. *)
Variable vp9Unmarshal : list Byte.byte -> vp9Header + error.


(** *** AV1 *)


(** [av1.OBUTypeSequenceHeader], [av1.OBUHeader.Unmarshal] as far as the
    callback reads its result (the type of the OBU, or the error), and
    [fmp4.NewPartSampleAV1]: parameters. *)
Variable OBUTypeSequenceHeader : Z.
Variable obuHeaderUnmarshal : list Byte.byte -> Z + error.
Variable NewPartSampleAV1 :
  bool -> list (list Byte.byte) -> PartSample + error.



(** *** MPEG-4 Video and MPEG-1 Video *)





(** [mpeg4video.VisualObjectSequenceStartCode] and
    [mpeg4video.GroupOfVOPStartCode], parameters. *)
Variables VisualObjectSequenceStartCode GroupOfVOPStartCode : Byte.byte.



(** *** MPEG-1 Audio and AC-3 *)

(** [mpeg1audio.ChannelModeStereo], [ChannelModeJointStereo] and
    [ChannelModeDualChannel], parameters. *)
Variables ChannelModeStereo ChannelModeJointStereo ChannelModeDualChannel : Z.








(** ** Properties *)



Lemma updateCodecs_idempotent (r : agent) :
  updateCodecs (updateCodecs r) = updateCodecs r.
Proof.
  unfold updateCodecs.
  destruct (currentSegment r) as [seg|] eqn:Hc;
    [destruct (f seg) eqn:Hf|]; simpl; rewrite ?Hc, ?Hf; done.
Qed.

(** The loop over the NAL units leaves the agent as it was when no
    parameter set changed, and as [updateCodecs] leaves it otherwise. *)
Lemma scanH264_agent au c r ra c' r' ra' :
  scanH264 au c r ra = Done (c', r', ra') ->
  (c' = c /\ r' = r) \/ r' = updateCodecs r.
Proof.
  revert c r ra. induction au as [|nalu au IH]; intros c r ra; simpl.
  - intros [= <- <- <-]. by left.
  - destruct (h264NALUType nalu) as [typ|]; [|done].
    assert (Hupd : forall c0, scanH264 au c0 (updateCodecs r) ra = Done (c', r', ra') ->
                   r' = updateCodecs r).
    { intros c0 Hs. apply IH in Hs as [[_ ->]| ->]; [done|].
      apply updateCodecs_idempotent. }
    repeat case_match; intros Hs; eauto.
Qed.


Lemma vp9Set_cases {A : Type} `{EqDecision A} (stored new : A)
    (set : A -> vp9Reader -> vp9Reader) (cr : vp9Reader * agent) :
  vp9Set stored new set cr = cr /\ stored = new \/
  vp9Set stored new set cr = (set new cr.1, updateCodecs cr.2) /\ stored <> new.
Proof. unfold vp9Set. case_bool_decide; [by right|by left]. Qed.

(** The block for key frames: what it stores, and the agent after it. *)
Lemma vp9KeyFrame_fields (h : vp9Header) (c : vp9Reader) (r : agent) :
  vp9Width (vp9KeyFrame h c r).1 = hdrWidth h /\
  vp9Height (vp9KeyFrame h c r).1 = hdrWidth h /\
  vp9Profile (vp9KeyFrame h c r).1 = hdrProfile h /\
  vp9BitDepth (vp9KeyFrame h c r).1 = hdrBitDepth h /\
  vp9ChromaSubsampling (vp9KeyFrame h c r).1 = hdrChromaSubsampling h /\
  vp9ColorRange (vp9KeyFrame h c r).1 = hdrColorRange h /\
  vp9FirstReceived (vp9KeyFrame h c r).1 = vp9FirstReceived c /\
  ((vp9KeyFrame h c r).1 = c -> (vp9KeyFrame h c r).2 = r) /\
  ((vp9KeyFrame h c r).1 <> c -> (vp9KeyFrame h c r).2 = updateCodecs r).
Proof.
  unfold vp9KeyFrame. cbv zeta.
  remember (c, r) as cr0 eqn:H0.
  repeat match goal with
  | |- context [vp9Set ?a ?b ?g ?x] =>
      is_var x; let y := fresh "cr" in remember (vp9Set a b g x) as y
  end.
  subst cr0. destruct c as [w x pr bd cs rg fr].
  repeat match goal with
  | Hy : ?y = vp9Set ?a ?b ?g (?p, ?q) |- _ =>
      destruct (vp9Set_cases a b g (p, q)) as [[Hs ?]|[Hs ?]];
      rewrite Hs in Hy; clear Hs;
      cbn [fst snd vp9Width vp9Height vp9Profile vp9BitDepth
           vp9ChromaSubsampling vp9ColorRange vp9FirstReceived] in *;
      subst y
  end.
  all: cbn [fst snd vp9Width vp9Height vp9Profile vp9BitDepth
            vp9ChromaSubsampling vp9ColorRange vp9FirstReceived];
    rewrite ?updateCodecs_idempotent.
  all: repeat split; try done.
  all: intros Heq; congruence.
Qed.

(** ** Access units of H.264 *)

(** The NAL units that set [randomAccess]: the third case of the
    [switch]. *)
Definition h264IsIDR (nalu : list Byte.byte) : bool :=
  match h264NALUType nalu with
  | Some typ =>
      negb (typ =? NALUTypeSPS)%Z && negb (typ =? NALUTypePPS)%Z
      && (typ =? NALUTypeIDR)%Z
  | None => false
  end.

Definition h264IsSPS (nalu : list Byte.byte) : bool :=
  match h264NALUType nalu with
  | Some typ => (typ =? NALUTypeSPS)%Z
  | None => false
  end.

Definition h264IsPPS (nalu : list Byte.byte) : bool :=
  match h264NALUType nalu with
  | Some typ => negb (typ =? NALUTypeSPS)%Z && (typ =? NALUTypePPS)%Z
  | None => false
  end.

(** The last element of a list that satisfies a test, or a default. *)
Definition lastWith {A : Type} (test : A -> bool) (l : list A) (d : A) : A :=
  List.last (List.filter test l) d.

Lemma lastWith_cons {A : Type} (test : A -> bool) (x : A) (l : list A) (d : A) :
  lastWith test (x :: l) d = lastWith test l (if test x then x else d).
Proof.
  unfold lastWith. simpl. destruct (test x); [|done].
  generalize (List.filter test l). intros l'. revert x d.
  induction l' as [|y l' IH]; intros x d; [done|].
  change (List.last (x :: y :: l') d) with (List.last (y :: l') d).
  by rewrite (IH y d), (IH y x).
Qed.

Lemma scanH264_result au c r ra c' r' ra' :
  scanH264 au c r ra = Done (c', r', ra') ->
  h264DTSExtractor c' = h264DTSExtractor c /\
  ra' = ra || existsb h264IsIDR au /\
  h264SPS c' = lastWith h264IsSPS au (h264SPS c) /\
  h264PPS c' = lastWith h264IsPPS au (h264PPS c).
Proof.
  revert c r ra. induction au as [|nalu au IH]; intros c r ra.
  - simpl. intros [= <- <- <-]. by rewrite orb_false_r.
  - rewrite !lastWith_cons. simpl.
    destruct (h264NALUType nalu) as [typ|] eqn:Hty; [|done].
    assert (HS : h264IsSPS nalu = (typ =? NALUTypeSPS)%Z)
      by (unfold h264IsSPS; by rewrite Hty).
    assert (HP : h264IsPPS nalu
                 = negb (typ =? NALUTypeSPS)%Z && (typ =? NALUTypePPS)%Z)
      by (unfold h264IsPPS; by rewrite Hty).
    assert (HI : h264IsIDR nalu
                 = negb (typ =? NALUTypeSPS)%Z && negb (typ =? NALUTypePPS)%Z
                   && (typ =? NALUTypeIDR)%Z)
      by (unfold h264IsIDR; by rewrite Hty).
    rewrite HS, HP, HI. clear HS HP HI.
    destruct (typ =? NALUTypeSPS)%Z; simpl.
    { case_bool_decide as Hne; intros (He & Hra & Hs & Hp)%IH; simpl in *;
        [done|].
      assert (h264SPS c = nalu) as <-; [|done].
      destruct (decide (h264SPS c = nalu)); [done|]. by destruct Hne. }
    destruct (typ =? NALUTypePPS)%Z; simpl.
    { case_bool_decide as Hne; intros (He & Hra & Hs & Hp)%IH; simpl in *;
        [done|].
      assert (h264PPS c = nalu) as <-; [|done].
      destruct (decide (h264PPS c = nalu)); [done|]. by destruct Hne. }
    destruct (typ =? NALUTypeIDR)%Z; simpl;
      intros (He & Hra & Hs & Hp)%IH; [|done].
    rewrite orb_true_r. by rewrite orb_true_l in Hra.
Qed.

(** X7. After the loop over an access unit the stored SPS is the last
    SPS NAL unit of the unit and the stored PPS its last PPS NAL unit,
    each unchanged when the unit has none; the DTS extractor is not
    touched. *)
Theorem scanH264_last_parameter_sets (au : list (list Byte.byte))
    (c c' : h264Reader) (r r' : agent) (ra ra' : bool) :
  scanH264 au c r ra = Done (c', r', ra') ->
  h264SPS c' = lastWith h264IsSPS au (h264SPS c) /\
  h264PPS c' = lastWith h264IsPPS au (h264PPS c) /\
  h264DTSExtractor c' = h264DTSExtractor c.
Proof. intros (He & _ & Hs & Hp)%scanH264_result. done. Qed.

(** X8. An access unit closes at most one segment, however many
    parameter sets it changes: after the loop the agent is as before, or
    its current segment has been closed and cleared once; and when the
    stored parameter sets have changed, the agent is as [updateCodecs]
    leaves it. *)
Theorem scanH264_rotates_once (au : list (list Byte.byte))
    (c c' : h264Reader) (r r' : agent) (ra ra' : bool) :
  scanH264 au c r ra = Done (c', r', ra') ->
  (r' = r \/
   exists seg, currentSegment r = Some seg /\ is_Some (f seg) /\
     r' = {| currentSegment := None;
             closedSegments := seg :: closedSegments r |}) /\
  (c' <> c -> r' = updateCodecs r).
Proof.
  intros Hscan. apply scanH264_agent in Hscan as [[-> ->]| ->].
  - split; [by left|done].
  - split; [|done]. unfold updateCodecs.
    destruct (currentSegment r) as [seg|] eqn:Hseg; [|by left].
    destruct (f seg) as [fd|] eqn:Hf; [|by left].
    right. exists seg. split; [done|]. split; [by eexists|done].
Qed.

(** X9. The loop over an access unit panics exactly when the unit holds
    an empty NAL unit: [nalu[0]] is read without a check of the length. *)
Theorem scanH264_panics_on_empty_nalu (au : list (list Byte.byte))
    (c : h264Reader) (r : agent) (ra : bool) :
  scanH264 au c r ra = Panic <-> [] ∈ au.
Proof.
  revert c r ra. induction au as [|nalu au IH]; intros c r ra; simpl.
  - split; [done|]. by intros ?%elem_of_nil.
  - rewrite elem_of_cons. destruct nalu as [|b nalu]; simpl.
    + split; [by left|done].
    + repeat case_match; rewrite IH; split; try (by right);
        by intros [[=]|?].
Qed.

(** X10. Recording starts at a key frame.  While the reader has no DTS
    extractor, an access unit without IDR NAL unit records nothing: the
    callback returns nil with the reader and the agent as the loop over
    the NAL units leaves them, so parameter sets are still taken over.
    An access unit with an IDR NAL unit creates the extractor and goes
    on to extract the DTS and to record. *)
Theorem onUnitH264_waits_for_idr (c : h264Reader) (r : agent)
    (au : list (list Byte.byte)) (pts : Z) :
  h264DTSExtractor c = None ->
  onUnitH264 c r (Some au) pts
  = match scanH264 au c r false with
    | Panic => Panic
    | Done (c1, r1, _) =>
        if existsb h264IsIDR au then
          let '(d', r2, res) := recordH26x au pts true NewDTSExtractor r1 in
          Done (setH264DTSExtractor d' c1, r2, res)
        else Done (c1, r1, None)
    end.
Proof.
  intros Hnone. unfold onUnitH264.
  destruct (scanH264 au c r false) as [[[c1 r1] ra]|] eqn:Hscan; [|done].
  apply scanH264_result in Hscan as (He & -> & _ & _).
  rewrite He, Hnone. simpl. by destruct (existsb h264IsIDR au).
Qed.

(** ** Access units of H.265 *)

Definition h265IsVPS (nalu : list Byte.byte) : bool :=
  match h265NALUType nalu with
  | Some typ => (typ =? NALUType_VPS_NUT)%Z
  | None => false
  end.

Definition h265IsSPS (nalu : list Byte.byte) : bool :=
  match h265NALUType nalu with
  | Some typ => negb (typ =? NALUType_VPS_NUT)%Z && (typ =? NALUType_SPS_NUT)%Z
  | None => false
  end.

Definition h265IsPPS (nalu : list Byte.byte) : bool :=
  match h265NALUType nalu with
  | Some typ =>
      negb (typ =? NALUType_VPS_NUT)%Z && negb (typ =? NALUType_SPS_NUT)%Z
      && (typ =? NALUType_PPS_NUT)%Z
  | None => false
  end.

(** The NAL units that set [randomAccess]: the fourth case of the
    [switch]. *)
Definition h265IsRandomAccess (nalu : list Byte.byte) : bool :=
  match h265NALUType nalu with
  | Some typ =>
      negb (typ =? NALUType_VPS_NUT)%Z && negb (typ =? NALUType_SPS_NUT)%Z
      && negb (typ =? NALUType_PPS_NUT)%Z
      && ((typ =? NALUType_IDR_W_RADL)%Z || (typ =? NALUType_IDR_N_LP)%Z
          || (typ =? NALUType_CRA_NUT)%Z)
  | None => false
  end.

Lemma scanH265_result (au : list (list Byte.byte))
    (c c' : h265Reader) (r r' : agent) (ra ra' : bool) :
  scanH265 au c r ra = Done (c', r', ra') ->
  h265VPS c' = lastWith h265IsVPS au (h265VPS c) /\
  h265SPS c' = lastWith h265IsSPS au (h265SPS c) /\
  h265PPS c' = lastWith h265IsPPS au (h265PPS c) /\
  h265DTSExtractor c' = h265DTSExtractor c /\
  ra' = ra || existsb h265IsRandomAccess au.
Proof.
  revert c r ra. induction au as [|nalu au IH]; intros c r ra.
  - simpl. intros [= <- <- <-]. by rewrite orb_false_r.
  - rewrite !lastWith_cons. simpl.
    destruct (h265NALUType nalu) as [typ|] eqn:Hty; [|done].
    assert (HV : h265IsVPS nalu = (typ =? NALUType_VPS_NUT)%Z)
      by (unfold h265IsVPS; by rewrite Hty).
    assert (HS : h265IsSPS nalu
                 = negb (typ =? NALUType_VPS_NUT)%Z
                   && (typ =? NALUType_SPS_NUT)%Z)
      by (unfold h265IsSPS; by rewrite Hty).
    assert (HP : h265IsPPS nalu
                 = negb (typ =? NALUType_VPS_NUT)%Z
                   && negb (typ =? NALUType_SPS_NUT)%Z
                   && (typ =? NALUType_PPS_NUT)%Z)
      by (unfold h265IsPPS; by rewrite Hty).
    assert (HI : h265IsRandomAccess nalu
                 = negb (typ =? NALUType_VPS_NUT)%Z
                   && negb (typ =? NALUType_SPS_NUT)%Z
                   && negb (typ =? NALUType_PPS_NUT)%Z
                   && ((typ =? NALUType_IDR_W_RADL)%Z
                       || (typ =? NALUType_IDR_N_LP)%Z
                       || (typ =? NALUType_CRA_NUT)%Z))
      by (unfold h265IsRandomAccess; by rewrite Hty).
    rewrite HV, HS, HP, HI. clear HV HS HP HI.
    destruct (typ =? NALUType_VPS_NUT)%Z; simpl.
    { case_bool_decide as Hne; intros (Hv & Hs & Hp & He & Hra)%IH;
        simpl in *; [done|].
      assert (h265VPS c = nalu) as <-; [|done].
      destruct (decide (h265VPS c = nalu)); [done|]. by destruct Hne. }
    destruct (typ =? NALUType_SPS_NUT)%Z; simpl.
    { case_bool_decide as Hne; intros (Hv & Hs & Hp & He & Hra)%IH;
        simpl in *; [done|].
      assert (h265SPS c = nalu) as <-; [|done].
      destruct (decide (h265SPS c = nalu)); [done|]. by destruct Hne. }
    destruct (typ =? NALUType_PPS_NUT)%Z; simpl.
    { case_bool_decide as Hne; intros (Hv & Hs & Hp & He & Hra)%IH;
        simpl in *; [done|].
      assert (h265PPS c = nalu) as <-; [|done].
      destruct (decide (h265PPS c = nalu)); [done|]. by destruct Hne. }
    destruct ((typ =? NALUType_IDR_W_RADL)%Z || (typ =? NALUType_IDR_N_LP)%Z
              || (typ =? NALUType_CRA_NUT)%Z); simpl;
      intros (Hv & Hs & Hp & He & Hra)%IH; [|done].
    rewrite orb_true_r. by rewrite orb_true_l in Hra.
Qed.


(** X11. After the loop over an access unit of H.265 the stored VPS, SPS
    and PPS are the last NAL units of their type in the unit, each
    unchanged when the unit has none; the DTS extractor is not touched,
    and the unit is a random access point exactly when the flag was set
    before or the unit holds an IDR_W_RADL, IDR_N_LP or CRA NAL unit. *)
Theorem scanH265_last_parameter_sets (au : list (list Byte.byte))
    (c c' : h265Reader) (r r' : agent) (ra ra' : bool) :
  scanH265 au c r ra = Done (c', r', ra') ->
  h265VPS c' = lastWith h265IsVPS au (h265VPS c) /\
  h265SPS c' = lastWith h265IsSPS au (h265SPS c) /\
  h265PPS c' = lastWith h265IsPPS au (h265PPS c) /\
  h265DTSExtractor c' = h265DTSExtractor c /\
  ra' = ra || existsb h265IsRandomAccess au.
Proof. apply scanH265_result. Qed.

(** ** M-JPEG *)

(** X12. The size of an M-JPEG format is read once.  After any call of
    the block that returns, whether the size could be read or not, every
    later frame leaves the stored size and the agent as they are. *)
Theorem mjpegParse_once (c c' : mjpegReader) (r r' r'' : agent)
    (frame frame' : list Byte.byte) (res : option error) :
  mjpegParse c r frame = Done (c', r', res) ->
  mjpegParse c' r'' frame' = Done (c', r'', None).
Proof.
  unfold mjpegParse at 1. intros Hrun.
  assert (Hp : parsed c' = true).
  { destruct (parsed c) eqn:Hpc; simpl in Hrun.
    - by injection Hrun as <- _ _.
    - destruct (jpegExtractSize frame) as [[w h|e|]|]; try done;
        by injection Hrun as <- _ _. }
  unfold mjpegParse. by rewrite Hp.
Qed.

(** ** Parameters in the stream: replaced, then rotated, then recorded *)

















End WithLibraries.

(** ** Where the claim fails as stated *)

(** An SPS that differs from the built-in one. *)
Definition otherSPS : list Byte.byte := [Byte.x67; Byte.x64; Byte.x00; Byte.x28].


(** The same access unit when the segment is on disk: it is closed. *)
Example segment_rotated_on_disk :
  scanH264 7 8 5 (DTSExtractor := unit) [otherSPS]
    {| h264SPS := defaultH264SPS; h264PPS := defaultH264PPS;
       h264DTSExtractor := None |}
    {| currentSegment := Some {| f := Some 3%positive |}; closedSegments := [] |}
    false
  = Done ({| h264SPS := otherSPS; h264PPS := defaultH264PPS;
             h264DTSExtractor := None |},
          {| currentSegment := None;
             closedSegments := [ {| f := Some 3%positive |} ] |},
          false).
Proof. reflexivity. Qed.

(** VP9: the stored size is the built-in 1280 x 720 and a key frame
    announces 1280 x 1080.  The stored height becomes the width of the
    frame, 1280. *)
Example vp9_height_takes_width :
  vp9KeyFrame
    {| isKeyFrame := true; hdrWidth := 1280; hdrHeight := 1080;
       hdrProfile := 1; hdrBitDepth := 8; hdrChromaSubsampling := 1;
       hdrColorRange := false |}
    {| vp9Width := 1280; vp9Height := 720; vp9Profile := 1; vp9BitDepth := 8;
       vp9ChromaSubsampling := 1; vp9ColorRange := false;
       vp9FirstReceived := false |}
    {| currentSegment := None; closedSegments := [] |}
  = ({| vp9Width := 1280; vp9Height := 1280; vp9Profile := 1; vp9BitDepth := 8;
        vp9ChromaSubsampling := 1; vp9ColorRange := false;
        vp9FirstReceived := false |},
     {| currentSegment := None; closedSegments := [] |}).
Proof. reflexivity. Qed.

(** ** Witnesses for the access units *)

(** A reader of H.264 with the built-in parameter sets and no DTS
    extractor, and an agent without segment. *)
Definition freshH264Reader : @h264Reader unit :=
  {| h264SPS := defaultH264SPS; h264PPS := defaultH264PPS;
     h264DTSExtractor := None |}.

Definition idleAgent : agent :=
  {| currentSegment := None; closedSegments := [] |}.

Definition diskAgent : agent :=
  {| currentSegment := Some {| f := Some 3%positive |}; closedSegments := [] |}.

(** Witness of X7: an access unit with one new SPS. *)
Lemma scanH264_last_parameter_sets_witness :
  lastWith (h264IsSPS 7) [otherSPS] defaultH264SPS = otherSPS /\
  lastWith (h264IsPPS 7 8) [otherSPS] defaultH264PPS = defaultH264PPS.
Proof.
  destruct (scanH264_last_parameter_sets 7 8 5 [otherSPS] freshH264Reader
              {| h264SPS := otherSPS; h264PPS := defaultH264PPS;
                 h264DTSExtractor := None |}
              idleAgent idleAgent false false eq_refl) as (Hs & Hp & _).
  split; [exact (eq_sym Hs)|exact (eq_sym Hp)].
Defined.

(** Witness of X8: a new SPS and a new PPS in one access unit, the
    segment on disk is closed once. *)
Lemma scanH264_rotates_once_witness :
  ({| currentSegment := None;
      closedSegments := [ {| f := Some 3%positive |} ] |} = diskAgent \/
   exists seg, currentSegment diskAgent = Some seg /\ is_Some (f seg) /\
     {| currentSegment := None;
        closedSegments := [ {| f := Some 3%positive |} ] |}
     = {| currentSegment := None;
          closedSegments := seg :: closedSegments diskAgent |}) /\
  ({| h264SPS := otherSPS; h264PPS := [Byte.x68; Byte.x01];
      h264DTSExtractor := None |} <> freshH264Reader ->
   {| currentSegment := None;
      closedSegments := [ {| f := Some 3%positive |} ] |}
   = updateCodecs diskAgent).
Proof.
  exact (scanH264_rotates_once 7 8 5 [otherSPS; [Byte.x68; Byte.x01]]
           freshH264Reader
           {| h264SPS := otherSPS; h264PPS := [Byte.x68; Byte.x01];
              h264DTSExtractor := None |}
           diskAgent
           {| currentSegment := None;
              closedSegments := [ {| f := Some 3%positive |} ] |}
           false false eq_refl).
Defined.

(** Witness of X10: the access unit with the new SPS has no IDR NAL
    unit; the extractor, the constructor of samples and [track.record]
    of the witness never fail. *)
Lemma onUnitH264_waits_for_idr_witness :
  onUnitH264 7 8 5 tt (fun d _ pts => (d, inl pts))
    (fun _ ra au => inl {| IsNonSyncSample := negb ra; Payload := concat au |})
    (fun _ _ r => (r, None)) freshH264Reader idleAgent (Some [otherSPS]) 0
  = Done ({| h264SPS := otherSPS; h264PPS := defaultH264PPS;
             h264DTSExtractor := None |}, idleAgent, None).
Proof.
  rewrite (onUnitH264_waits_for_idr 7 8 5 tt (fun d _ pts => (d, inl pts))
             (fun _ ra au => inl {| IsNonSyncSample := negb ra; Payload := concat au |})
             (fun _ _ r => (r, None)) freshH264Reader idleAgent [otherSPS] 0 eq_refl).
  reflexivity.
Defined.

(** Witness of X12: the first frame cannot be read, the second one is
    the frame of 640 x 480. *)
Lemma mjpegParse_once_witness :
  mjpegParse Jpeg.jpegSize
    {| mjpegWidth := 800; mjpegHeight := 600; parsed := true |} diskAgent
    Jpeg.frame640x480
  = Done ({| mjpegWidth := 800; mjpegHeight := 600; parsed := true |},
          diskAgent, None).
Proof.
  apply (mjpegParse_once Jpeg.jpegSize
           {| mjpegWidth := 800; mjpegHeight := 600; parsed := false |}
           {| mjpegWidth := 800; mjpegHeight := 600; parsed := true |}
           idleAgent idleAgent diskAgent [Byte.xff] Jpeg.frame640x480
           (Some "invalid header")).
  reflexivity.
Defined.

(** Witness of X11: a VPS and a CRA NAL unit, with the NAL unit types
    32, 33, 34, 19, 20 and 21 of H.265. *)
Lemma scanH265_last_parameter_sets_witness :
  lastWith (h265IsVPS 32) [[Byte.x40; Byte.x01]; [Byte.x2a; Byte.x01]]
    defaultH265VPS = [Byte.x40; Byte.x01] /\
  existsb (h265IsRandomAccess 32 33 34 19 20 21)
    [[Byte.x40; Byte.x01]; [Byte.x2a; Byte.x01]] = true.
Proof.
  destruct (scanH265_last_parameter_sets 32 33 34 19 20 21
              (DTSExtractor := unit)
              [[Byte.x40; Byte.x01]; [Byte.x2a; Byte.x01]]
              {| h265VPS := defaultH265VPS; h265SPS := defaultH265SPS;
                 h265PPS := defaultH265PPS; h265DTSExtractor := None |}
              {| h265VPS := [Byte.x40; Byte.x01]; h265SPS := defaultH265SPS;
                 h265PPS := defaultH265PPS; h265DTSExtractor := None |}
              idleAgent idleAgent false true eq_refl)
    as (Hv & _ & _ & _ & Hra).
  split; [exact (eq_sym Hv)|exact (eq_sym Hra)].
Defined.

(** ** Key frames of VP9 *)

(** X13. After the block for key frames the stored width, profile, bit
    depth, chroma subsampling and colour range are those of the frame,
    and the stored height is the width of the frame, whatever its height
    is: the second [if] reads [h.Width()].  The agent is as before when
    no stored value has changed and as [updateCodecs] leaves it
    otherwise, so a key frame closes at most one segment. *)
Theorem vp9KeyFrame_stores_header (h : vp9Header) (c : vp9Reader) (r : agent) :
  vp9Width (vp9KeyFrame h c r).1 = hdrWidth h /\
  vp9Height (vp9KeyFrame h c r).1 = hdrWidth h /\
  vp9Profile (vp9KeyFrame h c r).1 = hdrProfile h /\
  vp9BitDepth (vp9KeyFrame h c r).1 = hdrBitDepth h /\
  vp9ChromaSubsampling (vp9KeyFrame h c r).1 = hdrChromaSubsampling h /\
  vp9ColorRange (vp9KeyFrame h c r).1 = hdrColorRange h /\
  vp9FirstReceived (vp9KeyFrame h c r).1 = vp9FirstReceived c /\
  ((vp9KeyFrame h c r).1 = c -> (vp9KeyFrame h c r).2 = r) /\
  ((vp9KeyFrame h c r).1 <> c -> (vp9KeyFrame h c r).2 = updateCodecs r).
Proof. apply vp9KeyFrame_fields. Qed.

(** ** [durationGoToMp4] on durations that are not negative *)

(** X14. For a duration that is not negative, [durationGoToMp4] is the
    exact quotient [v * timeScale / 10^9], although the product may
    exceed 64 bits: the split into seconds and the rest keeps every
    intermediate value in range whenever the number of seconds, plus
    one, times the time scale is below 2^64. *)
Theorem durationGoToMp4_exact (v timeScale : Z) :
  0 <= v < 2 ^ 63 -> 0 <= timeScale < 2 ^ 32 ->
  (v / second + 1) * timeScale < 2 ^ 64 ->
  durationGoToMp4 v timeScale = v * timeScale / second.
Proof.
  intros Hv Hts Hrange. unfold durationGoToMp4, uint64, second in *.
  rewrite Z.quot_div_nonneg, Z.rem_mod_nonneg by lia.
  assert (Hdec : 0 <= v mod 1000000000 < 1000000000)
    by (apply Z.mod_pos_bound; lia).
  assert (Hsecs : 0 <= v / 1000000000 < 2 ^ 63).
  { split; [apply Z.div_pos; lia|apply Z.div_lt_upper_bound; lia]. }
  pose proof (Z.div_mod v 1000000000 ltac:(lia)) as Hsplit.
  revert Hrange Hdec Hsecs Hsplit.
  generalize (v / 1000000000) (v mod 1000000000). intros secs dec.
  intros Hrange Hdec Hsecs ->.
  rewrite (Z.mod_small timeScale) by lia.
  rewrite (Z.mod_small secs) by lia.
  rewrite (Z.mod_small dec) by lia.
  rewrite (Z.mod_small (secs * timeScale)) by nia.
  rewrite (Z.mod_small (dec * timeScale)) by nia.
  rewrite (Z.mod_small 1000000000) by lia.
  destruct (Z.eq_dec timeScale 0) as [->|Hnz].
  { rewrite !Z.mul_0_r. done. }
  assert (Hq : 0 <= dec * timeScale / 1000000000 < timeScale).
  { split; [apply Z.div_pos; nia|].
    apply Z.div_lt_upper_bound; nia. }
  rewrite Z.mod_small by nia.
  replace ((1000000000 * secs + dec) * timeScale)
    with (secs * timeScale * 1000000000 + dec * timeScale) by ring.
  rewrite Z.div_add_l by lia. done.
Qed.

(** Witness of X14: 2^62 ns at 90 kHz; the product has more than 64
    bits. *)
Lemma durationGoToMp4_exact_witness :
  2 ^ 64 < 2 ^ 62 * 90000 /\
  durationGoToMp4 (2 ^ 62) 90000 = 2 ^ 62 * 90000 / second.
Proof.
  split; [lia|].
  apply (durationGoToMp4_exact (2 ^ 62) 90000); [lia|lia|reflexivity].
Defined.

(** X15. A negative duration of less than a second is not converted to
    a negative number of ticks: its seconds are 0 and its rest is
    converted to uint64 before the multiplication, so the result is
    [(2^64 + v * timeScale) / 10^9], above 1.4 * 10^10. *)
Theorem durationGoToMp4_negative (v timeScale : Z) :
  - second < v < 0 -> 0 < timeScale < 2 ^ 32 ->
  durationGoToMp4 v timeScale = (2 ^ 64 + v * timeScale) / second /\
  14000000000 < durationGoToMp4 v timeScale.
Proof.
  intros Hv Hts. unfold durationGoToMp4, uint64, second in *.
  assert (Hq : Z.quot v 1000000000 = 0).
  { apply Z.quot_small_iff; lia. }
  assert (Hr : Z.rem v 1000000000 = v).
  { pose proof (Z.quot_rem' v 1000000000). lia. }
  rewrite Hq, Hr. rewrite (Z.mod_small timeScale) by lia.
  rewrite (Z.mod_0_l (2 ^ 64)) by lia. rewrite Z.mul_0_l.
  rewrite (Z.mod_0_l (2 ^ 64)) by lia. rewrite Z.add_0_l.
  rewrite (Z.mod_small 1000000000) by lia.
  rewrite Z.mul_mod_idemp_l by lia.
  assert (Hm : (v * timeScale) mod 2 ^ 64 = 2 ^ 64 + v * timeScale).
  { symmetry. apply (Z.mod_unique _ _ (-1)); nia. }
  rewrite Hm.
  assert (Hlo : 14000000000 < (2 ^ 64 + v * timeScale) / 1000000000).
  { assert (14000000001 <= (2 ^ 64 + v * timeScale) / 1000000000); [|lia].
    apply Z.div_le_lower_bound; nia. }
  assert (Hhi : (2 ^ 64 + v * timeScale) / 1000000000 < 2 ^ 64).
  { apply Z.div_lt_upper_bound; nia. }
  rewrite Z.mod_small by lia. done.
Qed.

(** Witness of X15: one nanosecond before zero at 90 kHz. *)
Lemma durationGoToMp4_negative_witness :
  durationGoToMp4 (-1) 90000 = 18446744073.
Proof.
  destruct (durationGoToMp4_negative (-1) 90000) as [-> _];
    unfold second; [lia|lia|reflexivity].
Defined.

(** ** The tracks of [NewAgent] *)

(** fmp4.InitTrack with the fields that [addTrack] sets. *)
Record InitTrack (audioConfig : Type) := {
  ID : Z;
  TimeScale : Z;
  TrackCodec : Codec audioConfig;
}.
Arguments ID {audioConfig} _.
Arguments TimeScale {audioConfig} _.
Arguments TrackCodec {audioConfig} _.

(** The loop over the formats of a media: [addTrack] for every format
    that gets a codec; the next identifier and the tracks so far are the
    state, [None] is a panic. *)
Fixpoint addTracks {audioConfig : Type} (formats : list (Format audioConfig))
    (nextID : Z) (tracks : list (InitTrack audioConfig))
  : option (Z * list (InitTrack audioConfig)) :=
  match formats with
  | [] => Some (nextID, tracks)
  | forma :: formats' =>
      match initialCodec forma with
      | Track codec =>
          addTracks formats' (nextID + 1)
            (tracks ++ [ {| ID := nextID; TimeScale := 90000;
                            TrackCodec := codec |} ])%list
      | NoTrack => addTracks formats' nextID tracks
      | NilPanic => None
      end
  end.

(** The loop over the medias of the description. *)
Fixpoint addMedias {audioConfig : Type}
    (medias : list (list (Format audioConfig))) (nextID : Z)
    (tracks : list (InitTrack audioConfig))
  : option (Z * list (InitTrack audioConfig)) :=
  match medias with
  | [] => Some (nextID, tracks)
  | formats :: medias' =>
      match addTracks formats nextID tracks with
      | Some (nextID', tracks') => addMedias medias' nextID' tracks'
      | None => None
      end
  end.

(** The tracks of an agent for a description: identifiers start at 1. *)
Definition agentTracks {audioConfig : Type}
    (medias : list (list (Format audioConfig)))
  : option (list (InitTrack audioConfig)) :=
  snd <$> addMedias medias 1 [].

(** The codecs of the formats that are recorded, in order. *)
Definition recordedCodecs {audioConfig : Type}
    (formats : list (Format audioConfig)) : list (Codec audioConfig) :=
  omap (fun forma => match initialCodec forma with
                     | Track codec => Some codec
                     | _ => None
                     end) formats.

Lemma addTracks_spec {A : Type} (formats : list (Format A)) (n n' : Z)
    (ts ts' : list (InitTrack A)) :
  addTracks formats n ts = Some (n', ts') ->
  n <= n' /\
  map ID ts' = (map ID ts ++ seqZ n (n' - n))%list /\
  map TimeScale ts'
  = (map TimeScale ts ++ replicate (Z.to_nat (n' - n)) 90000)%list /\
  map TrackCodec ts' = (map TrackCodec ts ++ recordedCodecs formats)%list.
Proof.
  revert n ts. induction formats as [|forma formats IH]; intros n ts; simpl.
  - intros [= <- <-]. rewrite Z.sub_diag. simpl. by rewrite !app_nil_r.
  - unfold recordedCodecs. simpl. fold (recordedCodecs formats).
    destruct (initialCodec forma) as [codec| |]; [| |done].
    + intros (Hle & Hid & Hts & Hc)%IH. rewrite !map_app in *. simpl in *.
      rewrite <- !app_assoc in *. simpl in *.
      split; [lia|]. split; [|split; [|done]].
      * rewrite Hid. f_equal.
        replace (n' - n) with (1 + (n' - (n + 1))) by lia.
        rewrite seqZ_app by lia. change (seqZ n 1) with [n]. simpl.
        do 2 f_equal; lia.
      * rewrite Hts. f_equal.
        replace (Z.to_nat (n' - n)) with (S (Z.to_nat (n' - (n + 1)))) by lia.
        done.
    + intros H0. by apply IH in H0.
Qed.

Lemma addMedias_spec {A : Type} (medias : list (list (Format A))) (n n' : Z)
    (ts ts' : list (InitTrack A)) :
  addMedias medias n ts = Some (n', ts') ->
  n <= n' /\
  map ID ts' = (map ID ts ++ seqZ n (n' - n))%list /\
  map TimeScale ts'
  = (map TimeScale ts ++ replicate (Z.to_nat (n' - n)) 90000)%list /\
  map TrackCodec ts' = (map TrackCodec ts ++ recordedCodecs (concat medias))%list.
Proof.
  revert n ts. induction medias as [|formats medias IH]; intros n ts; simpl.
  - intros [= <- <-]. rewrite Z.sub_diag. simpl. by rewrite !app_nil_r.
  - destruct (addTracks formats n ts) as [[n1 ts1]|] eqn:Hadd; [|done].
    apply addTracks_spec in Hadd as (Hle1 & Hid1 & Hts1 & Hc1).
    intros (Hle & Hid & Hts & Hc)%IH.
    split; [lia|]. split; [|split].
    + rewrite Hid, Hid1, <- app_assoc. f_equal.
      replace (n' - n) with ((n1 - n) + (n' - n1)) by lia.
      rewrite seqZ_app by lia. do 2 f_equal. lia.
    + rewrite Hts, Hts1, <- app_assoc. f_equal.
      replace (Z.to_nat (n' - n))
        with (Z.to_nat (n1 - n) + Z.to_nat (n' - n1))%nat by lia.
      by rewrite replicate_add.
    + rewrite Hc, Hc1, <- app_assoc. f_equal.
      unfold recordedCodecs. by rewrite omap_app.
Qed.

(** X16. The tracks of an agent: their identifiers are 1, 2, ... in the
    order of the description, their time scale is 90000, and their
    codecs are those of the formats that are recorded; a format that is
    not recorded takes no identifier. *)
Theorem agentTracks_numbered {A : Type} (medias : list (list (Format A)))
    (tracks : list (InitTrack A)) :
  agentTracks medias = Some tracks ->
  map ID tracks = seqZ 1 (Z.of_nat (length tracks)) /\
  Forall (fun t => TimeScale t = 90000) tracks /\
  map TrackCodec tracks = recordedCodecs (concat medias).
Proof.
  unfold agentTracks.
  destruct (addMedias medias 1 []) as [[n ts]|] eqn:Hadd; [|done].
  simpl. intros [= ->].
  apply addMedias_spec in Hadd as (Hle & Hid & Hts & Hc). simpl in *.
  assert (Hlen : length tracks = Z.to_nat (n - 1)).
  { rewrite <- (length_map ID), Hid, length_seqZ. done. }
  split; [|split; [|done]].
  - rewrite Hid. f_equal. lia.
  - apply Forall_forall. intros t Ht.
    assert (Hin : TimeScale t ∈ map TimeScale tracks).
    { apply list_elem_of_fmap. by exists t. }
    rewrite Hts in Hin. by apply elem_of_replicate in Hin as [-> _].
Qed.

(** Witness of X16: H.264 video, VP8 video and Opus audio; VP8 is not
    recorded and Opus gets the identifier 2. *)
Lemma agentTracks_numbered_witness :
  map ID [ {| ID := 1; TimeScale := 90000;
              TrackCodec := @CodecH264 unit defaultH264SPS defaultH264PPS |};
           {| ID := 2; TimeScale := 90000; TrackCodec := CodecOpus 2 |} ]
  = seqZ 1 2.
Proof.
  apply (agentTracks_numbered
           [[FormatH264 None None]; [FormatVP8]; [FormatOpus true]]
           [ {| ID := 1; TimeScale := 90000;
                TrackCodec := @CodecH264 unit defaultH264SPS defaultH264PPS |};
             {| ID := 2; TimeScale := 90000; TrackCodec := CodecOpus 2 |} ]).
  reflexivity.
Defined.

End Recorder.

(* ===================================================================== *)
(** * External commands: [externalcmd.Cmd.run]                            *)
(* ===================================================================== *)

Module Externalcmd.

(** [time.Second] and [restartPause], in nanoseconds. *)
Definition Second : Z := 1000000000.
Definition restartPause : Z := 5 * Second.

(** What [runOSSpecific] returns: [errTerminated], or the outcome of a
    command that exited by itself ([None] is nil: exit code 0). *)
Inductive exit :=
| Terminated
| Exited (err : option error).

(** Which case of the [select] after an exit is taken. *)
Inductive wake :=
| TimerFired
| TerminateClosed.

(** One iteration as the environment decides it: how the command ends,
    and what ends the pause that follows. *)
Definition round := (exit * wake)%type.

Inductive event :=
| EvRun
| EvOnExit (e : error)
| EvPause (d : Z).

#[export] Instance event_eq_dec : EqDecision event.
Proof. solve_decision. Defined.

Definition errExitZero : error := "command exited with code 0".

(** The error passed to [onExit] when the command restarts. *)
Definition exitError (err : option error) : error :=
  match err with
  | Some e => e
  | None => errExitZero
  end.

(** [Cmd.run] on the rounds the environment provides: the events, and
    whether the function has returned ([false]: the command of the next
    round is still to end). *)
Fixpoint run (restart : bool) (script : list round) : list event * bool :=
  match script with
  | [] => ([], false)
  | (x, w) :: script' =>
      match x with
      | Terminated => ([EvRun], true)
      | Exited err =>
          if negb restart then
            match err with
            | Some e => ([EvRun; EvOnExit e], true)
            | None => ([EvRun], true)
            end
          else
            match w with
            | TimerFired =>
                let '(evs, ret) := run restart script' in
                (EvRun :: EvOnExit (exitError err) :: EvPause restartPause :: evs,
                 ret)
            | TerminateClosed => ([EvRun; EvOnExit (exitError err)], true)
            end
      end
  end.

Definition isOnExit (e : event) : bool :=
  match e with EvOnExit _ => true | _ => false end.

Definition isRun (e : event) : bool :=
  match e with EvRun => true | _ => false end.

(** The command ends by itself and the pause runs its full time. *)
Definition restarts (r : round) : Prop :=
  exists err, r = (Exited err, TimerFired).

(** The rounds that [run] goes through: up to the first one that makes
    it return. *)
Fixpoint executed (restart : bool) (script : list round) : list round :=
  match script with
  | [] => []
  | (x, w) :: script' =>
      match x, w with
      | Exited _, TimerFired =>
          if restart then (x, w) :: executed restart script' else [(x, w)]
      | _, _ => [(x, w)]
      end
  end.

Definition exitedByItself (r : round) : bool :=
  match r.1 with Exited _ => true | Terminated => false end.

(** ** Properties *)

(** With restart, [run] returns only on termination: some round ends by
    termination, during the command or during the pause, and all rounds
    before it restart the command. *)
Lemma run_restart_returns (script : list round) :
  (run true script).2 = true ->
  exists pre x w post, script = (pre ++ (x, w) :: post)%list /\
    Forall restarts pre /\ (x = Terminated \/ w = TerminateClosed).
Proof.
  induction script as [|[x w] script IH]; simpl; [done|].
  destruct x as [|err].
  - intros _. exists [], Terminated, w, script. eauto.
  - destruct w.
    + destruct (run true script) as [evs ret] eqn:Hrun. simpl. intros ->.
      destruct (IH eq_refl) as (pre & x & w & post & -> & Hpre & Hterm).
      exists ((Exited err, TimerFired) :: pre), x, w, post.
      split; [done|]. split; [|done]. constructor; [by eexists|done].
    + intros _. exists [], (Exited err), TerminateClosed, script. eauto.
Qed.

(** [onExit] is called once for every round in which the command ended
    by itself, when restart is enabled. *)
Lemma run_restart_onExit_count (script : list round) :
  length (List.filter isOnExit (run true script).1)
  = length (List.filter exitedByItself (executed true script)).
Proof.
  induction script as [|[x w] script IH]; simpl; [done|].
  destruct x as [|err]; [done|]. destruct w; [|done].
  destruct (run true script) as [evs ret]. simpl in *.
  by rewrite IH.
Qed.

(** Every run of the command after the first one follows a pause of
    [restartPause] that follows a call of [onExit]. *)
Lemma run_restart_pause (script : list round) (l1 l2 : list event) :
  (run true script).1 = (l1 ++ EvRun :: l2)%list -> l1 <> [] ->
  exists l0 e, l1 = (l0 ++ [EvOnExit e; EvPause restartPause])%list.
Proof.
  revert l1. induction script as [|[x w] script IH]; intros l1; simpl.
  - by destruct l1.
  - destruct x as [|err].
    + destruct l1 as [|a [|b l1]]; [done| |]; simpl; intros [=]; by destruct l1.
    + destruct w.
      * destruct (run true script) as [evs ret] eqn:Hrun. simpl in *.
        destruct l1 as [|a l1]; [done|]. intros [= <- Heq] _.
        destruct l1 as [|b l1]; [done|]. injection Heq as <- Heq.
        destruct l1 as [|c l1]; [done|]. injection Heq as <- Heq.
        destruct l1 as [|d l1].
        -- exists [EvRun], (exitError err). done.
        -- destruct (IH (d :: l1) Heq) as (l0 & e & Hl0); [done|].
           exists (EvRun :: EvOnExit (exitError err) :: EvPause restartPause :: l0), e.
           simpl. by rewrite Hl0.
      * destruct l1 as [|a [|b l1]]; [done| |]; simpl; intros [=];
          by destruct l1.
Qed.

(** Without restart, [run] returns after the first round with at most
    one call of [onExit]. *)
Lemma run_once (x : exit) (w : wake) (script : list round) :
  (run false ((x, w) :: script)).2 = true /\
  (length (List.filter isOnExit (run false ((x, w) :: script)).1)
   <= 1)%nat /\
  length (List.filter isRun (run false ((x, w) :: script)).1)
  = 1%nat.
Proof. destruct x as [|[e|]]; simpl; repeat split; done || lia. Qed.

(** C8. With restart: a command that exits by itself makes [run] call
    [onExit] once, with the error of the command or with the error
    "command exited with code 0", and then pause for [restartPause] = 5 s
    before the command runs again; [run] returns only when a round ends
    by termination.  Without restart: [run] returns after the first
    exit and calls [onExit] only for an error that is not nil.  An exit
    by termination calls [onExit] in neither mode. *)
Theorem run_restarts_until_terminated :
  restartPause = 5 * Second /\
  (forall err script,
     run true ((Exited err, TimerFired) :: script)
     = (EvRun :: EvOnExit (exitError err) :: EvPause restartPause
          :: (run true script).1,
        (run true script).2)) /\
  (forall err script,
     run true ((Exited err, TerminateClosed) :: script)
     = ([EvRun; EvOnExit (exitError err)], true)) /\
  exitError None = errExitZero /\
  (forall e, exitError (Some e) = e) /\
  (forall script, (run true script).2 = true ->
     exists pre x w post, script = (pre ++ (x, w) :: post)%list /\
       Forall restarts pre /\ (x = Terminated \/ w = TerminateClosed)) /\
  (forall script,
     length (List.filter isOnExit (run true script).1)
     = length (List.filter exitedByItself (executed true script))) /\
  (forall script l1 l2,
     (run true script).1 = (l1 ++ EvRun :: l2)%list -> l1 <> [] ->
     exists l0 e, l1 = (l0 ++ [EvOnExit e; EvPause restartPause])%list) /\
  (forall e w script,
     run false ((Exited (Some e), w) :: script) = ([EvRun; EvOnExit e], true)) /\
  (forall w script,
     run false ((Exited None, w) :: script) = ([EvRun], true)) /\
  (forall restart w script,
     run restart ((Terminated, w) :: script) = ([EvRun], true)).
Proof.
  split; [done|]. split.
  { intros err script. simpl. by destruct (run true script). }
  split; [done|]. split; [done|]. split; [done|].
  split; [apply run_restart_returns|].
  split; [apply run_restart_onExit_count|].
  split; [apply run_restart_pause|].
  repeat split; done.
Qed.

(** A command that fails, then exits with code 0, then is terminated
    during its third run. *)
Example run_three_rounds :
  run true [(Exited (Some "exit status 1"), TimerFired);
            (Exited None, TimerFired);
            (Terminated, TimerFired)]
  = ([EvRun; EvOnExit "exit status 1"; EvPause 5000000000;
      EvRun; EvOnExit "command exited with code 0"; EvPause 5000000000;
      EvRun], true).
Proof. reflexivity. Qed.

(** ** Termination of [run] *)

Definition isPause (e : event) : bool :=
  match e with EvPause _ => true | _ => false end.

(** X17. With restart, [run] does return once the command is
    terminated: when every round before restarts the command and the
    next one ends by termination, during the command or during the
    pause, [run] returns in that round whatever the environment would
    decide afterwards; the command has run once more than it was
    restarted, and every restart has been preceded by one pause. *)
Theorem run_returns_on_termination (pre post : list round) (x : exit)
    (w : wake) :
  Forall restarts pre -> x = Terminated \/ w = TerminateClosed ->
  (run true (pre ++ (x, w) :: post)%list).2 = true /\
  run true (pre ++ (x, w) :: post)%list = run true (pre ++ [(x, w)])%list /\
  length (List.filter isRun (run true (pre ++ (x, w) :: post)%list).1)
  = S (length pre) /\
  length (List.filter isPause (run true (pre ++ (x, w) :: post)%list).1)
  = length pre.
Proof.
  intros Hpre Hterm. induction Hpre as [|r pre [err ->] Hpre IH].
  - simpl. destruct x as [|err]; [done|].
    destruct Hterm as [?| ->]; done.
  - simpl. destruct IH as (Hret & Heq & Hruns & Hpauses). rewrite Heq in *.
    destruct (run true (pre ++ [(x, w)])%list) as [evs ret]. simpl in *.
    by rewrite Hret, Hruns, Hpauses.
Qed.

(** Witness of X17: the command fails once and is terminated during
    the pause after its second exit. *)
Lemma run_returns_on_termination_witness :
  (run true [(Exited (Some "exit status 1"), TimerFired);
             (Exited None, TerminateClosed);
             (Exited None, TimerFired)]).2 = true.
Proof.
  apply (run_returns_on_termination
           [(Exited (Some "exit status 1"), TimerFired)]
           [(Exited None, TimerFired)] (Exited None) TerminateClosed).
  - constructor; [by eexists|constructor].
  - by right.
Defined.

(** ** [NewCmd]: the variables of the environment *)

(** [strings.ReplaceAll] of the Go library for an [old] that is not
    empty, as [NewCmd] calls it: the occurrences of [old] that do not
    overlap are replaced from left to right.  [skip] counts the
    characters of a replaced occurrence that are still to be dropped. *)
Fixpoint replaceFrom (old new : string) (skip : nat) (s : string) : string :=
  match s with
  | EmptyString => EmptyString
  | String a s' =>
      match skip with
      | S k => replaceFrom old new k s'
      | O =>
          if String.prefix old s
          then new ++ replaceFrom old new (String.length old - 1) s'
          else String a (replaceFrom old new 0 s')
      end
  end.

Definition ReplaceAll (s old new : string) : string := replaceFrom old new 0 s.

(** The fields of [Cmd] that [NewCmd] computes from its arguments. *)
Record Cmd := {
  cmdstr : string;
  restart : bool;
  env : list (string * string);
}.

(** [NewCmd].  Go ranges over a map in an order that is not specified:
    [env] lists the variables in the order of the iteration. *)
Definition NewCmd (cmdstr : string) (restart : bool)
    (env : list (string * string)) : Cmd :=
  {| cmdstr := fold_left (fun s kv => ReplaceAll s ("$" ++ kv.1) kv.2) env cmdstr;
     restart := restart;
     env := env |}.

Fixpoint hasDollar (s : string) : bool :=
  match s with
  | EmptyString => false
  | String a s' => Ascii.eqb a "$" || hasDollar s'
  end.

Lemma prefix_dollar (key s : string) (c : ascii) :
  Ascii.eqb c "$" = false -> String.prefix (String "$" key) (String c s) = false.
Proof.
  intros Hc. cbn [String.prefix].
  destruct (ascii_dec "$" c) as [<-|_]; done.
Qed.

Lemma replaceFrom_before_dollar (key val a b : string) :
  hasDollar a = false ->
  ReplaceAll (a ++ b) ("$" ++ key) val = a ++ ReplaceAll b ("$" ++ key) val.
Proof.
  unfold ReplaceAll. change ("$" ++ key) with (String "$" key).
  induction a as [|c a IH]; [done|].
  cbn [hasDollar]. intros [Hc Ha]%orb_false_elim.
  change (String c a ++ b) with (String c (a ++ b)).
  cbn [replaceFrom]. rewrite prefix_dollar by done. by rewrite IH.
Qed.

Lemma NewCmd_cmdstr_before_dollar (env : list (string * string))
    (rs : bool) (a b : string) :
  hasDollar a = false ->
  cmdstr (NewCmd (a ++ b) rs env) = a ++ cmdstr (NewCmd b rs env).
Proof.
  intros Ha. simpl. revert b. induction env as [|[key val] env IH]; intros b.
  - done.
  - simpl. rewrite replaceFrom_before_dollar by done. apply IH.
Qed.

Lemma append_empty_r (s : string) : s ++ "" = s.
Proof.
  induction s as [|c s IH]; [done|].
  change (String c (s ++ "") = String c s). by f_equal.
Qed.

(** X18. The variables of the environment replace nothing before the
    first dollar sign of the command: a command [a ++ b] whose part [a]
    has no dollar sign keeps [a] and is substituted in [b] only, in
    every order of the iteration over the environment; so a command
    without dollar sign is run as it is written. *)
Theorem NewCmd_keeps_text_before_dollar (env : list (string * string))
    (rs : bool) (a b : string) :
  hasDollar a = false ->
  cmdstr (NewCmd (a ++ b) rs env) = a ++ cmdstr (NewCmd b rs env) /\
  cmdstr (NewCmd a rs env) = a.
Proof.
  intros Ha. split; [by apply NewCmd_cmdstr_before_dollar|].
  rewrite <- (append_empty_r a) at 1.
  rewrite NewCmd_cmdstr_before_dollar by done.
  rewrite <- (append_empty_r a) at 2. f_equal.
  simpl. induction env as [|[key val] env IH]; [done|]. apply IH.
Qed.

(** Witness of X18: the path of the stream is substituted after the
    name of the program. *)
Lemma NewCmd_keeps_text_before_dollar_witness :
  cmdstr (NewCmd ("ffmpeg -i " ++ "rtsp://localhost/$RTSP_PATH") true
            [("RTSP_PORT", "8554"); ("RTSP_PATH", "cam1")])
  = "ffmpeg -i " ++ "rtsp://localhost/cam1".
Proof.
  destruct (NewCmd_keeps_text_before_dollar
              [("RTSP_PORT", "8554"); ("RTSP_PATH", "cam1")] true
              "ffmpeg -i " "rtsp://localhost/$RTSP_PATH" eq_refl) as [-> _].
  reflexivity.
Defined.

(** The result depends on the order of the iteration when a variable is
    the beginning of another one. *)
Example NewCmd_order_matters :
  cmdstr (NewCmd "echo $G10" false [("G1", "a"); ("G10", "b")]) = "echo a0" /\
  cmdstr (NewCmd "echo $G10" false [("G10", "b"); ("G1", "a")]) = "echo b".
Proof. split; reflexivity. Qed.

End Externalcmd.

(* ===================================================================== *)
(** * Static sources: [rtmpSource.run] and [udpSource.run]                *)
(* ===================================================================== *)

Module Sources.

(** The calls of a source on its parent and on the stream, and the
    return of [run] with its error ([None] is nil). *)
Inductive event :=
| EvSetReady (ok : bool)
| EvWriteUnit
| EvSetNotReady
| EvReturn (err : option error).

#[export] Instance event_eq_dec : EqDecision event.
Proof. solve_decision. Defined.

(** ** RTMP *)

(** A message read from the connection.  The functions that
    [getRTMPWriteFunc] returns are not in the file: [units] is the
    number of units they write to the stream for the message. *)
Inductive message :=
| MsgVideo (units : nat)
| MsgAudio (units : nat)
| MsgOther.

Inductive readResult :=
| ReadMsg (m : message)
| ReadErr (e : error).

Inductive videoFormat := VideoNone | VideoH264 | VideoH265.

(** What the environment of one call of [rtmpSource.run] decides: the
    errors of [url.Parse], of the dial, of [InitializeClient] and of
    [ReadTracks] (or its two formats), the error in the answer to
    [SetReady], the results of [ReadMessage] in order, and whether the
    [select] of [run] takes the case of [ctx.Done]. *)
Record rtmpScript := {
  urlParse : option error;
  dial : option error;
  initializeClient : option error;
  readTracks : (videoFormat * bool) + error;
  rtmpSetReady : option error;
  rtmpReads : list readResult;
  rtmpCancelled : bool;
}.

(** The [for] loop of the reading goroutine: the events, and the error
    it returns with ([None]: [ReadMessage] has not returned). *)
Fixpoint rtmpReadLoop (hasVideo hasAudio : bool) (reads : list readResult)
  : list event * option error :=
  match reads with
  | [] => ([], None)
  | ReadErr e :: _ => ([], Some e)
  | ReadMsg (MsgVideo n) :: reads' =>
      if negb hasVideo
      then ([], Some "received an H264 packet, but track is not set up")
      else
        let '(evs, res) := rtmpReadLoop hasVideo hasAudio reads' in
        ((replicate n EvWriteUnit ++ evs)%list, res)
  | ReadMsg (MsgAudio n) :: reads' =>
      if negb hasAudio
      then ([], Some "received an AAC packet, but track is not set up")
      else
        let '(evs, res) := rtmpReadLoop hasVideo hasAudio reads' in
        ((replicate n EvWriteUnit ++ evs)%list, res)
  | ReadMsg MsgOther :: reads' => rtmpReadLoop hasVideo hasAudio reads'
  end.

(** The function whose result the goroutine sends on [readDone]; the
    deferred [SetNotReady] runs when it returns. *)
Definition rtmpReader (sc : rtmpScript) : list event * option error :=
  match initializeClient sc with
  | Some e => ([], Some e)
  | None =>
      match readTracks sc with
      | inr e => ([], Some e)
      | inl (VideoH265, _) =>
          ([], Some "proxying H265 streams with RTMP is not supported")
      | inl (video, hasAudio) =>
          match rtmpSetReady sc with
          | Some e => ([EvSetReady false], Some e)
          | None =>
              let hasVideo := match video with VideoNone => false | _ => true end in
              match rtmpReadLoop hasVideo hasAudio (rtmpReads sc) with
              | (evs, Some e) =>
                  ((EvSetReady true :: evs ++ [EvSetNotReady])%list, Some e)
              | (evs, None) => (EvSetReady true :: evs, None)
              end
          end
      end
  end.

(** [rtmpSource.run]: in both cases of its [select], it returns after
    it has received from [readDone]. *)
Definition rtmpRun (sc : rtmpScript) : list event :=
  match urlParse sc with
  | Some e => [EvReturn (Some e)]
  | None =>
      match dial sc with
      | Some e => [EvReturn (Some e)]
      | None =>
          match rtmpReader sc with
          | (evs, Some e) =>
              (evs ++ [EvReturn (if rtmpCancelled sc then None else Some e)])%list
          | (evs, None) => evs
          end
      end
  end.

(** ** UDP / MPEG-TS *)

(** A call of [r.Read]: it fails, or it succeeds and the callbacks of
    the tracks write [units] units to the stream. *)
Inductive udpRead :=
| ReadOk (units : nat)
| ReadFail (e : error).

Record udpScript := {
  listenPacket : option error;
  multicast : option error;
  newReader : option error;
  udpSetReady : option error;
  udpReads : list udpRead;
  udpCancelled : bool;
}.

Fixpoint udpReadLoop (reads : list udpRead) : list event * option error :=
  match reads with
  | [] => ([], None)
  | ReadFail e :: _ => ([], Some e)
  | ReadOk n :: reads' =>
      let '(evs, res) := udpReadLoop reads' in
      ((replicate n EvWriteUnit ++ evs)%list, res)
  end.

(** [udpSource.runReader]. *)
Definition runReader (sc : udpScript) : list event * option error :=
  match newReader sc with
  | Some e => ([], Some e)
  | None =>
      match udpSetReady sc with
      | Some e => ([EvSetReady false], Some e)
      | None =>
          match udpReadLoop (udpReads sc) with
          | (evs, Some e) =>
              ((EvSetReady true :: evs ++ [EvSetNotReady])%list, Some e)
          | (evs, None) => (EvSetReady true :: evs, None)
          end
      end
  end.

(** [udpSource.run]. *)
Definition udpRun (sc : udpScript) : list event :=
  match listenPacket sc with
  | Some e => [EvReturn (Some e)]
  | None =>
      match multicast sc with
      | Some e => [EvReturn (Some e)]
      | None =>
          match runReader sc with
          | (evs, Some e) =>
              (evs ++ [EvReturn (Some (if udpCancelled sc then "terminated" else e))])%list
          | (evs, None) => evs
          end
      end
  end.

(** ** The order of the calls *)

(** The runs in which the calls are in order: [run] returns before any
    call, or after a refused [SetReady]; or [SetReady] succeeds, units
    are written, and [run] is still going or has returned after
    [SetNotReady]. *)
Inductive ordered : list event -> Prop :=
| ordered_early err : ordered [EvReturn err]
| ordered_refused err : ordered [EvSetReady false; EvReturn err]
| ordered_waiting : ordered []
| ordered_running n : ordered (EvSetReady true :: replicate n EvWriteUnit)
| ordered_finished n err :
    ordered (EvSetReady true :: replicate n EvWriteUnit
               ++ [EvSetNotReady; EvReturn err])%list.

(** Every unit is written after a successful [SetReady]. *)
Definition writesAfterReady (tr : list event) : Prop :=
  forall l1 l2, tr = (l1 ++ EvWriteUnit :: l2)%list -> EvSetReady true ∈ l1.

(** When [SetReady] has succeeded, [SetNotReady] is called after it and
    before [run] returns. *)
Definition notReadyBeforeReturn (tr : list event) : Prop :=
  forall l1 l2 err, tr = (l1 ++ EvReturn err :: l2)%list ->
    EvSetReady true ∈ l1 ->
    exists l3 l4, l1 = (l3 ++ EvSetReady true :: l4)%list /\ EvSetNotReady ∈ l4.

(** ** Properties *)

Lemma rtmpReadLoop_writes hasVideo hasAudio reads :
  exists n, (rtmpReadLoop hasVideo hasAudio reads).1 = replicate n EvWriteUnit.
Proof.
  induction reads as [|[[n|n|]|e] reads [m IH]]; simpl.
  - by exists 0%nat.
  - destruct (negb hasVideo); [by exists 0%nat|].
    destruct (rtmpReadLoop hasVideo hasAudio reads) as [evs res].
    simpl in *. exists (n + m)%nat. by rewrite IH, replicate_add.
  - destruct (negb hasAudio); [by exists 0%nat|].
    destruct (rtmpReadLoop hasVideo hasAudio reads) as [evs res].
    simpl in *. exists (n + m)%nat. by rewrite IH, replicate_add.
  - by exists m.
  - by exists 0%nat.
Qed.

Lemma udpReadLoop_writes reads :
  exists n, (udpReadLoop reads).1 = replicate n EvWriteUnit.
Proof.
  induction reads as [|[n|e] reads [m IH]]; simpl.
  - by exists 0%nat.
  - destruct (udpReadLoop reads) as [evs res].
    simpl in *. exists (n + m)%nat. by rewrite IH, replicate_add.
  - by exists 0%nat.
Qed.

Lemma rtmpRun_ordered (sc : rtmpScript) : ordered (rtmpRun sc).
Proof.
  unfold rtmpRun, rtmpReader.
  destruct (urlParse sc); [constructor|].
  destruct (dial sc); [constructor|].
  destruct (initializeClient sc); [constructor|].
  destruct (readTracks sc) as [[video hasAudio]|e]; [|constructor].
  assert (Hany : forall hv,
    ordered
      match
        match rtmpSetReady sc with
        | Some e => ([EvSetReady false], Some e)
        | None =>
            match rtmpReadLoop hv hasAudio (rtmpReads sc) with
            | (evs, Some e) =>
                ((EvSetReady true :: evs ++ [EvSetNotReady])%list, Some e)
            | (evs, None) => (EvSetReady true :: evs, None)
            end
        end
      with
      | (evs, Some e) =>
          (evs ++ [EvReturn (if rtmpCancelled sc then None else Some e)])%list
      | (evs, None) => evs
      end).
  { intros hv. destruct (rtmpSetReady sc); [constructor|].
    destruct (rtmpReadLoop_writes hv hasAudio (rtmpReads sc)) as [n Hn].
    destruct (rtmpReadLoop hv hasAudio (rtmpReads sc)) as [evs [e|]];
      simpl in Hn; subst evs.
    - simpl. rewrite <- app_assoc. apply ordered_finished.
    - apply ordered_running. }
  destruct video; [apply Hany|apply Hany|constructor].
Qed.

Lemma udpRun_ordered (sc : udpScript) : ordered (udpRun sc).
Proof.
  unfold udpRun, runReader.
  destruct (listenPacket sc); [constructor|].
  destruct (multicast sc); [constructor|].
  destruct (newReader sc); [constructor|].
  destruct (udpSetReady sc); [constructor|].
  destruct (udpReadLoop_writes (udpReads sc)) as [n Hn].
  destruct (udpReadLoop (udpReads sc)) as [evs [e|]]; simpl in Hn; subst evs.
  - simpl. rewrite <- app_assoc. apply ordered_finished.
  - apply ordered_running.
Qed.

Lemma not_in_replicate_writes n (e : event) :
  e <> EvWriteUnit -> e ∉ replicate n EvWriteUnit.
Proof. intros Hne Hin. apply elem_of_replicate in Hin as [-> _]. done. Qed.

Lemma ordered_writesAfterReady tr : ordered tr -> writesAfterReady tr.
Proof.
  intros Hord l1 l2 Heq.
  assert (Hin : EvWriteUnit ∈ tr).
  { rewrite Heq, elem_of_app. right. apply list_elem_of_here. }
  destruct Hord as [err|err| |n|n err].
  - apply list_elem_of_singleton in Hin. done.
  - apply elem_of_cons in Hin as [?|Hin]; [done|].
    apply list_elem_of_singleton in Hin. done.
  - by apply elem_of_nil in Hin.
  - destruct l1 as [|a l1]; [done|]. injection Heq as <- _.
    apply list_elem_of_here.
  - destruct l1 as [|a l1]; [done|]. injection Heq as <- _.
    apply list_elem_of_here.
Qed.

Lemma ordered_notReadyBeforeReturn tr : ordered tr -> notReadyBeforeReturn tr.
Proof.
  intros Hord l1 l2 err' Heq Hready.
  destruct Hord as [err|err| |n|n err].
  - destruct l1 as [|a l1]; [by apply elem_of_nil in Hready|].
    injection Heq as _ Heq. by destruct l1.
  - destruct l1 as [|a l1]; [by apply elem_of_nil in Hready|].
    injection Heq as <- Heq. destruct l1 as [|b l1].
    + apply list_elem_of_singleton in Hready. done.
    + injection Heq as _ Heq. by destruct l1.
  - by destruct l1.
  - exfalso.
    assert (Hin : EvReturn err' ∈ EvSetReady true :: replicate n EvWriteUnit).
    { rewrite Heq, elem_of_app. right. apply list_elem_of_here. }
    apply elem_of_cons in Hin as [?|Hin]; [done|].
    by apply not_in_replicate_writes in Hin.
  - replace (EvSetReady true :: replicate n EvWriteUnit
              ++ [EvSetNotReady; EvReturn err])%list
      with ((EvSetReady true :: replicate n EvWriteUnit ++ [EvSetNotReady])
              ++ [EvReturn err])%list in Heq
      by (simpl; by rewrite <- app_assoc).
    apply Program.snoc_split_last in Heq as [(_ & Hl1 & _)|(l2' & _ & Hl1)].
    + exists [], (replicate n EvWriteUnit ++ [EvSetNotReady])%list.
      split; [by rewrite <- Hl1|].
      rewrite elem_of_app. right. apply list_elem_of_here.
    + exfalso.
      assert (Hin : EvReturn err' ∈
                EvSetReady true :: replicate n EvWriteUnit ++ [EvSetNotReady]).
      { rewrite Hl1, elem_of_app. right. apply list_elem_of_here. }
      apply elem_of_cons in Hin as [?|Hin]; [done|].
      apply elem_of_app in Hin as [Hin|Hin].
      * by apply not_in_replicate_writes in Hin.
      * apply list_elem_of_singleton in Hin. done.
Qed.

(** C6. In every run of the RTMP source and of the UDP source, a unit
    is written to the stream only after [SetReady] has been answered
    without error; and when [SetReady] has been answered without error
    and [run] returns, with an error or after a cancellation,
    [SetNotReady] has been called in between. *)
Theorem sources_ready_write_notReady :
  (forall sc : rtmpScript,
     writesAfterReady (rtmpRun sc) /\ notReadyBeforeReturn (rtmpRun sc)) /\
  (forall sc : udpScript,
     writesAfterReady (udpRun sc) /\ notReadyBeforeReturn (udpRun sc)).
Proof.
  split; intros sc.
  - pose proof (rtmpRun_ordered sc).
    split; [by apply ordered_writesAfterReady|by apply ordered_notReadyBeforeReturn].
  - pose proof (udpRun_ordered sc).
    split; [by apply ordered_writesAfterReady|by apply ordered_notReadyBeforeReturn].
Qed.

(** A source that is cancelled after two video messages: the closed
    connection makes the read fail, and [run] returns nil. *)
Example rtmpRun_cancelled :
  rtmpRun {| urlParse := None; dial := None; initializeClient := None;
             readTracks := inl (VideoH264, false); rtmpSetReady := None;
             rtmpReads := [ReadMsg (MsgVideo 1); ReadMsg (MsgVideo 2);
                           ReadErr "use of closed network connection"];
             rtmpCancelled := true |}
  = [EvSetReady true; EvWriteUnit; EvWriteUnit; EvWriteUnit; EvSetNotReady;
     EvReturn None].
Proof. reflexivity. Qed.

Example udpRun_read_timeout :
  udpRun {| listenPacket := None; multicast := None; newReader := None;
            udpSetReady := None;
            udpReads := [ReadOk 2; ReadFail "i/o timeout"];
            udpCancelled := false |}
  = [EvSetReady true; EvWriteUnit; EvWriteUnit; EvSetNotReady;
     EvReturn (Some "i/o timeout")].
Proof. reflexivity. Qed.

(** ** One [SetReady], one [SetNotReady], one return *)

Definition isSetReady (e : event) : bool :=
  match e with EvSetReady _ => true | _ => false end.

Definition isSetNotReady (e : event) : bool :=
  match e with EvSetNotReady => true | _ => false end.

Definition isReturn (e : event) : bool :=
  match e with EvReturn _ => true | _ => false end.

Lemma filter_replicate_writes (test : event -> bool) (n : nat) :
  test EvWriteUnit = false ->
  List.filter test (replicate n EvWriteUnit) = [].
Proof. intros Ht. induction n as [|n IH]; simpl; [done|]. by rewrite Ht. Qed.

(** The calls of a run that is in order. *)
Lemma ordered_counts (tr : list event) :
  ordered tr ->
  (length (List.filter isSetReady tr) <= 1)%nat /\
  (length (List.filter isReturn tr) <= 1)%nat /\
  length (List.filter isSetNotReady tr)
  = (if bool_decide (EvSetReady true ∈ tr)
     then length (List.filter isReturn tr) else 0%nat) /\
  (forall l1 err l2, tr = (l1 ++ EvReturn err :: l2)%list -> l2 = []).
Proof.
  intros Hord. destruct Hord as [err|err| |n|n err].
  - split; [simpl; lia|]. split; [simpl; lia|]. split.
    + rewrite bool_decide_false; [done|].
      intros Hin. apply list_elem_of_singleton in Hin. done.
    + intros [|a l1] err' l2; simpl; [by intros [= _ <-]|].
      intros [= _ Heq]. by destruct l1.
  - split; [simpl; lia|]. split; [simpl; lia|]. split.
    + rewrite bool_decide_false; [done|].
      intros Hin. apply elem_of_cons in Hin as [?|Hin]; [done|].
      apply list_elem_of_singleton in Hin. done.
    + intros [|a [|b l1]] err' l2; simpl; [done| |].
      * by intros [= _ _ <-].
      * intros [= _ _ Heq]. by destruct l1.
  - split; [simpl; lia|]. split; [simpl; lia|]. split.
    + rewrite bool_decide_false; [done|]. by intros ?%elem_of_nil.
    + intros [|a l1] err' l2; done.
  - simpl. rewrite !filter_replicate_writes by done.
    split; [simpl; lia|]. split; [simpl; lia|]. split.
    + done.
    + intros l1 err' l2 Heq. exfalso.
      assert (Hin : EvReturn err' ∈ EvSetReady true :: replicate n EvWriteUnit).
      { rewrite Heq, elem_of_app. right. apply list_elem_of_here. }
      apply elem_of_cons in Hin as [?|Hin]; [done|].
      by apply not_in_replicate_writes in Hin.
  - simpl. rewrite !List.filter_app, !filter_replicate_writes by done.
    split; [simpl; lia|]. split; [simpl; lia|]. split.
    + done.
    + intros l1 err' l2 Heq.
      replace (EvSetReady true :: replicate n EvWriteUnit
                 ++ [EvSetNotReady; EvReturn err])%list
        with ((EvSetReady true :: replicate n EvWriteUnit ++ [EvSetNotReady])
                 ++ [EvReturn err])%list in Heq
        by (simpl; by rewrite <- app_assoc).
      apply Program.snoc_split_last in Heq as [(Hl2 & _ & _)|(l2' & _ & Hl1)];
        [done|].
      exfalso.
      assert (Hin : EvReturn err' ∈
                EvSetReady true :: replicate n EvWriteUnit ++ [EvSetNotReady]).
      { rewrite Hl1, elem_of_app. right. apply list_elem_of_here. }
      apply elem_of_cons in Hin as [?|Hin]; [done|].
      apply elem_of_app in Hin as [Hin|Hin].
      * by apply not_in_replicate_writes in Hin.
      * apply list_elem_of_singleton in Hin. done.
Qed.

(** X19. A run of the RTMP source or of the UDP source calls [SetReady]
    at most once and returns at most once, after which nothing more
    happens.  The calls are balanced: [SetNotReady] is called once when
    [SetReady] has succeeded and [run] has returned, and never
    otherwise, so a path is not left ready by a source that has
    returned, and is not set not ready by a source that never was. *)
Theorem sources_calls_balanced :
  (forall sc : rtmpScript,
     (length (List.filter isSetReady (rtmpRun sc)) <= 1)%nat /\
     (length (List.filter isReturn (rtmpRun sc)) <= 1)%nat /\
     length (List.filter isSetNotReady (rtmpRun sc))
     = (if bool_decide (EvSetReady true ∈ rtmpRun sc)
        then length (List.filter isReturn (rtmpRun sc)) else 0%nat) /\
     (forall l1 err l2, rtmpRun sc = (l1 ++ EvReturn err :: l2)%list -> l2 = [])) /\
  (forall sc : udpScript,
     (length (List.filter isSetReady (udpRun sc)) <= 1)%nat /\
     (length (List.filter isReturn (udpRun sc)) <= 1)%nat /\
     length (List.filter isSetNotReady (udpRun sc))
     = (if bool_decide (EvSetReady true ∈ udpRun sc)
        then length (List.filter isReturn (udpRun sc)) else 0%nat) /\
     (forall l1 err l2, udpRun sc = (l1 ++ EvReturn err :: l2)%list -> l2 = [])).
Proof.
  split; intros sc; apply ordered_counts;
    [apply rtmpRun_ordered|apply udpRun_ordered].
Qed.

(** ** Multicast groups *)

(** net.Interface with the field the function reads. *)
Record Interface := {
  Name : string;
  Flags : Z;
}.

Section WithNet.

(** [net.FlagMulticast], and the result of [JoinGroup] on an interface,
    which the network decides. *)
Variable FlagMulticast : Z.
Variable JoinGroup : Interface -> option error.

(** The loop over the interfaces: the calls of [JoinGroup] so far, and
    [success]. *)
Fixpoint joinLoop (intfs : list Interface) (joined : list Interface)
    (success : bool) : list Interface * bool :=
  match intfs with
  | [] => (joined, success)
  | intf :: intfs' =>
      if negb (Z.land (Flags intf) FlagMulticast =? 0)%Z then
        match JoinGroup intf with
        | None => joinLoop intfs' (joined ++ [intf])%list true
        | Some _ => joinLoop intfs' (joined ++ [intf])%list success
        end
      else joinLoop intfs' joined success
  end.

Definition errNoMulticast : error :=
  "unable to activate multicast on any network interface".

(** [joinMulticastGroupOnAtLeastOneInterface] on the result of
    [net.Interfaces]: the interfaces on which [JoinGroup] has been
    called, and the error returned. *)
Definition joinMulticastGroupOnAtLeastOneInterface
    (interfaces : list Interface + error) : list Interface * option error :=
  match interfaces with
  | inr err => ([], Some err)
  | inl intfs =>
      let '(joined, success) := joinLoop intfs [] false in
      if negb success then (joined, Some errNoMulticast) else (joined, None)
  end.

Definition isMulticast (intf : Interface) : bool :=
  negb (Z.land (Flags intf) FlagMulticast =? 0)%Z.

Definition joins (intf : Interface) : bool :=
  isMulticast intf && bool_decide (JoinGroup intf = None).

Lemma joinLoop_spec (intfs joined : list Interface) (success : bool) :
  joinLoop intfs joined success
  = ((joined ++ List.filter isMulticast intfs)%list,
     success || existsb joins intfs).
Proof.
  revert joined success.
  induction intfs as [|intf intfs IH]; intros joined success; simpl.
  - by rewrite app_nil_r, orb_false_r.
  - unfold joins, isMulticast.
    destruct (negb (Z.land (Flags intf) FlagMulticast =? 0)%Z); simpl.
    + destruct (JoinGroup intf) as [e|]; rewrite IH, <- app_assoc; simpl.
      * done.
      * by rewrite orb_true_r.
    + by rewrite IH.
Qed.

(** X20. The function returns nil exactly when [net.Interfaces] has
    succeeded and [JoinGroup] has succeeded on an interface with the
    multicast flag.  It does not stop at the first success: [JoinGroup]
    is called once on every interface with the flag, in order, and on no
    other interface. *)
Theorem joinMulticast_succeeds_iff (interfaces : list Interface + error) :
  ((joinMulticastGroupOnAtLeastOneInterface interfaces).2 = None <->
   exists intfs intf, interfaces = inl intfs /\ intf ∈ intfs /\
     Z.land (Flags intf) FlagMulticast <> 0 /\ JoinGroup intf = None) /\
  (forall intfs, interfaces = inl intfs ->
     (joinMulticastGroupOnAtLeastOneInterface interfaces).1
     = List.filter isMulticast intfs).
Proof.
  destruct interfaces as [intfs|err]; simpl.
  2:{ split; [|done]. split; [done|]. by intros (? & ? & [=] & _). }
  rewrite joinLoop_spec. simpl.
  split; [|intros ? [= <-]; by destruct (existsb joins intfs)].
  destruct (existsb joins intfs) eqn:Hex; simpl.
  - split; [|done]. intros _.
    apply existsb_exists in Hex as (intf & Hin & Hj).
    unfold joins, isMulticast in Hj.
    apply andb_true_iff in Hj as [Hm Hj].
    apply bool_decide_eq_true in Hj.
    exists intfs, intf. split; [done|]. split; [by apply list_elem_of_In|].
    split; [|done]. apply negb_true_iff, Z.eqb_neq in Hm. done.
  - split; [done|]. intros (intfs' & intf & [= <-] & Hin & Hm & Hj).
    assert (existsb joins intfs = true) as Hex'; [|congruence].
    apply existsb_exists. exists intf. split; [by apply list_elem_of_In|].
    unfold joins, isMulticast. apply andb_true_iff. split.
    + by apply negb_true_iff, Z.eqb_neq.
    + by apply bool_decide_eq_true.
Qed.

End WithNet.

(** The loopback interface has no multicast flag and the first Ethernet
    interface refuses the group: the second one is still tried. *)
Example joinMulticast_second_interface :
  joinMulticastGroupOnAtLeastOneInterface 16
    (fun intf => if String.eqb (Name intf) "eth1" then None
                 else Some "no such device")
    (inl [ {| Name := "lo"; Flags := 13 |}; {| Name := "eth0"; Flags := 19 |};
           {| Name := "eth1"; Flags := 19 |} ])
  = ([ {| Name := "eth0"; Flags := 19 |}; {| Name := "eth1"; Flags := 19 |} ],
     None).
Proof. reflexivity. Qed.

End Sources.

(* ===================================================================== *)
(** * Credentials: [conf.Credential]                                      *)
(* ===================================================================== *)

Module Credential.

(** ** SHA-256 and Base64, for the credentials of the tests *)

(** SHA-256 as FIPS 180-4 defines it, on bytes and 32-bit words as
    integers. *)
Definition K : list Z :=
  [
   1116352408; 1899447441; 3049323471; 3921009573; 961987163; 1508970993;
   2453635748; 2870763221; 3624381080; 310598401; 607225278; 1426881987;
   1925078388; 2162078206; 2614888103; 3248222580; 3835390401; 4022224774;
   264347078; 604807628; 770255983; 1249150122; 1555081692; 1996064986;
   2554220882; 2821834349; 2952996808; 3210313671; 3336571891; 3584528711;
   113926993; 338241895; 666307205; 773529912; 1294757372; 1396182291;
   1695183700; 1986661051; 2177026350; 2456956037; 2730485921; 2820302411;
   3259730800; 3345764771; 3516065817; 3600352804; 4094571909; 275423344;
   430227734; 506948616; 659060556; 883997877; 958139571; 1322822218;
   1537002063; 1747873779; 1955562222; 2024104815; 2227730452; 2361852424;
   2428436474; 2756734187; 3204031479; 3329325298
  ].

Definition w32 (x : Z) : Z := x mod 2 ^ 32.

Definition rotr (n x : Z) : Z :=
  w32 (Z.lor (Z.shiftr x n) (Z.shiftl x (32 - n))).

Definition Ch (x y z : Z) : Z :=
  Z.lxor (Z.land x y) (Z.land (Z.lxor x (2 ^ 32 - 1)) z).

Definition Maj (x y z : Z) : Z :=
  Z.lxor (Z.lxor (Z.land x y) (Z.land x z)) (Z.land y z).

Definition bigSigma0 (x : Z) : Z := Z.lxor (Z.lxor (rotr 2 x) (rotr 13 x)) (rotr 22 x).
Definition bigSigma1 (x : Z) : Z := Z.lxor (Z.lxor (rotr 6 x) (rotr 11 x)) (rotr 25 x).
Definition smallSigma0 (x : Z) : Z := Z.lxor (Z.lxor (rotr 7 x) (rotr 18 x)) (Z.shiftr x 3).
Definition smallSigma1 (x : Z) : Z := Z.lxor (Z.lxor (rotr 17 x) (rotr 19 x)) (Z.shiftr x 10).

(** Big-endian words of a sequence of bytes. *)
Fixpoint words (bs : list Z) : list Z :=
  match bs with
  | a :: b :: c :: d :: bs' =>
      Z.lor (Z.lor (Z.lor (Z.shiftl a 24) (Z.shiftl b 16)) (Z.shiftl c 8)) d
      :: words bs'
  | _ => []
  end.

(** The message schedule, latest word first. *)
Fixpoint extend (n : nat) (rw : list Z) : list Z :=
  match n with
  | O => rw
  | S n' =>
      extend n'
        (w32 (smallSigma1 (nth 1 rw 0) + nth 6 rw 0
              + smallSigma0 (nth 14 rw 0) + nth 15 rw 0) :: rw)
  end.

Definition schedule (block : list Z) : list Z := rev (extend 48 (rev block)).

Definition state : Type := Z * Z * Z * Z * Z * Z * Z * Z.

Definition step (s : state) (kw : Z * Z) : state :=
  let '(a, b, c, d, e, f, g, h) := s in
  let t1 := w32 (h + bigSigma1 e + Ch e f g + kw.1 + kw.2) in
  let t2 := w32 (bigSigma0 a + Maj a b c) in
  (w32 (t1 + t2), a, b, c, w32 (d + t1), e, f, g).

Definition compress (s : state) (block : list Z) : state :=
  let '(a, b, c, d, e, f, g, h) := s in
  let '(a', b', c', d', e', f', g', h') :=
    fold_left step (combine K (schedule block)) s in
  (w32 (a + a'), w32 (b + b'), w32 (c + c'), w32 (d + d'),
   w32 (e + e'), w32 (f + f'), w32 (g + g'), w32 (h + h')).

Fixpoint blocks (n : nat) (ws : list Z) : list (list Z) :=
  match n with
  | O => []
  | S n' => take 16 ws :: blocks n' (drop 16 ws)
  end.

Definition bigEndian (k : nat) (x : Z) : list Z :=
  map (fun i => Z.land (Z.shiftr x (8 * Z.of_nat i)) 255) (rev (seq 0 k)).

Definition pad (msg : list Z) : list Z :=
  let len := Z.of_nat (length msg) in
  (msg ++ [128] ++ replicate (Z.to_nat ((55 - len) mod 64)) 0
     ++ bigEndian 8 (8 * len))%list.

Definition sha256 (msg : list Z) : list Z :=
  let ws := words (pad msg) in
  let '(a, b, c, d, e, f, g, h) :=
    fold_left compress (blocks (length ws / 16) ws)
      (1779033703, 3144134277, 1013904242, 2773480762,
       1359893119, 2600822924, 528734635, 1541459225) in
  flat_map (bigEndian 4) [a; b; c; d; e; f; g; h].

(** Base64 with the standard alphabet and padding (RFC 4648). *)
Definition alphabet : list ascii :=
  String.list_ascii_of_string
    "ABCDEFGHIJKLMNOPQRSTUVWXYZabcdefghijklmnopqrstuvwxyz0123456789+/".

Definition b64 (n : Z) : ascii := nth (Z.to_nat (Z.land n 63)) alphabet "="%char.

Fixpoint base64 (bs : list Z) : string :=
  match bs with
  | a :: b :: c :: bs' =>
      String (b64 (Z.shiftr a 2))
        (String (b64 (Z.lor (Z.shiftl a 4) (Z.shiftr b 4)))
           (String (b64 (Z.lor (Z.shiftl b 2) (Z.shiftr c 6)))
              (String (b64 c) (base64 bs'))))
  | [a; b] =>
      String (b64 (Z.shiftr a 2))
        (String (b64 (Z.lor (Z.shiftl a 4) (Z.shiftr b 4)))
           (String (b64 (Z.shiftl b 2)) "="))
  | [a] =>
      String (b64 (Z.shiftr a 2)) (String (b64 (Z.shiftl a 4)) "==")
  | [] => ""
  end.

Definition bytesOf (s : string) : list Z :=
  map (fun c => Z.of_N (N_of_ascii c)) (String.list_ascii_of_string s).

(** [base64(SHA-256(input))]. *)
Definition sha256Base64 (input : string) : string := base64 (sha256 (bytesOf input)).

Example sha256Base64_abc :
  sha256Base64 "abc" = "ungWv48Bz+pBQUDeXa4iI7ADYaOWF3qctBD/YfIAFa0=".
Proof. vm_compute. reflexivity. Qed.

(** ** The credential *)

(** The tests of [Credential] are covered here, the file that defines it
    is not.  The definitions below follow the specification, and the
    names of the methods are those the tests call. *)

(** [strings.HasPrefix] together with the rest of the string. *)
Fixpoint stripPrefix (p s : string) : option string :=
  match p, s with
  | EmptyString, _ => Some s
  | String a p', String b s' =>
      if Ascii.eqb a b then stripPrefix p' s' else None
  | String _ _, EmptyString => None
  end.

Inductive form :=
| FormPlain (value : string)
| FormSha256 (digest : string)
| FormArgon2 (phc : string).

(** Modelled from the spec: the three forms in which a credential is
    stored, told apart by the prefixes "sha256:" and "argon2:". *)
Definition classify (value : string) : form :=
  match stripPrefix "sha256:" value with
  | Some d => FormSha256 d
  | None =>
      match stripPrefix "argon2:" value with
      | Some s => FormArgon2 s
      | None => FormPlain value
      end
  end.

Definition IsEmpty (value : string) : bool := bool_decide (value = "").

Definition IsSha256 (value : string) : bool :=
  match classify value with FormSha256 _ => true | _ => false end.

Definition IsArgon2 (value : string) : bool :=
  match classify value with FormArgon2 _ => true | _ => false end.

Definition IsHashed (value : string) : bool := IsSha256 value || IsArgon2 value.

(** The fields of a string that "$" separates. *)
Fixpoint fields (s : string) : list string :=
  match s with
  | EmptyString => [""]
  | String c s' =>
      if Ascii.eqb c "$" then "" :: fields s'
      else
        match fields s' with
        | fd :: fds => String c fd :: fds
        | [] => [String c ""]
        end
  end.

Inductive variant := Argon2i | Argon2id.

Record phc := {
  phcVariant : variant;
  phcVersion : string;
  phcParams : string;
  phcSalt : string;
  phcHash : string;
}.

(** Modelled from the spec: the variants of a PHC string that are
    accepted, argon2i and argon2id only. *)
Definition parseVariant (s : string) : option variant :=
  if bool_decide (s = "argon2i") then Some Argon2i
  else if bool_decide (s = "argon2id") then Some Argon2id
  else None.

(** Modelled from the spec: the decoder of a PHC string,
    [$variant$v=..$m=..,t=..,p=..$salt$hash]. *)
Definition phcDecode (s : string) : option phc :=
  match fields s with
  | "" :: v :: rest =>
      match parseVariant v with
      | None => None
      | Some var =>
          match rest with
          | [ver; params; salt; hash] =>
              if bool_decide (ver <> "") && bool_decide (params <> "")
                 && bool_decide (salt <> "") && bool_decide (hash <> "")
              then Some {| phcVariant := var; phcVersion := ver;
                           phcParams := params; phcSalt := salt;
                           phcHash := hash |}
              else None
          | _ => None
          end
      end
  | _ => None
  end.

Definition isBase64Char (c : ascii) : bool :=
  bool_decide (c ∈ alphabet) || Ascii.eqb c "=".

Inductive configError :=
| unsupportedCharacters
| invalidArgon2Hash.

Section WithArgon2.

(** The Argon2 function, which maps variant, version, parameters, salt
    and password to the encoded hash, and the characters allowed in a
    plain credential, are parameters. *)
Variable argon2 : variant -> string -> string -> string -> string -> string.
Variable plainChar : ascii -> bool.

(** Modelled from the spec: [Check]. A plain credential is compared with
    the input; for a hashed one the hash of the input is compared with
    the stored hash. *)
Definition Check (value input : string) : bool :=
  match classify value with
  | FormSha256 digest => bool_decide (sha256Base64 input = digest)
  | FormArgon2 s =>
      match phcDecode s with
      | Some h =>
          bool_decide (argon2 (phcVariant h) (phcVersion h) (phcParams h)
                         (phcSalt h) input = phcHash h)
      | None => false
      end
  | FormPlain v => bool_decide (input = v)
  end.

(** Modelled from the spec: [validateConfig]; [None] is nil.  An empty
    credential is valid. *)
Definition validateConfig (value : string) : option configError :=
  if IsEmpty value then None
  else
    match classify value with
    | FormSha256 digest =>
        if bool_decide (digest <> "")
           && forallb isBase64Char (String.list_ascii_of_string digest)
        then None else Some unsupportedCharacters
    | FormArgon2 s =>
        match phcDecode s with
        | Some _ => None
        | None => Some invalidArgon2Hash
        end
    | FormPlain v =>
        if forallb plainChar (String.list_ascii_of_string v)
        then None else Some unsupportedCharacters
    end.

(** ** Properties *)







End WithArgon2.

(** ** The cases of the tests *)

(** The characters of a plain credential in the examples: letters,
    digits and some punctuation, among which neither "/" nor ",". *)
Definition plainCharOfTests (c : ascii) : bool :=
  bool_decide (c ∈ String.list_ascii_of_string
    "ABCDEFGHIJKLMNOPQRSTUVWXYZabcdefghijklmnopqrstuvwxyz0123456789!$()*+.;<=>[]^_-{}@#&").

Example test_IsEmpty :
  IsEmpty "" = true /\ IsHashed "" = false /\
  IsEmpty "password" = false /\ IsHashed "password" = false.
Proof. repeat split; reflexivity. Qed.

Example test_IsSha256_IsArgon2 :
  IsSha256 "sha256:j1tsRqDEw9xvq/D7/9tMx6Jh/jMhk3UfjwIB2f1zgMo=" = true /\
  IsArgon2 "sha256:j1tsRqDEw9xvq/D7/9tMx6Jh/jMhk3UfjwIB2f1zgMo=" = false /\
  IsArgon2 "argon2:$argon2id$v=19$m=65536,t=1,p=4$WXJGqwIB2qd+pRmxMOw9Dg$X4gvR0ZB2DtQoN8vOnJPR2SeFdUhH9TyVzfV98sfWeE" = true /\
  IsSha256 "argon2:$argon2id$v=19$m=65536,t=1,p=4$WXJGqwIB2qd+pRmxMOw9Dg$X4gvR0ZB2DtQoN8vOnJPR2SeFdUhH9TyVzfV98sfWeE" = false.
Proof. repeat split; reflexivity. Qed.

Example test_Check_plain (argon2 : variant -> string -> string -> string -> string -> string) :
  Check argon2 "password" "password" = true /\
  Check argon2 "password" "wrongpassword" = false.
Proof. split; reflexivity. Qed.

Example test_Check_sha256 (argon2 : variant -> string -> string -> string -> string -> string) :
  Check argon2 "sha256:rl3rgi4NcZkpAEcacZnQ2VuOfJ0FxAqCRaKB/SwdZoQ=" "testuser" = true /\
  Check argon2 "sha256:rl3rgi4NcZkpAEcacZnQ2VuOfJ0FxAqCRaKB/SwdZoQ=" "notestuser" = false.
Proof. split; vm_compute; reflexivity. Qed.

Example test_validateConfig :
  validateConfig plainCharOfTests "" = None /\
  validateConfig plainCharOfTests "validPlain123" = None /\
  validateConfig plainCharOfTests "invalid/Plain" = Some unsupportedCharacters /\
  validateConfig plainCharOfTests "sha256:validBase64EncodedHash==" = None /\
  validateConfig plainCharOfTests "sha256:inval*idBase64" = Some unsupportedCharacters /\
  validateConfig plainCharOfTests
    "argon2:$argon2id$v=19$m=4096,t=3,p=1$MTIzNDU2Nzg$zarsL19s86GzUWlAkvwt4gJBFuU/A9CVuCjNI4fksow"
  = None /\
  validateConfig plainCharOfTests "argon2:invalid" = Some invalidArgon2Hash /\
  validateConfig plainCharOfTests
    "$argon2d$v=19$m=4096,t=3,p=1$MTIzNDU2Nzg$Xqyd4R7LzXvvAEHaVU12+Nzf5OkHoYcwIEIIYJUDpz0"
  = Some unsupportedCharacters.
Proof. repeat split; vm_compute; reflexivity. Qed.

End Credential.
